(** * Leaderboard ranking and caching (src/pages/Leaderboard.tsx)

    A shallow embedding of the three asynchronous functions of the
    [Leaderboard] component -- [fetchCompletedMatches],
    [calculateLeaderboard] and [fetchLeaderboard] -- together with the
    pure pieces they are built from (the scoring [reduce], the
    [split('@')] of the e-mail address, [Array.prototype.sort] and
    [slice]).

    Conventions of the model.
    - JavaScript numbers that the code compares or counts (numbers of
      picks, epoch milliseconds, the numbers held by a target record) are
      integers [Z].
    - The two fields of a target record are read from an untyped document
      ([any]) and compared as they are found: each is a number, [null], or
      left out ([Field]).
    - An optional property ([timestamp?], [status?], [description?], a
      missing [matchTargets]) is an [option].
    - A JavaScript object used as a dictionary ([playersData],
      [matchTargets], the [leaderboards] collection) is a [gmap string _].
    - A Firestore collection whose documents are enumerated is the list of
      its documents, in the order in which [getDocs] yields them.
    - Every [await] on Firestore may throw; [new Date()] reads a clock.
      Both are effects of the program type [Prog] below. *)

From Stdlib Require Import ZArith Ascii String.
From stdpp Require Import gmap strings list sorting.

Local Open Scope string_scope.
Local Open Scope list_scope.
Local Open Scope Z_scope.

(** ** Data model *)

(** [Match['status']] *)
Inductive MatchStatus := upcoming | live | completed.

Global Instance MatchStatus_eq_dec : EqDecision MatchStatus.
Proof. solve_decision. Defined.

(** The fields of a document of the [matches] collection ([doc.data()]);
    [timestamp] is in epoch milliseconds. *)
Module MatchData.
Record t := mk {
  team1 : string;
  team2 : string;
  venue : string;
  timestamp : Z;
  description : option string;
  status : option MatchStatus
}.
End MatchData.

(** [{ id: doc.id, ...doc.data() } as Match] *)
Module Match.
Record t := mk { id : string; data : MatchData.t }.
Definition timestamp (m : t) : Z := MatchData.timestamp (data m).
Definition status (m : t) : option MatchStatus := MatchData.status (data m).
End Match.

(** A numeric field of a stored document, as the code may find it: left
    out ([undefined] when it is read), [null], or a number. *)
Inductive Field := Undefined | Null | Num (z : Z).

Global Instance Field_eq_dec : EqDecision Field.
Proof. solve_decision. Defined.

(** [player.matchTargets[matchId]]: a target and, once the match has been
    scored, the points actually made. *)
Module MatchTarget.
Record t := mk { target : Field; actualPoints : Field }.
End MatchTarget.

(** A document of the [players] collection; only [matchTargets] is read by
    the leaderboard. *)
Module Player.
Record t := mk {
  name : string;
  matchTargets : option (gmap string MatchTarget.t)
}.
End Player.

(** A document of the [predictions] collection. *)
Module Prediction.
Record t := mk {
  userId : string;
  userEmail : string;
  matchId : string;
  selectedPlayers : list string
}.
End Prediction.

(** [type LeaderboardEntry] *)
Module LeaderboardEntry.
Record t := mk {
  userId : string;
  userEmail : string;
  displayName : string;
  correctPredictions : Z;
  totalPredictions : Z;
  matchId : string;
  matchDetails : Match.t;
  timestamp : option Z
}.
End LeaderboardEntry.

(** A document of the [leaderboards] collection, as [setDoc] writes it. *)
Module LeaderboardDoc.
Record t := mk { entries : list LeaderboardEntry.t; lastUpdated : Z }.
End LeaderboardDoc.

(** ** Pure parts *)

(** *** [String.prototype.split] with a one-character separator *)

Fixpoint split (sep : ascii) (s : string) : list string :=
  match s with
  | EmptyString => [EmptyString]
  | String c s' =>
      if Ascii.eqb c sep then EmptyString :: split sep s'
      else match split sep s' with
           | [] => [String c EmptyString]
           | h :: t => String c h :: t
           end
  end.

(** [prediction.userEmail.split('@')[0]] *)
Definition displayNameOf (userEmail : string) : string :=
  default EmptyString (head (split "@"%char userEmail)).


(** *** [Array.prototype.sort] and [slice(0, n)]

    [sort] is stable (ECMAScript 2019).  With a comparator that is a
    difference of keys there is only one stable sorted arrangement (lemma
    [sort_unique] below), whatever the algorithm of the engine; it is
    computed here by inserting every element into the sorted rest.
    [cmp a b <= 0] means that [a] may stay before [b]. *)
Section Sort.
Context {A : Type} (cmp : A → A → Z).

Fixpoint sort_insert (x : A) (l : list A) : list A :=
  match l with
  | [] => [x]
  | y :: l' => if decide (cmp x y ≤ 0) then x :: y :: l'
               else y :: sort_insert x l'
  end.

Fixpoint sort (l : list A) : list A :=
  match l with
  | [] => []
  | x :: l' => sort_insert x (sort l')
  end.
End Sort.

(** [arr.slice(0, n)] *)
Definition slice0 {A} (n : nat) (l : list A) : list A := take n l.

(** *** Scoring one prediction *)

(** [player?.matchTargets?.[matchId]] for [player = playersData[playerId]]:
    absent when the player is unknown, has no [matchTargets], or has no
    target for this match. *)
Definition lookupTarget (playersData : gmap string Player.t)
    (matchId playerId : string) : option MatchTarget.t :=
  match playersData !! playerId with
  | None => None
  | Some player =>
      match Player.matchTargets player with
      | None => None
      | Some targets => targets !! matchId
      end
  end.

(** [v !== undefined] *)
Definition isDefined (v : Field) : bool :=
  match v with
  | Undefined => false
  | _ => true
  end.

(** The number that [>=] makes of an operand: [undefined] gives NaN (no
    number), [null] gives 0. *)
Definition toNumber (v : Field) : option Z :=
  match v with
  | Undefined => None
  | Null => Some 0
  | Num z => Some z
  end.

(** [a >= b]: false when an operand is NaN. *)
Definition geJs (a b : Field) : bool :=
  match toNumber a, toNumber b with
  | Some x, Some y => bool_decide (y ≤ x)
  | _, _ => false
  end.

(** The body of the callback of [selectedPlayers.reduce]. *)
Definition scorePick (playersData : gmap string Player.t) (matchId : string)
    (acc : Z) (playerId : string) : Z :=
  match lookupTarget playersData matchId playerId with
  | None => acc
  | Some target =>
      if isDefined (MatchTarget.actualPoints target)
         && geJs (MatchTarget.actualPoints target) (MatchTarget.target target)
      then acc + 1
      else acc
  end.

(** [prediction.selectedPlayers.reduce(..., 0)] *)
Definition correctPredictionsOf (playersData : gmap string Player.t)
    (matchId : string) (selectedPlayers : list string) : Z :=
  foldl (scorePick playersData matchId) 0 selectedPlayers.

(** The object pushed on [leaderboardData] for one prediction; [now] is the
    value of [new Date()]. *)
Definition mkEntry (playersData : gmap string Player.t) (matchId : string)
    (matchDetails : Match.t) (prediction : Prediction.t) (now : Z)
    : LeaderboardEntry.t :=
  {| LeaderboardEntry.userId := Prediction.userId prediction;
     LeaderboardEntry.userEmail := Prediction.userEmail prediction;
     LeaderboardEntry.displayName := displayNameOf (Prediction.userEmail prediction);
     LeaderboardEntry.correctPredictions :=
       correctPredictionsOf playersData matchId (Prediction.selectedPlayers prediction);
     LeaderboardEntry.totalPredictions :=
       Z.of_nat (length (Prediction.selectedPlayers prediction));
     LeaderboardEntry.matchId := Prediction.matchId prediction;
     LeaderboardEntry.matchDetails := matchDetails;
     LeaderboardEntry.timestamp := Some now |}.

(** [(a, b) => b.correctPredictions - a.correctPredictions] *)
Definition byCorrectDesc (a b : LeaderboardEntry.t) : Z :=
  LeaderboardEntry.correctPredictions b - LeaderboardEntry.correctPredictions a.

(** [(a, b) => b.timestamp.getTime() - a.timestamp.getTime()] *)
Definition byTimestampDesc (a b : Match.t) : Z :=
  Match.timestamp b - Match.timestamp a.

(** [playersSnapshot.docs.reduce((acc, doc) => { acc[doc.id] = ...; return acc }, {})] *)
Definition indexPlayers (docs : list (string * Player.t)) : gmap string Player.t :=
  foldl (λ acc doc, <[doc.1 := doc.2]> acc) ∅ docs.

(** ** The Firestore database, the component state and the effects *)

(** What an asynchronous call can throw: [new Error(message)], or whatever
    a failed (or timed-out) Firestore call rejects with. *)
Inductive JsError :=
  | MkError (message : string)
  | FirestoreError.

(** The four collections the component touches. *)
Record Db := mkDb {
  players : list (string * Player.t);
  matches : list (string * MatchData.t);
  predictions : list (string * Prediction.t);
  leaderboards : gmap string LeaderboardDoc.t
}.

(** The Firestore calls of the component. *)
Inductive Req :=
  | GetPlayers                          (* getDocs(collection(db, 'players')) *)
  | GetMatch (id : string)              (* getDoc(doc(db, 'matches', id)) *)
  | QueryMatches (st : MatchStatus)     (* getDocs(query(.., where('status', '==', st))) *)
  | QueryPredictions (matchId : string) (* getDocs(query(.., where('matchId', '==', matchId))) *)
  | GetLeaderboard (id : string)        (* getDoc(doc(db, 'leaderboards', id)) *)
  | SetLeaderboard (id : string) (d : LeaderboardDoc.t). (* setDoc(doc(db, 'leaderboards', id), d) *)

Definition Resp (r : Req) : Type :=
  match r with
  | GetPlayers => list (string * Player.t)
  | GetMatch _ => option MatchData.t
  | QueryMatches _ => list (string * MatchData.t)
  | QueryPredictions _ => list (string * Prediction.t)
  | GetLeaderboard _ => option LeaderboardDoc.t
  | SetLeaderboard _ _ => unit
  end.

(** [getDoc] on a collection: the document with that id, if any. *)
Definition lookupDoc {V} (id : string) (docs : list (string * V)) : option V :=
  snd <$> head (filter (λ d, d.1 = id) docs).

(** The last document of a listing with the given id. *)
Definition lastDoc {V} (id : string) (docs : list (string * V)) : option V :=
  snd <$> last (filter (λ d, d.1 = id) docs).

Definition setLeaderboards (f : gmap string LeaderboardDoc.t → gmap string LeaderboardDoc.t)
    (d : Db) : Db :=
  {| players := players d; matches := matches d;
     predictions := predictions d; leaderboards := f (leaderboards d) |}.

(** What Firestore answers, and the database afterwards. *)
Definition respond (d : Db) (r : Req) : Db * Resp r :=
  match r return Db * Resp r with
  | GetPlayers => (d, players d)
  | GetMatch id => (d, lookupDoc id (matches d))
  | QueryMatches st =>
      (d, filter (λ doc, MatchData.status doc.2 = Some st) (matches d))
  | QueryPredictions matchId =>
      (d, filter (λ doc, Prediction.matchId doc.2 = matchId) (predictions d))
  | GetLeaderboard id => (d, leaderboards d !! id)
  | SetLeaderboard id doc => (setLeaderboards <[id := doc]> d, tt)
  end.

(** The [useState] cells of the component. *)
Record State := mkState {
  leaderboard : list LeaderboardEntry.t;
  loading : bool;
  selectedMatch : string;
  completedMatches : list Match.t
}.

Inductive StateUpdate :=
  | setLeaderboard (l : list LeaderboardEntry.t)
  | setLoading (b : bool)
  | setSelectedMatch (s : string)
  | setCompletedMatches (l : list Match.t).

Definition applyUpdate (u : StateUpdate) (s : State) : State :=
  match u with
  | setLeaderboard l => mkState l (loading s) (selectedMatch s) (completedMatches s)
  | setLoading b => mkState (leaderboard s) b (selectedMatch s) (completedMatches s)
  | setSelectedMatch m => mkState (leaderboard s) (loading s) m (completedMatches s)
  | setCompletedMatches l => mkState (leaderboard s) (loading s) (selectedMatch s) l
  end.

(** [const [..] = useState(..)]: the initial state of the component. *)
Definition initialState : State := mkState [] true "all" [].

(** Asynchronous programs: a tree of effects.  [Await r k] issues the
    Firestore call [r] and resumes with [k] on its outcome (a rejection or a
    value); [NewDate] is [new Date()]; [ConsoleError] is [console.error];
    [SetState] is a call of a [useState] setter. *)
Inductive Prog (A : Type) : Type :=
  | Ret (a : A)
  | Throw (e : JsError)
  | Await (r : Req) (k : JsError + Resp r → Prog A)
  | NewDate (k : Z → Prog A)
  | ConsoleError (msg : string) (e : JsError) (k : Prog A)
  | SetState (u : StateUpdate) (k : Prog A).

Arguments Ret {A} a.
Arguments Throw {A} e.
Arguments Await {A} r k.
Arguments NewDate {A} k.
Arguments ConsoleError {A} msg e k.
Arguments SetState {A} u k.

(** Sequencing: [const x = p; f x]; a throw of [p] skips [f]. *)
Fixpoint bind {A B} (p : Prog A) (f : A → Prog B) : Prog B :=
  match p with
  | Ret a => f a
  | Throw e => Throw e
  | Await r k => Await r (λ x, bind (k x) f)
  | NewDate k => NewDate (λ t, bind (k t) f)
  | ConsoleError msg e k => ConsoleError msg e (bind k f)
  | SetState u k => SetState u (bind k f)
  end.

(** [try { p } catch (error) { h error }] *)
Fixpoint tryCatch {A} (p : Prog A) (h : JsError → Prog A) : Prog A :=
  match p with
  | Ret a => Ret a
  | Throw e => h e
  | Await r k => Await r (λ x, tryCatch (k x) h)
  | NewDate k => NewDate (λ t, tryCatch (k t) h)
  | ConsoleError msg e k => ConsoleError msg e (tryCatch k h)
  | SetState u k => SetState u (tryCatch k h)
  end.

(** [try { p } finally { fin }] *)
Definition tryFinally {A} (p : Prog A) (fin : Prog unit) : Prog A :=
  bind (tryCatch (bind p (λ a, Ret (inr a))) (λ e, Ret (inl e)))
       (λ r, bind fin (λ _, match r with inl e => Throw e | inr a => Ret a end)).

(** [await call]: the value, or the rejection rethrown. *)
Definition await (r : Req) : Prog (Resp r) :=
  Await r (λ x, match x with inl e => Throw e | inr v => Ret v end).

Definition newDate : Prog Z := NewDate Ret.
Definition consoleError (msg : string) (e : JsError) : Prog unit :=
  ConsoleError msg e (Ret tt).
Definition setState (u : StateUpdate) : Prog unit := SetState u (Ret tt).

Notation "'let!' x ':=' p 'in' q" := (bind p (λ x, q))
  (at level 10, x name, p at level 100, q at level 200, only parsing).
Notation "'do!' p 'in' q" := (bind p (λ _, q))
  (at level 10, p at level 100, q at level 200, only parsing).

(** [for (const x of l) { out.push(await f x) }] *)
Fixpoint forEach {A B} (f : A → Prog B) (l : list A) : Prog (list B) :=
  match l with
  | [] => Ret []
  | x :: l' => let! y := f x in let! ys := forEach f l' in Ret (y :: ys)
  end.

(** ** The component's functions *)

(** The size of the ranking: [.slice(0, 10)]. *)
Definition topN : nat := 10.

(** [calculateLeaderboard] *)
Definition calculateLeaderboard (matchId : string) : Prog (list LeaderboardEntry.t) :=
  tryCatch
    (let! playersSnapshot := await GetPlayers in
     let playersData := indexPlayers playersSnapshot in
     let! matchDoc := await (GetMatch matchId) in
     match matchDoc with
     | None => Throw (MkError "Match not found")
     | Some data =>
         let matchDetails := Match.mk matchId data in
         let! predictionsSnapshot := await (QueryPredictions matchId) in
         let! leaderboardData :=
           forEach (λ doc : string * Prediction.t,
                      let! now := newDate in
                      Ret (mkEntry playersData matchId matchDetails doc.2 now))
                   predictionsSnapshot in
         Ret (slice0 topN (sort byCorrectDesc leaderboardData))
     end)
    (λ error,
       do! consoleError "Error calculating leaderboard:" error in
       Ret []).

(** [entry => ({ ...entry, timestamp: entry.timestamp?.toDate() || new Date() })] *)
Definition withTimestamp (entry : LeaderboardEntry.t) (ts : Z) : LeaderboardEntry.t :=
  {| LeaderboardEntry.userId := LeaderboardEntry.userId entry;
     LeaderboardEntry.userEmail := LeaderboardEntry.userEmail entry;
     LeaderboardEntry.displayName := LeaderboardEntry.displayName entry;
     LeaderboardEntry.correctPredictions := LeaderboardEntry.correctPredictions entry;
     LeaderboardEntry.totalPredictions := LeaderboardEntry.totalPredictions entry;
     LeaderboardEntry.matchId := LeaderboardEntry.matchId entry;
     LeaderboardEntry.matchDetails := LeaderboardEntry.matchDetails entry;
     LeaderboardEntry.timestamp := Some ts |}.

Definition readEntry (entry : LeaderboardEntry.t) : Prog LeaderboardEntry.t :=
  match LeaderboardEntry.timestamp entry with
  | Some ts => Ret (withTimestamp entry ts)
  | None => let! now := newDate in Ret (withTimestamp entry now)
  end.

(** [fetchLeaderboard] *)
Definition fetchLeaderboard (matchId : string) : Prog unit :=
  do! setState (setLoading true) in
  tryFinally
    (tryCatch
       (let! leaderboardDoc := await (GetLeaderboard matchId) in
        let! leaderboardData :=
          match leaderboardDoc with
          | Some data => forEach readEntry (LeaderboardDoc.entries data)
          | None =>
              let! leaderboardData := calculateLeaderboard matchId in
              do! (if decide (0 < length leaderboardData)%nat then
                     let! now := newDate in
                     await (SetLeaderboard matchId (LeaderboardDoc.mk leaderboardData now))
                   else Ret tt) in
              Ret leaderboardData
          end in
        setState (setLeaderboard leaderboardData))
       (λ error,
          do! consoleError "Error fetching leaderboard:" error in
          setState (setLeaderboard [])))
    (setState (setLoading false)).

(** [fetchCompletedMatches] *)
Definition fetchCompletedMatches : Prog unit :=
  tryCatch
    (let! matchesSnapshot := await (QueryMatches completed) in
     let matches :=
       sort byTimestampDesc
            (map (λ doc : string * MatchData.t, Match.mk doc.1 doc.2) matchesSnapshot) in
     do! setState (setCompletedMatches matches) in
     match matches with
     | first :: _ =>
         do! setState (setSelectedMatch (Match.id first)) in
         fetchLeaderboard (Match.id first)
     | [] => setState (setLoading false)
     end)
    (λ error,
       do! consoleError "Error fetching matches:" error in
       setState (setLoading false)).

(** [handleMatchChange] *)
Definition handleMatchChange (matchId : string) : Prog unit :=
  do! setState (setSelectedMatch matchId) in
  fetchLeaderboard matchId.

(** ** Running a program *)

(** The world a program runs in.  [trace] lists the Firestore calls issued
    so far, oldest first, each with whether it succeeded; the call number
    [n] (counted from 0) fails iff [fails n]; the [n]-th [new Date()]
    yields [clock n]. *)
Record World := mkWorld {
  db : Db;
  state : State;
  console : list (string * JsError);
  trace : list (Req * bool);
  ticks : nat;
  clock : nat → Z;
  fails : nat → bool
}.

Definition withState (f : State → State) (w : World) : World :=
  mkWorld (db w) (f (state w)) (console w) (trace w) (ticks w) (clock w) (fails w).

Definition logError (msg : string) (e : JsError) (w : World) : World :=
  mkWorld (db w) (state w) (console w ++ [(msg, e)]) (trace w) (ticks w) (clock w) (fails w).

Definition tick (w : World) : World :=
  mkWorld (db w) (state w) (console w) (trace w) (S (ticks w)) (clock w) (fails w).

(** One Firestore call: rejected if the fault oracle says so, answered from
    the database otherwise. *)
Definition perform (r : Req) (w : World) : World * (JsError + Resp r) :=
  if fails w (length (trace w)) then
    (mkWorld (db w) (state w) (console w) (trace w ++ [(r, false)])
             (ticks w) (clock w) (fails w),
     inl FirestoreError)
  else
    let '(d, x) := respond (db w) r in
    (mkWorld d (state w) (console w) (trace w ++ [(r, true)])
             (ticks w) (clock w) (fails w),
     inr x).

(** A call run to completion, on its own. *)
Fixpoint run {A} (p : Prog A) (w : World) : World * (JsError + A) :=
  match p with
  | Ret a => (w, inr a)
  | Throw e => (w, inl e)
  | Await r k => let '(w', x) := perform r w in run (k x) w'
  | NewDate k => run (k (clock w (ticks w))) (tick w)
  | ConsoleError msg e k => run k (logError msg e w)
  | SetState u k => run k (withState (applyUpdate u) w)
  end.

(** Interleaved calls.  JavaScript runs the code between two [await]s
    without interruption, so one turn of a call runs it up to and including
    its next Firestore call ([advance]); a schedule names the call that
    takes each turn.  The [await] of [calculateLeaderboard] by
    [fetchLeaderboard] is not a turn of its own: the reading of the clock
    for [lastUpdated] is taken in the turn that ends the computation, where
    the code may let other calls read the clock first.  This bears on the
    clock readings of interleaved calls only, not on the calls they
    issue. *)
Fixpoint advance {A} (p : Prog A) (w : World) : World * Prog A :=
  match p with
  | Ret a => (w, Ret a)
  | Throw e => (w, Throw e)
  | Await r k => let '(w', x) := perform r w in (w', k x)
  | NewDate k => advance (k (clock w (ticks w))) (tick w)
  | ConsoleError msg e k => advance k (logError msg e w)
  | SetState u k => advance k (withState (applyUpdate u) w)
  end.

Fixpoint interleave {A} (schedule : list nat) (calls : list (Prog A)) (w : World)
    : World * list (Prog A) :=
  match schedule with
  | [] => (w, calls)
  | i :: schedule' =>
      match calls !! i with
      | None => interleave schedule' calls w
      | Some p =>
          let '(w', p') := advance p w in
          interleave schedule' (<[i := p']> calls) w'
      end
  end.

(** Every call takes one turn, in order; and that [n] times over. *)
Definition roundRobin (n m : nat) : list nat := concat (replicate n (seq 0 m)).

(** The writes that reached the [leaderboards] document of a match. *)
Definition isWriteTo (matchId : string) (ev : Req * bool) : bool :=
  match ev with
  | (SetLeaderboard id _, true) => bool_decide (id = matchId)
  | _ => false
  end.

Definition countEvents (f : Req * bool → bool) (evs : list (Req * bool)) : nat :=
  length (List.filter f evs).

Definition writesTo (matchId : string) (w : World) : nat :=
  countEvents (isWriteTo matchId) (trace w).

(** The computations made for a match: each reads the match document
    once. *)
Definition isComputeOf (matchId : string) (ev : Req * bool) : bool :=
  match ev with
  | (GetMatch id, _) => bool_decide (id = matchId)
  | _ => false
  end.

Definition computationsOf (matchId : string) (w : World) : nat :=
  countEvents (isComputeOf matchId) (trace w).

(** * Notions used in the statements *)

(** ** Descending orders *)

(** The comparator [(a, b) => key b - key a]: descending by [key]. *)
Definition descBy {A} (key : A → Z) (a b : A) : Z := key b - key a.

(** [a] may precede [b] in a descending ranking. *)
Definition geKey {A} (key : A → Z) (a b : A) : Prop := key b ≤ key a.

(** ** Ties *)

(** [a] stands before [b] in [l]. *)
Definition ranksAbove {A} (l : list A) (a b : A) : Prop :=
  ∃ i j, (i < j)%nat ∧ l !! i = Some a ∧ l !! j = Some b.

(** The tie-break of the specification.  [submitted] gives the time at
    which the prediction document with a given id was submitted (the code
    reads no such time); [all] holds the entries made from the documents
    [docs], in their order.  Of two entries with the same count, the one
    whose prediction was submitted first stands before the other. *)
Definition tiesBySubmission (submitted : string → Z)
    (docs : list (string * Prediction.t)) (all ranked : list LeaderboardEntry.t)
    : Prop :=
  ∀ i j d d' e e',
    docs !! i = Some d → docs !! j = Some d' →
    all !! i = Some e → all !! j = Some e' →
    submitted d.1 < submitted d'.1 →
    LeaderboardEntry.correctPredictions e = LeaderboardEntry.correctPredictions e' →
    ranksAbove ranked e e'.

(** The query yields the predictions in the order of their submission. *)
Definition listedAsSubmitted (submitted : string → Z)
    (docs : list (string * Prediction.t)) : Prop :=
  ∀ i j d d',
    (i ≤ j)%nat → docs !! i = Some d → docs !! j = Some d' →
    submitted d.1 ≤ submitted d'.1.

(** ** Correct picks and display names *)

(** The specification's notion of a correct pick: the player has a target
    record for the match, its actual value is present, and the actual value
    reaches the target. *)
Definition pickCorrect (playersData : gmap string Player.t) (matchId playerId : string)
    : Prop :=
  ∃ player targets record actual target,
    playersData !! playerId = Some player ∧
    Player.matchTargets player = Some targets ∧
    targets !! matchId = Some record ∧
    MatchTarget.actualPoints record = Num actual ∧
    MatchTarget.target record = Num target ∧
    target ≤ actual.

Global Instance pickCorrect_dec pd matchId playerId :
  Decision (pickCorrect pd matchId playerId).
Proof.
  unfold pickCorrect.
  destruct (pd !! playerId) as [player|] eqn:Hp;
    [|right; intros (?&?&?&?&?&?&_); congruence].
  destruct (Player.matchTargets player) as [targets|] eqn:Ht;
    [|right; intros (?&?&?&?&?&?&?&_); congruence].
  destruct (targets !! matchId) as [record|] eqn:Hr;
    [|right; intros (?&?&?&?&?&?&?&?&_); congruence].
  destruct (MatchTarget.actualPoints record) as [| |actual] eqn:Ha;
    [right; intros (?&?&?&?&?&?&?&?&?&_); congruence..|].
  destruct (MatchTarget.target record) as [| |target] eqn:Hg;
    [right; intros (?&?&?&?&?&?&?&?&?&?&_); congruence..|].
  destruct (decide (target ≤ actual)) as [Hle|Hle].
  - left. by exists player, targets, record, actual, target.
  - right. intros (p&t&r&a&g&?&?&?&?&?&?).
    assert (a = actual) by congruence. assert (g = target) by congruence.
    by subst.
Defined.

(** The picks that the code counts: the record of the player for the match
    holds an [actualPoints] other than [undefined] that compares [>=] with
    its target. *)
Definition counted (playersData : gmap string Player.t) (matchId playerId : string)
    : Prop :=
  ∃ record,
    lookupTarget playersData matchId playerId = Some record ∧
    MatchTarget.actualPoints record ≠ Undefined ∧
    geJs (MatchTarget.actualPoints record) (MatchTarget.target record) = true.

Global Instance counted_dec pd matchId playerId :
  Decision (counted pd matchId playerId).
Proof.
  unfold counted.
  destruct (lookupTarget pd matchId playerId) as [record|];
    [|right; intros (?&?&_); congruence].
  destruct (decide (MatchTarget.actualPoints record = Undefined)) as [Hu|Hd];
    [right; intros (?&?&?&_); simplify_eq; done|].
  destruct (geJs (MatchTarget.actualPoints record) (MatchTarget.target record)) eqn:Hge.
  - left. by exists record.
  - right. intros (?&?&?&?). simplify_eq. congruence.
Defined.


(** ** Contexts and outcomes *)

(** A context in which a program runs ([_ ; f], [try { _ } catch { h }] and
    their compositions) passes every effect of the program through. *)
Record EffectHom {A B} (K : Prog A → Prog B) : Prop := {
  hom_await r k : K (Await r k) = Await r (λ x, K (k x));
  hom_newDate k : K (NewDate k) = NewDate (λ t, K (k t));
  hom_console msg e k : K (ConsoleError msg e k) = ConsoleError msg e (K k);
  hom_setState u k : K (SetState u k) = SetState u (K k)
}.

(** The finished program that a result stands for. *)
Definition ofResult {A} (r : JsError + A) : Prog A :=
  match r with inl e => Throw e | inr a => Ret a end.

(** The world after a successful, respectively failed, Firestore call. *)
Definition answered (r : Req) (w : World) : World :=
  mkWorld (respond (db w) r).1 (state w) (console w) (trace w ++ [(r, true)])
          (ticks w) (clock w) (fails w).

Definition rejected (r : Req) (w : World) : World :=
  mkWorld (db w) (state w) (console w) (trace w ++ [(r, false)])
          (ticks w) (clock w) (fails w).

(** [n] readings of the clock. *)
Definition tickN (n : nat) (w : World) : World :=
  mkWorld (db w) (state w) (console w) (trace w) (ticks w + n) (clock w) (fails w).

(** The entries pushed by the loop over the predictions, in the order of
    the predictions; the [i]-th one is stamped with the [i]-th reading of
    the clock after the [t0] earlier ones. *)
Definition scoreAll (playersData : gmap string Player.t) (matchId : string)
    (matchDetails : Match.t) (clk : nat → Z) (t0 : nat)
    (docs : list (string * Prediction.t)) : list LeaderboardEntry.t :=
  imap (λ i doc, mkEntry playersData matchId matchDetails doc.2 (clk (t0 + i)%nat)) docs.

(** ** Rankings *)

(** The next [k] Firestore calls succeed. *)
Definition succeed (w : World) (k : nat) : Prop :=
  ∀ i, (i < k)%nat → fails w (length (trace w) + i)%nat = false.

(** The predictions of a match, in the order of the collection. *)
Definition predictionsFor (matchId : string) (d : Db) : list (string * Prediction.t) :=
  filter (λ doc, Prediction.matchId doc.2 = matchId) (predictions d).

(** One entry per prediction of the match, in the order of the
    predictions. *)
Definition allEntries (w : World) (matchId : string) (data : MatchData.t)
    : list LeaderboardEntry.t :=
  scoreAll (indexPlayers (players (db w))) matchId (Match.mk matchId data)
           (clock w) (ticks w) (predictionsFor matchId (db w)).

(** What [calculateLeaderboard] returns when nothing goes wrong. *)
Definition ranking (w : World) (matchId : string) (data : MatchData.t)
    : list LeaderboardEntry.t :=
  slice0 topN (sort byCorrectDesc (allEntries w matchId data)).

(** The world after a computation that went through. *)
Definition computedWorld (w : World) (matchId : string) : World :=
  mkWorld (db w) (state w) (console w)
          (trace w ++ [(GetPlayers, true); (GetMatch matchId, true);
                       (QueryPredictions matchId, true)])
          (ticks w + length (predictionsFor matchId (db w))) (clock w) (fails w).

Definition calcMessage : string := "Error calculating leaderboard:".

(** The worlds a computation can end in differ from the initial one only
    in the console, the trace and the clock. *)
Definition readOnly (w w' : World) : Prop :=
  db w' = db w ∧ state w' = state w ∧ clock w' = clock w ∧ fails w' = fails w.

(** ** Sample data *)

Module Sample.

Definition record (target : Z) (actual : option Z) : MatchTarget.t :=
  MatchTarget.mk (Num target)
                 (match actual with Some points => Num points | None => Undefined end).

Definition player (name : string) (targets : list (string * MatchTarget.t)) : Player.t :=
  Player.mk name (Some (list_to_map targets)).

Definition matchData (ts : Z) (st : MatchStatus) : MatchData.t :=
  MatchData.mk "Lions" "Tigers" "Oval" ts None (Some st).

Definition match1 : MatchData.t := matchData 100 completed.

(** Four players: one over the target, one under it, one not scored yet,
    one without any target; two completed matches and a live one; two
    predictions for [m1] and one for [m2]. *)
Definition db0 : Db :=
  mkDb
    [("p1", player "P1" [("m1", record 30 (Some 35))]);
     ("p2", player "P2" [("m1", record 30 (Some 10))]);
     ("p3", player "P3" [("m1", record 30 None)]);
     ("p4", Player.mk "P4" None)]
    [("m1", match1); ("m2", matchData 200 completed); ("m3", matchData 150 live)]
    [("x1", Prediction.mk "u1" "alice@example.com" "m1" ["p1"; "p2"; "p3"]);
     ("x2", Prediction.mk "u2" "bob" "m1" ["p1"; "p4"; "zz"]);
     ("x3", Prediction.mk "u3" "carol@a@b" "m2" ["p1"])]
    ∅.

(** Nothing fails; the clock advances by one at every reading. *)
Definition w0 : World :=
  mkWorld db0 initialState [] [] 0 (λ n, 1000 + Z.of_nat n) (λ _, false).

(** A player whose record for [m1] was stored as
    [{ target: 0, actualPoints: null }], and a user who picked that player. *)
Definition dbNull : Db :=
  mkDb
    [("p0", Player.mk "P0" (Some {[ "m1" := MatchTarget.mk (Num 0) Null ]}))]
    [("m1", match1)]
    [("x0", Prediction.mk "u0" "zoe@example.com" "m1" ["p0"])]
    ∅.

Definition wNull : World :=
  mkWorld dbNull initialState [] [] 0 (λ n, 1000 + Z.of_nat n) (λ _, false).

(** A cached leaderboard whose only entry carries no timestamp. *)
Definition bareEntry : LeaderboardEntry.t :=
  LeaderboardEntry.mk "u1" "alice@example.com" "alice" 1 3 "m1" (Match.mk "m1" match1) None.

Definition dbCached : Db :=
  mkDb (players db0) (matches db0) (predictions db0)
       {[ "m1" := LeaderboardDoc.mk [bareEntry] 500 ]}.

Definition wCached : World :=
  mkWorld dbCached initialState [] [] 0 (λ n, 1000 + Z.of_nat n) (λ _, false).

(** A cached leaderboard whose only entry has its timestamp. *)
Definition stampedEntry : LeaderboardEntry.t := withTimestamp bareEntry 700.

Definition wStored : World :=
  mkWorld (mkDb (players db0) (matches db0) (predictions db0)
                {[ "m1" := LeaderboardDoc.mk [stampedEntry] 700 ]})
          initialState [] [] 0 (λ n, 1000 + Z.of_nat n) (λ _, false).

(** Every Firestore call fails. *)
Definition wDown : World :=
  mkWorld db0 initialState [] [] 0 (λ n, 1000 + Z.of_nat n) (λ _, true).

(** Only the fifth Firestore call fails. *)
Definition wWriteFails : World :=
  mkWorld db0 initialState [] [] 0 (λ n, 1000 + Z.of_nat n) (λ n, bool_decide (n = 4%nat)).

(** The same data read by a second client, whose clock is ahead. *)
Definition wLater : World :=
  mkWorld db0 initialState [] [] 0 (λ n, 5000 + Z.of_nat n) (λ _, false).

(** Five users on one match: A has 2 of 3 right, B 3 of 3, C 1 of 3, and D
    and E, who come later, 2 of 3 like A. *)
Definition dbRank : Db :=
  mkDb
    [("a", player "A" [("m1", record 10 (Some 10))]);
     ("b", player "B" [("m1", record 10 (Some 25))]);
     ("c", player "C" [("m1", record 10 (Some 11))]);
     ("x", player "X" [("m1", record 10 (Some 9))]);
     ("y", player "Y" [("m1", record 10 (Some 0))])]
    [("m1", match1)]
    [("k1", Prediction.mk "A" "a@x.org" "m1" ["a"; "b"; "x"]);
     ("k2", Prediction.mk "B" "b@x.org" "m1" ["a"; "b"; "c"]);
     ("k3", Prediction.mk "C" "c@x.org" "m1" ["a"; "x"; "y"]);
     ("k4", Prediction.mk "D" "d@x.org" "m1" ["a"; "b"; "x"]);
     ("k5", Prediction.mk "E" "e@x.org" "m1" ["b"; "c"; "y"])]
    ∅.

Definition wRank : World :=
  mkWorld dbRank initialState [] [] 0 (λ n, 1000 + Z.of_nat n) (λ _, false).

(** The same five predictions as the query may also yield them: those of D
    and E first.  A submitted first, then B, C, D and E. *)
Definition dbRelisted : Db :=
  mkDb (players dbRank) (matches dbRank)
    [("k4", Prediction.mk "D" "d@x.org" "m1" ["a"; "b"; "x"]);
     ("k5", Prediction.mk "E" "e@x.org" "m1" ["b"; "c"; "y"]);
     ("k1", Prediction.mk "A" "a@x.org" "m1" ["a"; "b"; "x"]);
     ("k2", Prediction.mk "B" "b@x.org" "m1" ["a"; "b"; "c"]);
     ("k3", Prediction.mk "C" "c@x.org" "m1" ["a"; "x"; "y"])]
    ∅.

Definition wRelisted : World :=
  mkWorld dbRelisted initialState [] [] 0 (λ n, 1000 + Z.of_nat n) (λ _, false).

Definition submittedAt (id : string) : Z :=
  if decide (id = "k1") then 1
  else if decide (id = "k2") then 2
  else if decide (id = "k3") then 3
  else if decide (id = "k4") then 4
  else 5.

(** Fifteen users on one match; the users with an even number have their
    pick right. *)
Definition manyPredictions : list (string * Prediction.t) :=
  imap (λ i (name : string),
          (name, Prediction.mk name name "m1" [if Nat.even i then "a" else "x"]))
       ["u00"; "u01"; "u02"; "u03"; "u04"; "u05"; "u06"; "u07"; "u08"; "u09";
        "u10"; "u11"; "u12"; "u13"; "u14"].

Definition wMany : World :=
  mkWorld (mkDb (players dbRank) (matches dbRank) manyPredictions ∅)
          initialState [] [] 0 (λ n, 1000 + Z.of_nat n) (λ _, false).

End Sample.

(** ** The cache *)

(** What the cache-hit path makes of the stored entries: an entry without a
    timestamp gets the next reading of the clock. *)
Fixpoint fillTimestamps (clk : nat → Z) (t : nat) (es : list LeaderboardEntry.t)
    : list LeaderboardEntry.t :=
  match es with
  | [] => []
  | e :: es' =>
      match LeaderboardEntry.timestamp e with
      | Some ts => withTimestamp e ts :: fillTimestamps clk t es'
      | None => withTimestamp e (clk t) :: fillTimestamps clk (S t) es'
      end
  end.

(** The number of stored entries without a timestamp. *)
Definition missingTimestamps (es : list LeaderboardEntry.t) : nat :=
  length (filter (λ e, LeaderboardEntry.timestamp e = None) es).

Definition hasTimestamp (e : LeaderboardEntry.t) : Prop :=
  LeaderboardEntry.timestamp e ≠ None.

Definition fetchMessage : string := "Error fetching leaderboard:".

(** The state after [setLeaderboard(l)] and [setLoading(false)]. *)
Definition shown (l : list LeaderboardEntry.t) (s : State) : State :=
  mkState l false (selectedMatch s) (completedMatches s).

(** The document that the cache-miss path writes. *)
Definition snapshotOf (w : World) (matchId : string) (data : MatchData.t)
    : LeaderboardDoc.t :=
  LeaderboardDoc.mk (ranking w matchId data)
    (clock w (ticks w + length (predictionsFor matchId (db w)))%nat).

(** ** What no program changes *)

(** Only the [leaderboards] collection is ever written; the clock and the
    fault oracle belong to the environment. *)
Definition sameEnvironment (w w' : World) : Prop :=
  clock w' = clock w ∧ fails w' = fails w ∧
  players (db w') = players (db w) ∧
  matches (db w') = matches (db w) ∧
  predictions (db w') = predictions (db w).

(** The state updates a program can make all satisfy [Q]. *)
Fixpoint updatesIn {A} (Q : StateUpdate → Prop) (p : Prog A) : Prop :=
  match p with
  | Ret _ | Throw _ => True
  | Await r k => ∀ x, updatesIn Q (k x)
  | NewDate k => ∀ t, updatesIn Q (k t)
  | ConsoleError _ _ k => updatesIn Q k
  | SetState u k => Q u ∧ updatesIn Q k
  end.

(** [calculateLeaderboard] updates no state; [fetchLeaderboard] only sets
    [leaderboard] and [loading]. *)
Definition leaderboardUpdate (u : StateUpdate) : Prop :=
  match u with
  | setLeaderboard _ | setLoading _ => True
  | _ => False
  end.

(** ** Determinism of the computation *)

(** An entry with its [timestamp] field left out. *)
Definition withoutTimestamp (entry : LeaderboardEntry.t) : LeaderboardEntry.t :=
  {| LeaderboardEntry.userId := LeaderboardEntry.userId entry;
     LeaderboardEntry.userEmail := LeaderboardEntry.userEmail entry;
     LeaderboardEntry.displayName := LeaderboardEntry.displayName entry;
     LeaderboardEntry.correctPredictions := LeaderboardEntry.correctPredictions entry;
     LeaderboardEntry.totalPredictions := LeaderboardEntry.totalPredictions entry;
     LeaderboardEntry.matchId := LeaderboardEntry.matchId entry;
     LeaderboardEntry.matchDetails := LeaderboardEntry.matchDetails entry;
     LeaderboardEntry.timestamp := None |}.

(** The documents of a listing, each with its position.  The loop over the
    predictions reads the clock once per document: the entry of the document
    at position [i] holds reading number [i] of the computation. *)
Definition numbered {A} (l : list A) : list (nat * A) := imap (λ i x, (i, x)) l.

(** The entry made from a numbered prediction by a computation that starts at
    reading [t0] of the clock [clk]. *)
Definition entryAt (playersData : gmap string Player.t) (matchId : string)
    (matchDetails : Match.t) (clk : nat → Z) (t0 : nat)
    (p : nat * (string * Prediction.t)) : LeaderboardEntry.t :=
  mkEntry playersData matchId matchDetails p.2.2 (clk (t0 + p.1)%nat).

(** The comparator of the ranking, on numbered predictions. *)
Definition byCountDesc (playersData : gmap string Player.t) (matchId : string)
    (a b : nat * (string * Prediction.t)) : Z :=
  correctPredictionsOf playersData matchId (Prediction.selectedPlayers b.2.2)
  - correctPredictionsOf playersData matchId (Prediction.selectedPlayers a.2.2).

(** The predictions whose entries a computation returns, in the order of
    the ranking: none when the match does not exist. *)
Definition keptPredictions (d : Db) (matchId : string)
    : list (nat * (string * Prediction.t)) :=
  match lookupDoc matchId (matches d) with
  | Some _ =>
      take topN (sort (byCountDesc (indexPlayers (players d)) matchId)
                      (numbered (predictionsFor matchId d)))
  | None => []
  end.

(** ** Repeated calls of [fetchLeaderboard] *)

(** [n] calls one after the other; the lists they show. *)
Fixpoint fetchTimes (n : nat) (matchId : string) (w : World)
    : World * list (list LeaderboardEntry.t) :=
  match n with
  | O => (w, [])
  | S n' =>
      let w1 := (run (fetchLeaderboard matchId) w).1 in
      let '(w2, shownLists) := fetchTimes n' matchId w1 in
      (w2, leaderboard (state w1) :: shownLists)
  end.

(** No Firestore call ever fails. *)
Definition neverFails (w : World) : Prop := ∀ i, fails w i = false.

(** ** The list of completed matches *)

(** The matches that [fetchCompletedMatches] sorts: the documents of status
    [completed], each with its id. *)
Definition completedDocs (d : Db) : list Match.t :=
  map (λ doc : string * MatchData.t, Match.mk doc.1 doc.2)
      (filter (λ doc, MatchData.status doc.2 = Some completed) (matches d)).

Definition keepsMatches (u : StateUpdate) : Prop :=
  match u with
  | setCompletedMatches _ => False
  | _ => True
  end.

(** ** Interleaved calls *)

(** One turn for every call, in order. *)
Fixpoint round {A} (calls : list (Prog A)) (w : World) : World * list (Prog A) :=
  match calls with
  | [] => (w, [])
  | p :: calls' =>
      let '(w1, p') := advance p w in
      let '(w2, calls'') := round calls' w1 in
      (w2, p' :: calls'')
  end.

(** [n] rounds. *)
Fixpoint rounds {A} (n : nat) (calls : list (Prog A)) (w : World)
    : World * list (Prog A) :=
  match n with
  | O => (w, calls)
  | S n' => let '(w', calls') := round calls w in rounds n' calls' w'
  end.

(** Programs that make no Firestore call. *)
Fixpoint noAwait {A} (p : Prog A) : Prop :=
  match p with
  | Ret _ | Throw _ => True
  | Await _ _ => False
  | NewDate k => ∀ t, noAwait (k t)
  | ConsoleError _ _ k => noAwait k
  | SetState _ k => noAwait k
  end.

(** Calls that follow a script.  A turn of a call either reads (with the
    database still as it was: [d]), or writes the leaderboard of the match,
    or finishes without a Firestore call. *)
Inductive Turn := Reads (computes : nat) | Writes | Finishes.

Definition turnWrites (t : Turn) : nat :=
  match t with Writes => 1 | _ => 0 end.

Definition turnComputes (t : Turn) : nat :=
  match t with Reads c => c | _ => 0 end.

Definition turnPre (d : Db) (t : Turn) (w : World) : Prop :=
  match t with
  | Reads _ => neverFails w ∧ db w = d
  | _ => neverFails w
  end.

Definition turnPost (matchId : string) (t : Turn) (w w' : World) : Prop :=
  fails w' = fails w ∧
  (if t is Reads _ then db w' = db w else True) ∧
  writesTo matchId w' = (writesTo matchId w + turnWrites t)%nat ∧
  computationsOf matchId w' = (computationsOf matchId w + turnComputes t)%nat.

Fixpoint plays (matchId : string) (d : Db) (script : list Turn) (p : Prog unit)
    : Prop :=
  match script with
  | [] => p = Ret tt
  | t :: script' =>
      ∀ w, turnPre d t w →
        ∃ w' p',
          advance p w = (w', p') ∧ turnPost matchId t w w' ∧ plays matchId d script' p'
  end.

(** Each turn of the script can follow the one before. *)
Fixpoint chained (d : Db) (script : list Turn) : Prop :=
  match script with
  | t :: (t' :: _) as script' => (∀ w, turnPre d t w → turnPre d t' w) ∧ chained d script'
  | _ => True
  end.

(** The turns of a call of [fetchLeaderboard] that misses the cache and has
    something to store: the read of the cache, the three reads of the
    computation (the second one counts as the computation), the write, and
    the update of the state. *)
Definition missScript : list Turn :=
  [Reads 0; Reads 0; Reads 1; Reads 0; Writes; Finishes].

(** Two worlds that Firestore cannot tell apart. *)
Definition sameStore (w w0 : World) : Prop :=
  db w0 = db w ∧ trace w0 = trace w ∧ fails w0 = fails w.

(** * The rest of the page *)

(** ** What is rendered *)

(** [getRankIcon]: the icon of a row. *)
Inductive Icon := Crown | GrayMedal | AmberMedal | Star.

Definition getRankIcon (index : nat) : Icon :=
  match index with
  | 0%nat => Crown
  | 1%nat => GrayMedal
  | 2%nat => AmberMedal
  | _ => Star
  end.

(** One row of the board: [leaderboard.map((entry, index) => ...)].  The
    percentage shown is [entry.correctPredictions * 20]. *)
Record Row := mkRow {
  rowIndex : nat;
  rowIcon : Icon;
  rowName : string;
  rowCorrect : Z;
  rowTotal : Z;
  rowAccuracy : Z
}.

Definition renderRow (index : nat) (entry : LeaderboardEntry.t) : Row :=
  {| rowIndex := index;
     rowIcon := getRankIcon index;
     rowName := LeaderboardEntry.displayName entry;
     rowCorrect := LeaderboardEntry.correctPredictions entry;
     rowTotal := LeaderboardEntry.totalPredictions entry;
     rowAccuracy := LeaderboardEntry.correctPredictions entry * 20 |}.

(** [match.description || `${match.team1} vs ${match.team2}`]: an absent
    and an empty description are both falsy. *)
Definition matchLabel (m : Match.t) : string :=
  let versus :=
    String.append (MatchData.team1 (Match.data m))
                  (String.append " vs " (MatchData.team2 (Match.data m))) in
  match MatchData.description (Match.data m) with
  | Some EmptyString | None => versus
  | Some description => description
  end.

(** What the component returns. *)
Inductive Body :=
  | Rows (rows : list Row)
  | NoPredictionsFound.          (* "No predictions found for this match" *)

Inductive View :=
  | Spinner                      (* <LoadingSpinner /> *)
  | NoCompletedMatchesYet        (* "No Completed Matches Yet" *)
  | Board (selected : string) (options : list (string * string)) (body : Body).

Definition render (s : State) : View :=
  if loading s then Spinner
  else
    match completedMatches s with
    | [] => NoCompletedMatchesYet
    | _ :: _ =>
        Board (selectedMatch s)
              (map (λ m, (Match.id m, matchLabel m)) (completedMatches s))
              (match leaderboard s with
               | [] => NoPredictionsFound
               | _ :: _ => Rows (imap renderRow (leaderboard s))
               end)
    end.

(** [useEffect(() => { fetchCompletedMatches(); }, [])]: what runs when the
    component is mounted. *)
Definition mount : Prog unit := fetchCompletedMatches.

(** ** Bounds on the Firestore calls of a program *)

(** Every Firestore call that the program can issue satisfies [Q]. *)
Fixpoint requestsIn {A} (Q : Req → Prop) (p : Prog A) : Prop :=
  match p with
  | Ret _ | Throw _ => True
  | Await r k => Q r ∧ ∀ x, requestsIn Q (k x)
  | NewDate k => ∀ t, requestsIn Q (k t)
  | ConsoleError _ _ k => requestsIn Q k
  | SetState _ k => requestsIn Q k
  end.

(** The program issues at most [n] Firestore calls of the kind [c]. *)
Fixpoint callsAtMost {A} (c : Req → bool) (n : nat) (p : Prog A) : Prop :=
  match p with
  | Ret _ | Throw _ => True
  | Await r k =>
      if c r then
        match n with
        | O => False
        | S n' => ∀ x, callsAtMost c n' (k x)
        end
      else ∀ x, callsAtMost c n (k x)
  | NewDate k => ∀ t, callsAtMost c n (k t)
  | ConsoleError _ _ k => callsAtMost c n k
  | SetState _ k => callsAtMost c n k
  end.

Definition anyCall (r : Req) : bool := true.

Definition isWrite (r : Req) : bool :=
  match r with
  | SetLeaderboard _ _ => true
  | _ => false
  end.

(** The calls of kind [c] in the trace, rejected ones included. *)
Definition callsOf (c : Req → bool) (w : World) : nat :=
  countEvents (λ ev, c ev.1) (trace w).

(** The Firestore calls that [fetchLeaderboard matchId] may issue. *)
Definition leaderboardRequest (matchId : string) (r : Req) : Prop :=
  match r with
  | GetPlayers => True
  | GetMatch id | QueryPredictions id | GetLeaderboard id | SetLeaderboard id _ =>
      id = matchId
  | QueryMatches _ => False
  end.

(** The reads among them. *)
Definition isRead (r : Req) : Prop :=
  match r with
  | SetLeaderboard _ _ => False
  | _ => True
  end.

(** What holds of every snapshot that [fetchLeaderboard] stores under a
    match id. *)
Definition wellFormedSnapshot (matchId : string) (doc : LeaderboardDoc.t) : Prop :=
  let es := LeaderboardDoc.entries doc in
  es ≠ [] ∧
  (length es ≤ 10)%nat ∧
  StronglySorted (λ a b, LeaderboardEntry.correctPredictions b
                         ≤ LeaderboardEntry.correctPredictions a) es ∧
  Forall (λ e,
            LeaderboardEntry.matchId e = matchId ∧
            Match.id (LeaderboardEntry.matchDetails e) = matchId ∧
            hasTimestamp e ∧
            0 ≤ LeaderboardEntry.correctPredictions e
              ≤ LeaderboardEntry.totalPredictions e) es.

(** ** The outcomes of [fetchLeaderboard] *)

(** How a call of [fetchLeaderboard matchId] can end: the read of the cache
    was rejected; a stored snapshot was found; nothing was stored and a
    ranking was computed and written; or nothing was stored and nothing is
    written (the ranking is empty, or a call of the computation or the write
    was rejected). *)
Inductive fetched (matchId : string) (w w' : World) : Prop :=
  | fetched_down :
      fails w (length (trace w)) = true →
      db w' = db w →
      leaderboard (state w') = [] →
      fetched matchId w w'
  | fetched_hit data :
      fails w (length (trace w)) = false →
      leaderboards (db w) !! matchId = Some data →
      db w' = db w →
      leaderboard (state w')
        = fillTimestamps (clock w) (ticks w) (LeaderboardDoc.entries data) →
      trace w' = trace w ++ [(GetLeaderboard matchId, true)] →
      fetched matchId w w'
  | fetched_stored data :
      succeed w 5 →
      leaderboards (db w) !! matchId = None →
      lookupDoc matchId (matches (db w)) = Some data →
      predictionsFor matchId (db w) ≠ [] →
      db w' = setLeaderboards <[matchId := snapshotOf w matchId data]> (db w) →
      leaderboard (state w') = ranking w matchId data →
      fetched matchId w w'
  | fetched_nothing :
      fails w (length (trace w)) = false →
      leaderboards (db w) !! matchId = None →
      db w' = db w →
      leaderboard (state w') = [] →
      fetched matchId w w'.

(** ** The outcomes of [fetchCompletedMatches] *)

Definition matchesMessage : string := "Error fetching matches:".

(** The state with [loading] switched off. *)
Definition loaded (s : State) : State :=
  mkState (leaderboard s) false (selectedMatch s) (completedMatches s).

(** The world after the query has been answered, the list of completed
    matches has been set, and the first of them has been selected. *)
Definition matchesListed (w : World) (sorted : list Match.t) (selected : string) : World :=
  mkWorld (db w)
          (mkState (leaderboard (state w)) (loading (state w)) selected sorted)
          (console w) (trace w ++ [(QueryMatches completed, true)])
          (ticks w) (clock w) (fails w).

(** ** More sample data *)

Module MoreSamples.

(** An entry of the second match. *)
Definition otherEntry : LeaderboardEntry.t :=
  LeaderboardEntry.mk "u3" "carol@a@b" "carol" 1 1 "m2"
    (Match.mk "m2" (Sample.matchData 200 completed)) (Some 800).

(** Snapshots are stored for both completed matches. *)
Definition wTwoStored : World :=
  mkWorld (mkDb (players Sample.db0) (matches Sample.db0) (predictions Sample.db0)
                (<[ "m2" := LeaderboardDoc.mk [otherEntry] 800 ]>
                 {[ "m1" := LeaderboardDoc.mk [Sample.stampedEntry] 700 ]}))
          initialState [] [] 0 (λ n, 1000 + Z.of_nat n) (λ _, false).

End MoreSamples.

(** * The admin page: ManageMatches *)

(** The page lists all matches and lets an administrator change the status
    of a match or delete it.  It works on the [matches] collection that the
    leaderboard page reads.  The edit form ([handleEdit], [handleUpdate])
    formats and parses dates with library code and is left out. *)
Module ManageMatches.

(** The [useState] cells [matches] and [loading]. *)
Module State.
Record t := mk { matches : list Match.t; loading : bool }.
End State.

(** [useState<..>([])], [useState(true)] *)
Definition initialState : State.t := State.mk [] true.

(** The Firestore calls of the page. *)
Inductive Call :=
  | GetMatches                                    (* getDocs(collection(db, 'matches')) *)
  | UpdateStatus (id : string) (st : MatchStatus) (* updateDoc(doc(db, 'matches', id), { status: st }) *)
  | DeleteMatch (id : string).                    (* deleteDoc(doc(db, 'matches', id)) *)

Definition Answer (c : Call) : Type :=
  match c with
  | GetMatches => list (string * MatchData.t)
  | UpdateStatus _ _ => unit
  | DeleteMatch _ => unit
  end.

(** [{ status: st }] merged into a document. *)
Definition setStatus (st : MatchStatus) (data : MatchData.t) : MatchData.t :=
  {| MatchData.team1 := MatchData.team1 data;
     MatchData.team2 := MatchData.team2 data;
     MatchData.venue := MatchData.venue data;
     MatchData.timestamp := MatchData.timestamp data;
     MatchData.description := MatchData.description data;
     MatchData.status := Some st |}.

Definition setMatches (f : list (string * MatchData.t) → list (string * MatchData.t))
    (d : Db) : Db :=
  {| players := players d; matches := f (matches d);
     predictions := predictions d; leaderboards := leaderboards d |}.

Definition updateStatus (id : string) (st : MatchStatus) (doc : string * MatchData.t)
    : string * MatchData.t :=
  if decide (doc.1 = id) then (doc.1, setStatus st doc.2) else doc.

(** What Firestore answers, and the database afterwards: [updateDoc] is
    rejected when the document does not exist, [deleteDoc] succeeds whether
    it exists or not. *)
Definition respond (d : Db) (c : Call) : JsError + Db * Answer c :=
  match c return JsError + Db * Answer c with
  | GetMatches => inr (d, matches d)
  | UpdateStatus id st =>
      match lookupDoc id (matches d) with
      | Some _ => inr (setMatches (map (updateStatus id st)) d, tt)
      | None => inl FirestoreError
      end
  | DeleteMatch id => inr (setMatches (filter (λ doc, doc.1 ≠ id)) d, tt)
  end.

(** The world the page runs in; the call number [n] is rejected whatever
    the database holds iff [fails n]. *)
Record World := mkWorld {
  db : Db;
  state : State.t;
  console : list (string * JsError);
  trace : list (Call * bool);
  fails : nat → bool
}.

Definition withState (f : State.t → State.t) (w : World) : World :=
  mkWorld (db w) (f (state w)) (console w) (trace w) (fails w).

Definition logError (msg : string) (e : JsError) (w : World) : World :=
  mkWorld (db w) (state w) (console w ++ [(msg, e)]) (trace w) (fails w).

(** [await call] *)
Definition perform (c : Call) (w : World) : World * (JsError + Answer c) :=
  if fails w (length (trace w)) then
    (mkWorld (db w) (state w) (console w) (trace w ++ [(c, false)]) (fails w),
     inl FirestoreError)
  else
    match respond (db w) c with
    | inl e =>
        (mkWorld (db w) (state w) (console w) (trace w ++ [(c, false)]) (fails w), inl e)
    | inr (d, x) =>
        (mkWorld d (state w) (console w) (trace w ++ [(c, true)]) (fails w), inr x)
    end.

(** [fetchMatches] *)
Definition fetchMatches (w : World) : World :=
  let '(w, matchesSnapshot) := perform GetMatches w in
  let w :=
    match matchesSnapshot with
    | inr docs =>
        let matchesData := map (λ doc : string * MatchData.t, Match.mk doc.1 doc.2) docs in
        withState (λ s, State.mk (sort byTimestampDesc matchesData) (State.loading s)) w
    | inl error => logError "Error fetching matches:" error w
    end in
  withState (λ s, State.mk (State.matches s) false) w.

(** [handleDelete]; [confirmed] is the answer to [window.confirm]. *)
Definition handleDelete (confirmed : bool) (matchId : string) (w : World) : World :=
  if negb confirmed then w
  else
    let '(w, deleted) := perform (DeleteMatch matchId) w in
    match deleted with
    | inr _ => fetchMatches w
    | inl error => logError "Error deleting match:" error w
    end.

(** [handleStatusChange] *)
Definition handleStatusChange (matchId : string) (newStatus : MatchStatus) (w : World)
    : World :=
  let '(w, updated) := perform (UpdateStatus matchId newStatus) w in
  match updated with
  | inr _ => fetchMatches w
  | inl error => logError "Error updating match status:" error w
  end.

(** [getStatusColor] *)
Definition getStatusColor (status : option MatchStatus) : string :=
  match status with
  | Some upcoming => "bg-green-500/20 text-green-400"
  | Some live => "bg-yellow-500/20 text-yellow-400"
  | Some completed => "bg-blue-500/20 text-blue-400"
  | None => "bg-gray-500/20 text-gray-400"
  end.

(** All match documents as the page lists them. *)
Definition allDocs (d : Db) : list Match.t :=
  map (λ doc : string * MatchData.t, Match.mk doc.1 doc.2) (matches d).

(** The page has just been opened on the sample database. *)
Definition wAdmin : World := mkWorld Sample.db0 initialState [] [] (λ _, false).

End ManageMatches.

(** The leaderboard page opened on a database. *)
Definition opened (d : Db) (fails : nat → bool) : World :=
  mkWorld d initialState [] [] 0 (λ n, Z.of_nat n) fails.

(** The match is among the completed matches that the page lists. *)
Definition listed (matchId : string) (w : World) : Prop :=
  ∃ m, m ∈ completedMatches (state w) ∧ Match.id m = matchId.

(** * Properties *)

(** ** The stable sort *)

Section SortFacts.
Context {A : Type} (key : A → Z).

Lemma sort_insert_perm (cmp : A → A → Z) x l : sort_insert cmp x l ≡ₚ x :: l.
Proof.
  induction l as [|y l IH]; simpl; [done|].
  case_decide; [done|]. rewrite IH. apply Permutation_swap.
Qed.

Lemma sort_perm (cmp : A → A → Z) l : sort cmp l ≡ₚ l.
Proof.
  induction l as [|x l IH]; simpl; [done|].
  rewrite sort_insert_perm. by rewrite IH.
Qed.

Lemma sort_length (cmp : A → A → Z) l : length (sort cmp l) = length l.
Proof. apply Permutation_length, sort_perm. Qed.

Lemma sort_insert_sorted x l :
  StronglySorted (geKey key) l → StronglySorted (geKey key) (sort_insert (descBy key) x l).
Proof.
  induction 1 as [|y l Hl IH Hy]; simpl.
  - repeat constructor.
  - unfold descBy at 1. case_decide as Hc.
    + constructor; [by constructor|].
      constructor; [unfold geKey; lia|].
      eapply Forall_impl; [exact Hy|]. unfold geKey. intros z Hz. lia.
    + constructor; [done|].
      rewrite sort_insert_perm. constructor; [unfold geKey; lia|done].
Qed.

Lemma sort_sorted l : StronglySorted (geKey key) (sort (descBy key) l).
Proof.
  induction l as [|x l IH]; simpl; [constructor|].
  by apply sort_insert_sorted.
Qed.

(** Stability: the elements of one key keep their relative order. *)
Lemma sort_insert_stable k x l :
  filter (λ a, key a = k) (sort_insert (descBy key) x l)
  = filter (λ a, key a = k) (x :: l).
Proof.
  induction l as [|y l IH]; simpl; [done|].
  unfold descBy at 1. case_decide as Hc; [done|].
  rewrite (filter_cons _ y), IH, !filter_cons.
  repeat case_decide; try done; lia.
Qed.

Lemma sort_stable k l :
  filter (λ a, key a = k) (sort (descBy key) l) = filter (λ a, key a = k) l.
Proof.
  induction l as [|x l IH]; simpl; [done|].
  rewrite sort_insert_stable, !filter_cons, IH. done.
Qed.

(** A descending list is determined by its classes of equal key: every
    stable descending sort yields the list that [sort] yields. *)
Lemma sorted_stable_unique l1 l2 :
  StronglySorted (geKey key) l1 → StronglySorted (geKey key) l2 →
  (∀ k, filter (λ a, key a = k) l1 = filter (λ a, key a = k) l2) →
  l1 = l2.
Proof.
  intros H1. revert l2.
  induction H1 as [|x l1 Hs1 IH Hx]; intros l2 H2 Hf.
  - destruct l2 as [|y l2]; [done|].
    specialize (Hf (key y)). rewrite filter_cons_True in Hf by done. done.
  - destruct H2 as [|y l2 Hs2 Hy].
    { specialize (Hf (key x)). rewrite filter_cons_True in Hf by done. done. }
    assert (key x = key y) as Hk.
    { assert (x ∈ y :: l2) as Hin.
      { eapply (list_elem_of_filter (λ a, key a = key x)).
        rewrite <- Hf, filter_cons_True by done. left. }
      assert (y ∈ x :: l1) as Hin'.
      { eapply (list_elem_of_filter (λ a, key a = key y)).
        rewrite Hf, filter_cons_True by done. left. }
      apply elem_of_cons in Hin as [->|Hin]; [done|].
      apply elem_of_cons in Hin' as [->|Hin']; [done|].
      rewrite Forall_forall in Hx, Hy.
      specialize (Hx _ Hin'). specialize (Hy _ Hin). unfold geKey in *. lia. }
    assert (x = y) as ->.
    { specialize (Hf (key x)).
      rewrite filter_cons_True in Hf by done.
      rewrite filter_cons_True in Hf by done. congruence. }
    f_equal. apply IH; [done|]. intros k. specialize (Hf k).
    rewrite !filter_cons in Hf. case_decide; congruence.
Qed.

Lemma sort_unique l l' :
  StronglySorted (geKey key) l' →
  (∀ k, filter (λ a, key a = k) l' = filter (λ a, key a = k) l) →
  l' = sort (descBy key) l.
Proof.
  intros Hs Hf. apply sorted_stable_unique; [done|apply sort_sorted|].
  intros k. by rewrite Hf, sort_stable.
Qed.

Lemma sort_nil_inv (cmp : A → A → Z) l : sort cmp l = [] → l = [].
Proof.
  intros H. apply (f_equal length) in H. rewrite sort_length in H.
  by destruct l.
Qed.
End SortFacts.

(** Sorting commutes with a map that leaves the comparisons unchanged. *)
Lemma sort_map {A B} (f : A → B) (cmpA : A → A → Z) (cmpB : B → B → Z) l :
  (∀ a b, cmpB (f a) (f b) = cmpA a b) →
  map f (sort cmpA l) = sort cmpB (map f l).
Proof.
  intros Hc. induction l as [|x l IH]; simpl; [done|].
  rewrite <- IH. generalize (sort cmpA l). intros s.
  induction s as [|y s IHs]; simpl; [done|].
  rewrite Hc. case_decide; simpl; [done|]. by rewrite IHs.
Qed.

(** ** Scoring *)

Lemma pickCorrect_lookupTarget pd matchId playerId :
  pickCorrect pd matchId playerId ↔
  ∃ record actual target,
    lookupTarget pd matchId playerId = Some record ∧
    MatchTarget.actualPoints record = Num actual ∧
    MatchTarget.target record = Num target ∧
    target ≤ actual.
Proof.
  unfold pickCorrect, lookupTarget. split.
  - intros (player & targets & record & actual & target & -> & -> & Hr & Ha & Hg & Hle).
    by exists record, actual, target.
  - intros (record & actual & target & Hl & Ha & Hg & Hle).
    destruct (pd !! playerId) as [player|]; [|done].
    destruct (Player.matchTargets player) as [targets|] eqn:Ht; [|done].
    by exists player, targets, record, actual, target.
Qed.

Lemma isDefined_true v : isDefined v = true ↔ v ≠ Undefined.
Proof. by destruct v. Qed.

Lemma scorePick_counted pd matchId acc playerId :
  counted pd matchId playerId → scorePick pd matchId acc playerId = acc + 1.
Proof.
  intros (record & Hl & Hd%isDefined_true & Hge).
  unfold scorePick. by rewrite Hl, Hd, Hge.
Qed.

Lemma scorePick_not_counted pd matchId acc playerId :
  ¬ counted pd matchId playerId → scorePick pd matchId acc playerId = acc.
Proof.
  intros Hn. unfold scorePick.
  destruct (lookupTarget pd matchId playerId) as [record|] eqn:Hl; [|done].
  destruct (isDefined (MatchTarget.actualPoints record)) eqn:Hd; [|done].
  destruct (geJs _ _) eqn:Hge; [|done].
  exfalso. apply Hn. exists record. by rewrite <- isDefined_true.
Qed.

Lemma scorePick_iff pd matchId acc playerId :
  scorePick pd matchId acc playerId = acc + 1 ↔ counted pd matchId playerId.
Proof.
  split; [|apply scorePick_counted].
  intros H. destruct (decide (counted pd matchId playerId)) as [|Hn]; [done|].
  rewrite scorePick_not_counted in H by done. lia.
Qed.

(** Every correct pick is counted. *)
Lemma pickCorrect_counted pd matchId playerId :
  pickCorrect pd matchId playerId → counted pd matchId playerId.
Proof.
  intros (record & actual & target & Hl & Ha & Hg & Hle)%pickCorrect_lookupTarget.
  exists record. rewrite Ha, Hg. split_and!; [done|done|].
  unfold geJs. simpl. by apply bool_decide_eq_true.
Qed.

(** On a record that holds no [null], the picks counted are the correct
    ones. *)
Lemma counted_without_null pd matchId playerId record :
  lookupTarget pd matchId playerId = Some record →
  MatchTarget.actualPoints record ≠ Null →
  MatchTarget.target record ≠ Null →
  counted pd matchId playerId ↔ pickCorrect pd matchId playerId.
Proof.
  intros Hl Ha Hg. split; [|apply pickCorrect_counted].
  intros (record' & Hl' & Hd & Hge).
  assert (record' = record) as -> by congruence.
  apply pickCorrect_lookupTarget.
  destruct (MatchTarget.actualPoints record) as [| |actual] eqn:Hactual; [done..|].
  destruct (MatchTarget.target record) as [| |target] eqn:Htarget; [done..|].
  exists record, actual, target. split_and!; [done..|].
  unfold geJs in Hge. simpl in Hge. by apply bool_decide_eq_true in Hge.
Qed.

(** A stored [null] is compared as 0. *)
Lemma counted_null_actual pd matchId playerId record :
  lookupTarget pd matchId playerId = Some record →
  MatchTarget.actualPoints record = Null →
  ¬ pickCorrect pd matchId playerId ∧
  (counted pd matchId playerId ↔
   MatchTarget.target record = Null
   ∨ ∃ target, MatchTarget.target record = Num target ∧ target ≤ 0).
Proof.
  intros Hl Ha. split.
  { intros (r & a & t & Hl' & Ha' & _)%pickCorrect_lookupTarget. congruence. }
  split.
  - intros (record' & Hl' & _ & Hge).
    assert (record' = record) as -> by congruence. rewrite Ha in Hge.
    destruct (MatchTarget.target record) as [| |target]; [done|by left|right].
    exists target. split; [done|].
    unfold geJs in Hge. simpl in Hge. by apply bool_decide_eq_true in Hge.
  - intros Hcase. exists record. rewrite Ha. split_and!; [done|done|].
    destruct Hcase as [->|(target & -> & Hle)]; [done|].
    unfold geJs. simpl. by apply bool_decide_eq_true.
Qed.

Lemma counted_null_target pd matchId playerId record actual :
  lookupTarget pd matchId playerId = Some record →
  MatchTarget.actualPoints record = Num actual →
  MatchTarget.target record = Null →
  ¬ pickCorrect pd matchId playerId ∧
  (counted pd matchId playerId ↔ 0 ≤ actual).
Proof.
  intros Hl Ha Hg. split.
  { intros (r & a & t & Hl' & _ & Hg' & _)%pickCorrect_lookupTarget. congruence. }
  split.
  - intros (record' & Hl' & _ & Hge).
    assert (record' = record) as -> by congruence. rewrite Ha, Hg in Hge.
    unfold geJs in Hge. simpl in Hge. by apply bool_decide_eq_true in Hge.
  - intros Hle. exists record. rewrite Ha, Hg. split_and!; [done|done|].
    unfold geJs. simpl. by apply bool_decide_eq_true.
Qed.

Lemma foldl_scorePick pd matchId acc sel :
  foldl (scorePick pd matchId) acc sel
  = acc + Z.of_nat (length (filter (counted pd matchId) sel)).
Proof.
  revert acc. induction sel as [|p sel IH]; intros acc; simpl; [lia|].
  rewrite IH, filter_cons. case_decide.
  - rewrite scorePick_counted by done. simpl. lia.
  - rewrite scorePick_not_counted by done. lia.
Qed.

Lemma correctPredictionsOf_count pd matchId sel :
  correctPredictionsOf pd matchId sel
  = Z.of_nat (length (filter (counted pd matchId) sel)).
Proof. unfold correctPredictionsOf. by rewrite foldl_scorePick. Qed.

Lemma correctPredictionsOf_bounds pd matchId sel :
  0 ≤ correctPredictionsOf pd matchId sel ≤ Z.of_nat (length sel).
Proof.
  rewrite correctPredictionsOf_count.
  pose proof (length_filter (counted pd matchId) sel). lia.
Qed.

(** ** The index of the players *)

Lemma foldl_insert_lookup {V} (docs : list (string * V)) (acc : gmap string V) id :
  foldl (λ acc doc, <[doc.1 := doc.2]> acc) acc docs !! id
  = match lastDoc id docs with
    | Some v => Some v
    | None => acc !! id
    end.
Proof.
  revert acc. induction docs as [|[k v] docs IH]; intros acc; [done|].
  simpl. rewrite IH. unfold lastDoc. rewrite filter_cons. simpl.
  destruct (decide (k = id)) as [->|Hne].
  - rewrite lookup_insert_eq.
    destruct (filter (λ d, d.1 = id) docs) as [|d ds] eqn:Hf; [done|].
    rewrite last_cons_cons.
    destruct (last (d :: ds)) eqn:Hl; [done|].
    by apply last_None in Hl.
  - rewrite lookup_insert_ne by done. done.
Qed.

Lemma filter_absent_id {V} (docs : list (string * V)) id :
  id ∉ docs.*1 → filter (λ d, d.1 = id) docs = [].
Proof.
  induction docs as [|[k v] docs IH]; intros Hnot; [done|].
  simpl in Hnot. apply not_elem_of_cons in Hnot as [Hne Hnot].
  rewrite filter_cons_False by (simpl; congruence). by apply IH.
Qed.

Lemma lastDoc_lookupDoc {V} (docs : list (string * V)) id :
  NoDup docs.*1 → lastDoc id docs = lookupDoc id docs.
Proof.
  unfold lastDoc, lookupDoc. induction docs as [|[k v] docs IH]; intros Hnd; [done|].
  simpl in Hnd. apply NoDup_cons in Hnd as [Hk Hnd].
  rewrite filter_cons. simpl. destruct (decide (k = id)) as [->|Hne].
  - by rewrite filter_absent_id.
  - by apply IH.
Qed.

Lemma indexPlayers_lookup docs id : indexPlayers docs !! id = lastDoc id docs.
Proof.
  unfold indexPlayers. rewrite foldl_insert_lookup. by destruct (lastDoc id docs).
Qed.

(** ** The display name *)

Lemma split_nonempty sep s : split sep s ≠ [].
Proof.
  destruct s as [|c s]; simpl; [done|].
  destruct (Ascii.eqb c sep); [done|]. by destruct (split sep s).
Qed.





Ltac solve_hom := split; intros; reflexivity.

(** ** Running programs: equations *)

Lemma run_hom {A B} (K : Prog A → Prog B) (HK : EffectHom K) p w :
  run (K p) w = let '(w', r) := run p w in run (K (ofResult r)) w'.
Proof.
  revert w. induction p as [a|e|r k IH|k IH|msg e k IH|u k IH]; intros w; simpl.
  - done.
  - done.
  - rewrite (hom_await K HK). simpl. destruct (perform r w) as [w' x]. apply IH.
  - rewrite (hom_newDate K HK). simpl. apply IH.
  - rewrite (hom_console K HK). simpl. apply IH.
  - rewrite (hom_setState K HK). simpl. apply IH.
Qed.

Lemma run_bind {A B} (p : Prog A) (f : A → Prog B) w :
  run (bind p f) w
  = let '(w', r) := run p w in
    match r with inl e => (w', inl e) | inr a => run (f a) w' end.
Proof.
  rewrite (run_hom (λ q, bind q f)) by solve_hom.
  destruct (run p w) as [w' [e|a]]; done.
Qed.

Lemma run_tryCatch {A} (p : Prog A) (h : JsError → Prog A) w :
  run (tryCatch p h) w
  = let '(w', r) := run p w in
    match r with inl e => run (h e) w' | inr a => (w', inr a) end.
Proof.
  rewrite (run_hom (λ q, tryCatch q h)) by solve_hom.
  destruct (run p w) as [w' [e|a]]; done.
Qed.

Lemma run_tryFinally {A} (p : Prog A) (fin : Prog unit) w :
  run (tryFinally p fin) w
  = let '(w', r) := run p w in
    let '(w'', r') := run fin w' in
    match r' with inl e => (w'', inl e) | inr _ => (w'', r) end.
Proof.
  unfold tryFinally. rewrite run_bind, run_tryCatch, run_bind.
  destruct (run p w) as [w' [e|a]]; simpl;
    rewrite run_bind; destruct (run fin w') as [w'' [e'|[]]]; done.
Qed.

Lemma perform_ok r w :
  fails w (length (trace w)) = false →
  perform r w = (answered r w, inr (respond (db w) r).2).
Proof.
  intros H. unfold perform, answered. rewrite H.
  by destruct (respond (db w) r).
Qed.

Lemma perform_fail r w :
  fails w (length (trace w)) = true →
  perform r w = (rejected r w, inl FirestoreError).
Proof. intros H. unfold perform. by rewrite H. Qed.

Lemma run_await r w : run (await r) w = perform r w.
Proof. simpl. by destruct (perform r w) as [w' [e|x]]. Qed.

Lemma scoreAll_cons pd matchId md clk t0 doc docs :
  scoreAll pd matchId md clk t0 (doc :: docs)
  = mkEntry pd matchId md doc.2 (clk t0) :: scoreAll pd matchId md clk (S t0) docs.
Proof.
  unfold scoreAll. simpl. rewrite Nat.add_0_r. f_equal.
  apply imap_ext. intros i x _. simpl. f_equal. f_equal. lia.
Qed.

Lemma scoreAll_length pd matchId md clk t0 docs :
  length (scoreAll pd matchId md clk t0 docs) = length docs.
Proof. apply length_imap. Qed.

Lemma scoreAll_elem pd matchId md clk t0 docs e :
  e ∈ scoreAll pd matchId md clk t0 docs →
  ∃ doc now, doc ∈ docs ∧ e = mkEntry pd matchId md doc.2 now.
Proof.
  unfold scoreAll. intros (i & doc & -> & Hi)%elem_of_lookup_imap.
  exists doc, (clk (t0 + i)%nat). split; [|done].
  by eapply list_elem_of_lookup_2.
Qed.

Lemma run_scoreLoop pd matchId md docs w :
  run (forEach (λ doc : string * Prediction.t,
                  let! now := newDate in Ret (mkEntry pd matchId md doc.2 now)) docs) w
  = (tickN (length docs) w, inr (scoreAll pd matchId md (clock w) (ticks w) docs)).
Proof.
  revert w. induction docs as [|doc docs IH]; intros w.
  - simpl. unfold tickN. rewrite Nat.add_0_r. by destruct w.
  - rewrite scoreAll_cons. cbn [forEach]. rewrite run_bind. cbn [newDate bind run].
    rewrite run_bind, IH. simpl. unfold tickN. simpl.
    do 2 f_equal. f_equal. lia.
Qed.

(** ** [calculateLeaderboard], case by case *)

Lemma succeed_now w k : succeed w (S k) → fails w (length (trace w)) = false.
Proof. intros H. rewrite <- (Nat.add_0_r (length _)). apply H. lia. Qed.

Lemma succeed_answered r w k : succeed w (S k) → succeed (answered r w) k.
Proof.
  intros H i Hi. simpl. rewrite length_app. simpl.
  rewrite <- Nat.add_assoc. apply H. lia.
Qed.

Lemma succeed_le w k k' : (k' ≤ k)%nat → succeed w k → succeed w k'.
Proof. intros Hle H i Hi. apply H. lia. Qed.

Lemma app_snoc2 {X} (l : list X) a b : (l ++ [a]) ++ [b] = l ++ [a; b].
Proof. by rewrite <- app_assoc. Qed.

Lemma app_snoc3 {X} (l : list X) a b c : ((l ++ [a]) ++ [b]) ++ [c] = l ++ [a; b; c].
Proof. by rewrite <- !app_assoc. Qed.

Lemma run_calculateLeaderboard_ok w matchId data :
  succeed w 3 →
  lookupDoc matchId (matches (db w)) = Some data →
  run (calculateLeaderboard matchId) w
  = (computedWorld w matchId, inr (ranking w matchId data)).
Proof.
  intros Hs Hm. unfold calculateLeaderboard.
  rewrite run_tryCatch, run_bind, run_await, (perform_ok _ _ (succeed_now _ _ Hs)).
  apply (succeed_answered GetPlayers) in Hs. cbn [respond snd].
  rewrite run_bind, run_await, (perform_ok _ _ (succeed_now _ _ Hs)).
  apply (succeed_answered (GetMatch matchId)) in Hs.
  cbn [respond snd answered db fst]. rewrite Hm.
  rewrite run_bind, run_await, (perform_ok _ _ (succeed_now _ _ Hs)).
  cbn [respond snd fst answered db]. rewrite run_bind, run_scoreLoop.
  cbn. unfold computedWorld, ranking, allEntries, tickN, predictionsFor. cbn.
  by rewrite app_snoc3.
Qed.

Lemma run_calculateLeaderboard_notFound w matchId :
  succeed w 2 →
  lookupDoc matchId (matches (db w)) = None →
  run (calculateLeaderboard matchId) w
  = (mkWorld (db w) (state w)
             (console w ++ [(calcMessage, MkError "Match not found")])
             (trace w ++ [(GetPlayers, true); (GetMatch matchId, true)])
             (ticks w) (clock w) (fails w),
     inr []).
Proof.
  intros Hs Hm. unfold calculateLeaderboard.
  rewrite run_tryCatch, run_bind, run_await, (perform_ok _ _ (succeed_now _ _ Hs)).
  apply (succeed_answered GetPlayers) in Hs. cbn [respond snd].
  rewrite run_bind, run_await, (perform_ok _ _ (succeed_now _ _ Hs)).
  cbn [respond snd answered db fst]. rewrite Hm. cbn.
  unfold logError, answered. cbn. by rewrite app_snoc2.
Qed.

(** In every world the computation returns a list: the ranking when its
    three reads succeed and the match exists, and the empty list, with the
    error on the console, otherwise. *)
Lemma run_calculateLeaderboard_cases w matchId :
  (∃ data,
      succeed w 3 ∧ lookupDoc matchId (matches (db w)) = Some data ∧
      run (calculateLeaderboard matchId) w
      = (computedWorld w matchId, inr (ranking w matchId data))) ∨
  (∃ w' e,
      run (calculateLeaderboard matchId) w = (w', inr []) ∧
      readOnly w w' ∧ ticks w' = ticks w ∧
      console w' = console w ++ [(calcMessage, e)]).
Proof.
  destruct (fails w (length (trace w))) eqn:H0.
  { right. eexists _, _. split.
    { unfold calculateLeaderboard.
      rewrite run_tryCatch, run_bind, run_await, perform_fail by done. done. }
    by unfold readOnly. }
  destruct (fails w (length (trace w) + 1)) eqn:H1.
  { right. eexists _, _. split.
    { unfold calculateLeaderboard.
      rewrite run_tryCatch, run_bind, run_await, perform_ok by done.
      cbn [respond snd]. rewrite run_bind, run_await, perform_fail; [done|].
      simpl. by rewrite length_app. }
    by unfold readOnly. }
  destruct (lookupDoc matchId (matches (db w))) as [data|] eqn:Hm; cycle 1.
  { right. eexists _, _. split.
    { apply run_calculateLeaderboard_notFound; [|done].
      intros i Hi. destruct i as [|[|i]]; [by rewrite Nat.add_0_r|done|lia]. }
    by unfold readOnly. }
  destruct (fails w (length (trace w) + 2)) eqn:H2.
  { right. eexists _, _. split.
    { unfold calculateLeaderboard.
      rewrite run_tryCatch, run_bind, run_await, perform_ok by done.
      cbn [respond snd]. rewrite run_bind, run_await, perform_ok;
        [|simpl; by rewrite length_app].
      cbn [respond snd answered db fst]. rewrite Hm.
      rewrite run_bind, run_await, perform_fail; [done|].
      simpl. rewrite !length_app. simpl. by rewrite <- Nat.add_assoc. }
    by unfold readOnly. }
  left. exists data.
  assert (succeed w 3) as Hs.
  { intros i Hi. destruct i as [|[|[|i]]]; [by rewrite Nat.add_0_r|done|done|lia]. }
  split; [done|]. split; [done|]. by apply run_calculateLeaderboard_ok.
Qed.

(** ** The entries of a ranking *)

Lemma scoreAll_Forall2 pd matchId md clk t0 docs :
  Forall2 (λ (doc : string * Prediction.t) e, ∃ now, e = mkEntry pd matchId md doc.2 now)
          docs (scoreAll pd matchId md clk t0 docs).
Proof.
  revert t0. induction docs as [|doc docs IH]; intros t0.
  - constructor.
  - rewrite scoreAll_cons. constructor; [by eexists|apply IH].
Qed.

Lemma ranking_elem w matchId data e :
  e ∈ ranking w matchId data →
  ∃ doc now,
    doc ∈ predictionsFor matchId (db w) ∧
    e = mkEntry (indexPlayers (players (db w))) matchId (Match.mk matchId data) doc.2 now.
Proof.
  unfold ranking, slice0. intros (i & Hi & _)%elem_of_take.
  apply list_elem_of_lookup_2 in Hi. rewrite sort_perm in Hi.
  by apply scoreAll_elem in Hi.
Qed.

(** Whatever happens, the computation returns a list, and each of its
    entries was made from a prediction of the match. *)
Lemma calculateLeaderboard_entries w matchId :
  ∃ l, (run (calculateLeaderboard matchId) w).2 = inr l ∧
    ∀ e, e ∈ l →
      ∃ data doc now,
        doc ∈ predictionsFor matchId (db w) ∧
        e = mkEntry (indexPlayers (players (db w))) matchId (Match.mk matchId data)
                    doc.2 now.
Proof.
  destruct (run_calculateLeaderboard_cases w matchId)
    as [(data & _ & _ & ->)|(w' & e & -> & _)]; simpl.
  - eexists. split; [done|]. intros e He. exists data. by apply ranking_elem.
  - exists []. split; [done|]. intros e' He'. by apply elem_of_nil in He'.
Qed.

Lemma ranking_nonempty w matchId data :
  predictionsFor matchId (db w) ≠ [] → ranking w matchId data ≠ [].
Proof.
  intros Hne Hr. unfold ranking, slice0 in Hr.
  apply (f_equal length) in Hr. rewrite length_take, sort_length in Hr.
  unfold allEntries in Hr. rewrite scoreAll_length in Hr.
  destruct (predictionsFor matchId (db w)); [done|]. simpl in Hr. unfold topN in Hr. lia.
Qed.

Lemma ranking_empty w matchId data :
  predictionsFor matchId (db w) = [] → ranking w matchId data = [].
Proof. intros H. unfold ranking, allEntries. by rewrite H. Qed.

(** ** Ties keep the order of the predictions *)

Lemma ranksAbove_cons {A} (l : list A) x a b :
  ranksAbove l a b → ranksAbove (x :: l) a b.
Proof. intros (i & j & Hlt & Hi & Hj). exists (S i), (S j). split_and!; [lia|done|done]. Qed.

Lemma ranksAbove_head {A} (l : list A) a b : b ∈ l → ranksAbove (a :: l) a b.
Proof.
  intros (j & Hj)%list_elem_of_lookup_1. exists 0%nat, (S j). split_and!; [lia|done|done].
Qed.

Lemma ranksAbove_cons_inv {A} (l : list A) x a b :
  ranksAbove (x :: l) a b → (x = a ∧ b ∈ l) ∨ ranksAbove l a b.
Proof.
  intros (i & j & Hlt & Hi & Hj). destruct j as [|j]; [lia|]. simpl in Hj.
  destruct i as [|i]; simpl in Hi.
  - left. split; [congruence|]. by eapply list_elem_of_lookup_2.
  - right. exists i, j. split_and!; [lia|done|done].
Qed.

Lemma ranksAbove_app_r {A} (l1 l : list A) a b :
  ranksAbove l a b → ranksAbove (l1 ++ l) a b.
Proof. induction l1 as [|x l1 IH]; [done|]. intros H. by apply ranksAbove_cons, IH. Qed.

Lemma ranksAbove_filter {A} (P : A → Prop) `{∀ x, Decision (P x)} (l : list A) a b :
  P a → P b → ranksAbove l a b → ranksAbove (filter P l) a b.
Proof.
  intros Ha Hb. induction l as [|x l IH]; intros Hr.
  { by destruct Hr as (i & j & _ & Hi & _). }
  apply ranksAbove_cons_inv in Hr as [[-> Hin]|Hr].
  - rewrite filter_cons_True by done. apply ranksAbove_head.
    by apply list_elem_of_filter.
  - rewrite filter_cons. case_decide; [apply ranksAbove_cons|]; by apply IH.
Qed.

Lemma ranksAbove_filter_inv {A} (P : A → Prop) `{∀ x, Decision (P x)} (l : list A) a b :
  ranksAbove (filter P l) a b → ranksAbove l a b.
Proof.
  induction l as [|x l IH]; [done|].
  rewrite filter_cons. case_decide.
  - intros [[-> Hin]|Hr]%ranksAbove_cons_inv.
    + apply ranksAbove_head. by apply list_elem_of_filter in Hin as [_ ?].
    + by apply ranksAbove_cons, IH.
  - intros Hr. by apply ranksAbove_cons, IH.
Qed.

Lemma ranksAbove_positions {A} (l : list A) i j a b :
  (i < j)%nat → l !! i = Some a → l !! j = Some b → ranksAbove l a b.
Proof. intros. by exists i, j. Qed.

(** In a stable sort, of two elements with the same key the one that
    stood first still stands first. *)
Lemma sort_ties {A} (key : A → Z) (l : list A) i j a b :
  (i < j)%nat → l !! i = Some a → l !! j = Some b → key a = key b →
  ranksAbove (sort (descBy key) l) a b.
Proof.
  intros Hlt Hi Hj Hk.
  apply (ranksAbove_filter_inv (λ x, key x = key a)).
  rewrite sort_stable. apply ranksAbove_filter; [done|done|].
  by exists i, j.
Qed.

(** ** The claims about the computation *)

(** C1, as the code has it.  [playersData] holds, under every id, the
    player document with that id (the last one, should the listing repeat an
    id).  A pick adds one to the count exactly when the record of the player
    for the match holds an [actualPoints] other than [undefined] that compares
    [>=] with its target; otherwise it leaves the count as it is and raises
    nothing.  Every correct pick is counted; a pick without a record, or
    whose record has no [actualPoints], is not; and on a record that holds no
    [null] the picks counted are exactly the correct ones.  A stored [null]
    passes the test for [undefined] and is compared as 0: a pick whose
    record holds [actualPoints: null] is not correct, and is counted when the
    target is [null] or at most 0; one whose target is [null] is counted when
    the points are at least 0.  The computation returns the ranking of one
    entry per prediction, whose [correctPredictions] is the number of picks
    counted and whose [totalPredictions] is the number of selected
    players. *)
Theorem C1_correct_pick_counting w matchId data :
  succeed w 3 →
  lookupDoc matchId (matches (db w)) = Some data →
  let pd := indexPlayers (players (db w)) in
  (∀ playerId, pd !! playerId = lastDoc playerId (players (db w))) ∧
  (NoDup (players (db w)).*1 →
   ∀ playerId, pd !! playerId = lookupDoc playerId (players (db w))) ∧
  (∀ acc playerId,
     scorePick pd matchId acc playerId = acc + 1 ↔ counted pd matchId playerId) ∧
  (∀ acc playerId,
     ¬ counted pd matchId playerId → scorePick pd matchId acc playerId = acc) ∧
  (∀ playerId, pickCorrect pd matchId playerId → counted pd matchId playerId) ∧
  (∀ playerId,
     lookupTarget pd matchId playerId = None → ¬ counted pd matchId playerId) ∧
  (∀ playerId record,
     lookupTarget pd matchId playerId = Some record →
     MatchTarget.actualPoints record = Undefined → ¬ counted pd matchId playerId) ∧
  (∀ playerId record,
     lookupTarget pd matchId playerId = Some record →
     MatchTarget.actualPoints record ≠ Null →
     MatchTarget.target record ≠ Null →
     counted pd matchId playerId ↔ pickCorrect pd matchId playerId) ∧
  (∀ playerId record,
     lookupTarget pd matchId playerId = Some record →
     MatchTarget.actualPoints record = Null →
     ¬ pickCorrect pd matchId playerId ∧
     (counted pd matchId playerId ↔
      MatchTarget.target record = Null
      ∨ ∃ target, MatchTarget.target record = Num target ∧ target ≤ 0)) ∧
  (∀ playerId record actual,
     lookupTarget pd matchId playerId = Some record →
     MatchTarget.actualPoints record = Num actual →
     MatchTarget.target record = Null →
     ¬ pickCorrect pd matchId playerId ∧
     (counted pd matchId playerId ↔ 0 ≤ actual)) ∧
  (run (calculateLeaderboard matchId) w).2
    = inr (slice0 topN (sort byCorrectDesc (allEntries w matchId data))) ∧
  Forall2
    (λ (doc : string * Prediction.t) e,
       LeaderboardEntry.userId e = Prediction.userId doc.2 ∧
       LeaderboardEntry.correctPredictions e
         = Z.of_nat (length (filter (counted pd matchId)
                                    (Prediction.selectedPlayers doc.2))) ∧
       LeaderboardEntry.totalPredictions e
         = Z.of_nat (length (Prediction.selectedPlayers doc.2)))
    (predictionsFor matchId (db w)) (allEntries w matchId data).
Proof.
  intros Hs Hm pd. split_and!.
  - intros. apply indexPlayers_lookup.
  - intros Hnd playerId. unfold pd. rewrite indexPlayers_lookup.
    by apply lastDoc_lookupDoc.
  - intros. apply scorePick_iff.
  - intros. by apply scorePick_not_counted.
  - intros. by apply pickCorrect_counted.
  - intros p Hl (r & Hl' & _). congruence.
  - intros p r Hl Ha (r' & Hl' & Ha' & _). congruence.
  - intros. by eapply counted_without_null.
  - intros. by eapply counted_null_actual.
  - intros. by eapply counted_null_target.
  - by rewrite (run_calculateLeaderboard_ok _ _ _ Hs Hm).
  - eapply Forall2_impl; [apply scoreAll_Forall2|].
    intros doc e [now ->]. simpl. split_and!; [done| |done].
    apply correctPredictionsOf_count.
Qed.

Lemma C1_correct_pick_counting_witness :
  succeed Sample.w0 3 ∧
  lookupDoc "m1" (matches (db Sample.w0)) = Some Sample.match1 ∧
  (run (calculateLeaderboard "m1") Sample.w0).2
    = inr (slice0 topN (sort byCorrectDesc (allEntries Sample.w0 "m1" Sample.match1))).
Proof.
  assert (succeed Sample.w0 3) as Hs by (intros i _; reflexivity).
  assert (lookupDoc "m1" (matches (db Sample.w0)) = Some Sample.match1) as Hm
    by reflexivity.
  split; [exact Hs|]. split; [exact Hm|].
  exact (proj1 (proj2 (proj2 (proj2 (proj2 (proj2 (proj2 (proj2 (proj2 (proj2 (proj2
    (C1_correct_pick_counting Sample.w0 "m1" Sample.match1 Hs Hm)))))))))))).
Defined.

(** C1 fails on a stored [null].  The record of player [p0] for [m1] holds
    a target of 0 and [actualPoints: null]: no actual value is present, the
    pick of [p0] is not correct, and the computation counts it. *)
Lemma C1_null_actual_counterexample :
  lookupTarget (indexPlayers (players (db Sample.wNull))) "m1" "p0"
    = Some (MatchTarget.mk (Num 0) Null) ∧
  ¬ pickCorrect (indexPlayers (players (db Sample.wNull))) "m1" "p0" ∧
  ∃ l, (run (calculateLeaderboard "m1") Sample.wNull).2 = inr l ∧
    map (λ e, (LeaderboardEntry.userId e, LeaderboardEntry.correctPredictions e,
               LeaderboardEntry.totalPredictions e)) l
    = [("u0", 1, 1)].
Proof.
  split_and!.
  - by vm_compute.
  - intros (r & a & t & Hl & Ha & _)%pickCorrect_lookupTarget.
    vm_compute in Hl. by simplify_eq.
  - eexists. split; by vm_compute.
Qed.

(** C2, as the code has it.  The entries returned are the first ten of
    the stable descending sort, by [correctPredictions], of the entries taken
    in the order in which the query yields the predictions: the sorted list is
    a permutation of them, descending, and of two entries with the same count
    the one whose prediction the query yields first stands first.  Ties
    follow the order of submission when the query yields the predictions in
    that order. *)
Theorem C2_ranking_order w matchId data :
  succeed w 3 →
  lookupDoc matchId (matches (db w)) = Some data →
  let all := allEntries w matchId data in
  let ranked := sort byCorrectDesc all in
  map LeaderboardEntry.userId all
    = map (λ doc, Prediction.userId doc.2) (predictionsFor matchId (db w)) ∧
  ranked ≡ₚ all ∧
  StronglySorted (λ a b, LeaderboardEntry.correctPredictions b
                         ≤ LeaderboardEntry.correctPredictions a) ranked ∧
  (∀ k, filter (λ e, LeaderboardEntry.correctPredictions e = k) ranked
        = filter (λ e, LeaderboardEntry.correctPredictions e = k) all) ∧
  (∀ ranked',
     StronglySorted (λ a b, LeaderboardEntry.correctPredictions b
                            ≤ LeaderboardEntry.correctPredictions a) ranked' →
     (∀ k, filter (λ e, LeaderboardEntry.correctPredictions e = k) ranked'
           = filter (λ e, LeaderboardEntry.correctPredictions e = k) all) →
     ranked' = ranked) ∧
  (run (calculateLeaderboard matchId) w).2 = inr (take 10 ranked) ∧
  (length (take 10 ranked) ≤ 10)%nat ∧
  (∀ i j e e',
     (i < j)%nat → all !! i = Some e → all !! j = Some e' →
     LeaderboardEntry.correctPredictions e = LeaderboardEntry.correctPredictions e' →
     ranksAbove ranked e e') ∧
  (∀ submitted,
     listedAsSubmitted submitted (predictionsFor matchId (db w)) →
     tiesBySubmission submitted (predictionsFor matchId (db w)) all ranked).
Proof.
  intros Hs Hm all ranked.
  assert (∀ i j e e',
            (i < j)%nat → all !! i = Some e → all !! j = Some e' →
            LeaderboardEntry.correctPredictions e
              = LeaderboardEntry.correctPredictions e' →
            ranksAbove ranked e e') as Hties.
  { intros i j e e' Hlt Hi Hj Hk.
    apply (sort_ties LeaderboardEntry.correctPredictions all i j); done. }
  assert (∀ submitted,
            listedAsSubmitted submitted (predictionsFor matchId (db w)) →
            tiesBySubmission submitted (predictionsFor matchId (db w)) all ranked)
    as Hsubmitted.
  { intros submitted Hlisted i j d d' e e' Hd Hd' He He' Hsub Hk.
    destruct (decide (i < j)%nat) as [Hlt|Hge]; [by eapply Hties|].
    assert (submitted d'.1 ≤ submitted d.1)
      by (apply (Hlisted j i); [lia|done|done]).
    lia. }
  split_and!; [..|exact Hties|exact Hsubmitted].
  - clear Hties Hsubmitted. unfold all, allEntries, scoreAll.
    generalize (ticks w). induction (predictionsFor matchId (db w)) as [|doc docs IH];
      intros t0; [done|].
    simpl. f_equal. rewrite <- (IH (S t0)). f_equal.
    apply imap_ext. intros i x _. simpl. do 2 f_equal. lia.
  - apply sort_perm.
  - apply (sort_sorted LeaderboardEntry.correctPredictions).
  - intros k. apply (sort_stable LeaderboardEntry.correctPredictions).
  - intros ranked' Hsorted Hstable.
    by apply (sort_unique LeaderboardEntry.correctPredictions).
  - by rewrite (run_calculateLeaderboard_ok _ _ _ Hs Hm).
  - rewrite length_take. lia.
Qed.

Lemma C2_ranking_order_witness :
  succeed Sample.w0 3 ∧
  lookupDoc "m1" (matches (db Sample.w0)) = Some Sample.match1 ∧
  (run (calculateLeaderboard "m1") Sample.w0).2
    = inr (take 10 (sort byCorrectDesc (allEntries Sample.w0 "m1" Sample.match1))).
Proof.
  assert (succeed Sample.w0 3) as Hs by (intros i _; reflexivity).
  assert (lookupDoc "m1" (matches (db Sample.w0)) = Some Sample.match1) as Hm
    by reflexivity.
  split; [exact Hs|]. split; [exact Hm|].
  exact (proj1 (proj2 (proj2 (proj2 (proj2 (proj2
    (C2_ranking_order Sample.w0 "m1" Sample.match1 Hs Hm))))))).
Defined.

(** C2 as stated fails: the tie between A, D and E is broken by the order
    in which the query yields the predictions, not by the order of
    submission.  When the same five predictions are yielded with those of D
    and E first, D and E rank above A, who submitted before them. *)
Lemma C2_submission_order_counterexample :
  predictions (db Sample.wRelisted) ≡ₚ predictions (db Sample.wRank) ∧
  Sample.submittedAt "k1" < Sample.submittedAt "k4" ∧
  (run (calculateLeaderboard "m1") Sample.wRelisted).2
    = inr (sort byCorrectDesc (allEntries Sample.wRelisted "m1" Sample.match1)) ∧
  map (λ e, (LeaderboardEntry.userId e, LeaderboardEntry.correctPredictions e))
      (sort byCorrectDesc (allEntries Sample.wRelisted "m1" Sample.match1))
    = [("B", 3); ("D", 2); ("E", 2); ("A", 2); ("C", 1)] ∧
  ¬ tiesBySubmission Sample.submittedAt
      (predictionsFor "m1" (db Sample.wRelisted))
      (allEntries Sample.wRelisted "m1" Sample.match1)
      (sort byCorrectDesc (allEntries Sample.wRelisted "m1" Sample.match1)).
Proof.
  split_and!.
  - apply (Permutation_app_comm [_; _] [_; _; _]).
  - reflexivity.
  - by vm_compute.
  - by vm_compute.
  - intros Hties. vm_compute in Hties.
    destruct (Hties 2%nat 0%nat _ _ _ _ eq_refl eq_refl eq_refl eq_refl eq_refl eq_refl)
      as (i & j & Hlt & Hi & Hj).
    destruct i as [|[|[|[|[|i]]]]]; try discriminate Hi;
      destruct j as [|[|[|[|[|j]]]]]; try discriminate Hj; lia.
Qed.

(** The examples of the specification: B (3/3), A (2/3), C (1/3); D and E,
    who tie with A, follow A in the order of their predictions. *)
Example ranking_sample :
  ∃ l, (run (calculateLeaderboard "m1") Sample.wRank).2 = inr l ∧
    map (λ e, (LeaderboardEntry.userId e, LeaderboardEntry.correctPredictions e,
               LeaderboardEntry.totalPredictions e)) l
    = [("B", 3, 3); ("A", 2, 3); ("D", 2, 3); ("E", 2, 3); ("C", 1, 3)].
Proof. eexists. split; by vm_compute. Qed.

(** Of fifteen predictions the first ten of the ranking are returned. *)
Example ranking_truncated_sample :
  ∃ l, (run (calculateLeaderboard "m1") Sample.wMany).2 = inr l ∧
    map LeaderboardEntry.userId l
    = ["u00"; "u02"; "u04"; "u06"; "u08"; "u10"; "u12"; "u14"; "u01"; "u03"].
Proof. eexists. split; by vm_compute. Qed.

(** C9. In every world, every entry that the computation returns has
    [0 <= correctPredictions <= totalPredictions]; so has the entry made
    from any prediction. *)
Theorem C9_correct_within_total :
  (∀ pd matchId md prediction now,
     let e := mkEntry pd matchId md prediction now in
     0 ≤ LeaderboardEntry.correctPredictions e ≤ LeaderboardEntry.totalPredictions e) ∧
  (∀ w matchId,
     ∃ l, (run (calculateLeaderboard matchId) w).2 = inr l ∧
       Forall (λ e, 0 ≤ LeaderboardEntry.correctPredictions e
                      ≤ LeaderboardEntry.totalPredictions e) l).
Proof.
  split.
  - intros. apply correctPredictionsOf_bounds.
  - intros w matchId.
    destruct (calculateLeaderboard_entries w matchId) as (l & Hl & He).
    exists l. split; [done|]. apply Forall_forall. intros e Hin.
    destruct (He e Hin) as (data & doc & now & _ & ->).
    apply correctPredictionsOf_bounds.
Qed.

Lemma C9_correct_within_total_witness :
  ∃ l, (run (calculateLeaderboard "m1") Sample.w0).2 = inr l ∧
    Forall (λ e, 0 ≤ LeaderboardEntry.correctPredictions e
                   ≤ LeaderboardEntry.totalPredictions e) l.
Proof. exact (proj2 C9_correct_within_total Sample.w0 "m1"). Defined.



Example displayName_samples :
  displayNameOf "alice@example.com" = "alice" ∧
  displayNameOf "bob" = "bob" ∧
  displayNameOf "carol@a@b" = "carol" ∧
  displayNameOf "@nobody" = "" ∧
  displayNameOf "" = "".
Proof. by vm_compute. Qed.

(** ** [fetchLeaderboard], case by case *)

Lemma withTimestamp_id e ts :
  LeaderboardEntry.timestamp e = Some ts → withTimestamp e ts = e.
Proof. destruct e. simpl. by intros ->. Qed.

Lemma fillTimestamps_id clk t es :
  Forall hasTimestamp es → fillTimestamps clk t es = es.
Proof.
  induction 1 as [|e es He _ IH]; simpl; [done|].
  destruct (LeaderboardEntry.timestamp e) as [ts|] eqn:Hts; [|done].
  by rewrite withTimestamp_id, IH.
Qed.

Lemma missingTimestamps_none es :
  Forall hasTimestamp es → missingTimestamps es = 0%nat.
Proof.
  unfold missingTimestamps. induction 1 as [|e es He _ IH]; [done|].
  by rewrite filter_cons_False.
Qed.

Lemma run_readEntries es w :
  run (forEach readEntry es) w
  = (tickN (missingTimestamps es) w, inr (fillTimestamps (clock w) (ticks w) es)).
Proof.
  unfold missingTimestamps.
  revert w. induction es as [|e es IH]; intros w.
  - simpl. unfold tickN. rewrite Nat.add_0_r. by destruct w.
  - cbn [forEach]. rewrite run_bind. unfold readEntry at 1. simpl fillTimestamps.
    rewrite filter_cons.
    destruct (LeaderboardEntry.timestamp e) as [ts|] eqn:Hts.
    + rewrite decide_False by done. cbn [run]. by rewrite run_bind, IH.
    + rewrite decide_True by done. cbn [newDate bind run].
      rewrite run_bind, IH. simpl. unfold tickN. simpl.
      do 2 f_equal. f_equal. lia.
Qed.

Lemma run_fetchLeaderboard_hit w matchId data :
  succeed w 1 →
  leaderboards (db w) !! matchId = Some data →
  run (fetchLeaderboard matchId) w
  = (mkWorld (db w)
             (shown (fillTimestamps (clock w) (ticks w) (LeaderboardDoc.entries data))
                    (state w))
             (console w) (trace w ++ [(GetLeaderboard matchId, true)])
             (ticks w + missingTimestamps (LeaderboardDoc.entries data))
             (clock w) (fails w),
     inr tt).
Proof.
  intros Hs Hc. unfold fetchLeaderboard.
  rewrite run_bind. cbn [setState run].
  rewrite run_tryFinally, run_tryCatch, run_bind, run_await, perform_ok
    by apply (succeed_now _ _ Hs).
  cbn [respond snd answered db fst withState]. rewrite Hc.
  rewrite run_bind, run_readEntries. done.
Qed.

Lemma run_fetchLeaderboard_down w matchId :
  fails w (length (trace w)) = true →
  run (fetchLeaderboard matchId) w
  = (mkWorld (db w) (shown [] (state w))
             (console w ++ [(fetchMessage, FirestoreError)])
             (trace w ++ [(GetLeaderboard matchId, false)])
             (ticks w) (clock w) (fails w),
     inr tt).
Proof.
  intros Hf. unfold fetchLeaderboard.
  rewrite run_bind. cbn [setState run].
  rewrite run_tryFinally, run_tryCatch, run_bind, run_await, perform_fail by done.
  done.
Qed.

Lemma run_fetchLeaderboard_computed w matchId data :
  succeed w 5 →
  leaderboards (db w) !! matchId = None →
  lookupDoc matchId (matches (db w)) = Some data →
  predictionsFor matchId (db w) ≠ [] →
  run (fetchLeaderboard matchId) w
  = (mkWorld (setLeaderboards <[matchId := snapshotOf w matchId data]> (db w))
             (shown (ranking w matchId data) (state w))
             (console w)
             (trace w ++ [(GetLeaderboard matchId, true); (GetPlayers, true);
                          (GetMatch matchId, true); (QueryPredictions matchId, true);
                          (SetLeaderboard matchId (snapshotOf w matchId data), true)])
             (ticks w + length (predictionsFor matchId (db w)) + 1)
             (clock w) (fails w),
     inr tt).
Proof.
  intros Hs Hc Hm Hp. unfold fetchLeaderboard.
  rewrite run_bind. cbn [setState run].
  change (succeed (withState (applyUpdate (setLoading true)) w) 5) in Hs.
  rewrite run_tryFinally, run_tryCatch, run_bind, run_await, perform_ok
    by apply (succeed_now _ _ Hs).
  apply (succeed_answered (GetLeaderboard matchId)) in Hs.
  cbn [respond snd fst db withState]. rewrite Hc.
  rewrite !run_bind.
  rewrite (run_calculateLeaderboard_ok _ matchId data (succeed_le _ 4 3 ltac:(lia) Hs))
    by done.
  rewrite decide_True; cycle 1.
  { pose proof (ranking_nonempty w matchId data Hp) as Hne.
    change (ranking (answered _ _) matchId data) with (ranking w matchId data).
    destruct (ranking w matchId data); [done|simpl; lia]. }
  apply (succeed_answered GetPlayers), (succeed_answered (GetMatch matchId)),
    (succeed_answered (QueryPredictions matchId)) in Hs.
  cbn [newDate bind run].
  rewrite run_bind, (run_await (SetLeaderboard _ _)), perform_ok; cycle 1.
  { apply succeed_now in Hs. simpl in *. by rewrite app_snoc3 in Hs. }
  unfold answered, computedWorld, snapshotOf, shown, ranking, allEntries,
    withState, slice0, topN. cbn.
  rewrite <- !app_assoc, Nat.add_1_r. reflexivity.
Qed.

Lemma run_fetchLeaderboard_empty w matchId data :
  succeed w 4 →
  leaderboards (db w) !! matchId = None →
  lookupDoc matchId (matches (db w)) = Some data →
  predictionsFor matchId (db w) = [] →
  run (fetchLeaderboard matchId) w
  = (mkWorld (db w) (shown [] (state w)) (console w)
             (trace w ++ [(GetLeaderboard matchId, true); (GetPlayers, true);
                          (GetMatch matchId, true); (QueryPredictions matchId, true)])
             (ticks w) (clock w) (fails w),
     inr tt).
Proof.
  intros Hs Hc Hm Hp. unfold fetchLeaderboard.
  rewrite run_bind. cbn [setState run].
  change (succeed (withState (applyUpdate (setLoading true)) w) 4) in Hs.
  rewrite run_tryFinally, run_tryCatch, run_bind, run_await, perform_ok
    by apply (succeed_now _ _ Hs).
  apply (succeed_answered (GetLeaderboard matchId)) in Hs.
  cbn [respond snd fst db withState]. rewrite Hc.
  rewrite !run_bind.
  rewrite (run_calculateLeaderboard_ok _ matchId data Hs) by done.
  change (ranking (answered _ _) matchId data) with (ranking w matchId data).
  rewrite (ranking_empty w matchId data Hp).
  unfold computedWorld, predictionsFor in *. cbn. rewrite Hp. cbn.
  unfold withState, shown. cbn. by rewrite <- !app_assoc, Nat.add_0_r.
Qed.

Lemma run_fetchLeaderboard_notFound w matchId :
  succeed w 3 →
  leaderboards (db w) !! matchId = None →
  lookupDoc matchId (matches (db w)) = None →
  run (fetchLeaderboard matchId) w
  = (mkWorld (db w) (shown [] (state w))
             (console w ++ [(calcMessage, MkError "Match not found")])
             (trace w ++ [(GetLeaderboard matchId, true); (GetPlayers, true);
                          (GetMatch matchId, true)])
             (ticks w) (clock w) (fails w),
     inr tt).
Proof.
  intros Hs Hc Hm. unfold fetchLeaderboard.
  rewrite run_bind. cbn [setState run].
  change (succeed (withState (applyUpdate (setLoading true)) w) 3) in Hs.
  rewrite run_tryFinally, run_tryCatch, run_bind, run_await, perform_ok
    by apply (succeed_now _ _ Hs).
  apply (succeed_answered (GetLeaderboard matchId)) in Hs.
  cbn [respond snd fst db withState]. rewrite Hc.
  rewrite !run_bind.
  rewrite (run_calculateLeaderboard_notFound _ matchId Hs) by done.
  cbn. unfold withState, shown. cbn. by rewrite <- !app_assoc.
Qed.

(** The write is awaited before the result is shown: when it is rejected,
    nothing is stored and the empty list is shown instead. *)
Lemma run_fetchLeaderboard_writeFails w matchId data :
  succeed w 4 →
  fails w (length (trace w) + 4) = true →
  leaderboards (db w) !! matchId = None →
  lookupDoc matchId (matches (db w)) = Some data →
  predictionsFor matchId (db w) ≠ [] →
  run (fetchLeaderboard matchId) w
  = (mkWorld (db w) (shown [] (state w))
             (console w ++ [(fetchMessage, FirestoreError)])
             (trace w ++ [(GetLeaderboard matchId, true); (GetPlayers, true);
                          (GetMatch matchId, true); (QueryPredictions matchId, true);
                          (SetLeaderboard matchId (snapshotOf w matchId data), false)])
             (ticks w + length (predictionsFor matchId (db w)) + 1)
             (clock w) (fails w),
     inr tt).
Proof.
  intros Hs Hf Hc Hm Hp. unfold fetchLeaderboard.
  rewrite run_bind. cbn [setState run].
  change (succeed (withState (applyUpdate (setLoading true)) w) 4) in Hs.
  rewrite run_tryFinally, run_tryCatch, run_bind, run_await, perform_ok
    by apply (succeed_now _ _ Hs).
  apply (succeed_answered (GetLeaderboard matchId)) in Hs.
  cbn [respond snd fst db withState]. rewrite Hc.
  rewrite !run_bind.
  rewrite (run_calculateLeaderboard_ok _ matchId data Hs) by done.
  rewrite decide_True; cycle 1.
  { pose proof (ranking_nonempty w matchId data Hp) as Hne.
    change (ranking (answered _ _) matchId data) with (ranking w matchId data).
    destruct (ranking w matchId data); [done|simpl; lia]. }
  cbn [newDate bind run].
  rewrite run_bind, (run_await (SetLeaderboard _ _)), perform_fail; cycle 1.
  { simpl. rewrite !length_app. simpl. rewrite <- Hf. f_equal. lia. }
  unfold rejected, computedWorld, snapshotOf, shown, ranking, allEntries,
    withState, slice0, topN. cbn.
  rewrite <- !app_assoc, Nat.add_1_r. reflexivity.
Qed.

(** ** What no program changes *)

Lemma sameEnvironment_refl w : sameEnvironment w w.
Proof. by unfold sameEnvironment. Qed.

Lemma sameEnvironment_trans w1 w2 w3 :
  sameEnvironment w1 w2 → sameEnvironment w2 w3 → sameEnvironment w1 w3.
Proof. unfold sameEnvironment. intros (?&?&?&?&?) (?&?&?&?&?). split_and!; congruence. Qed.

Lemma perform_sameEnvironment r w : sameEnvironment w (perform r w).1.
Proof.
  unfold perform. destruct (fails w (length (trace w))); [done|].
  destruct r; simpl; done.
Qed.

Lemma run_sameEnvironment {A} (p : Prog A) w : sameEnvironment w (run p w).1.
Proof.
  revert w. induction p as [a|e|r k IH|k IH|msg e k IH|u k IH]; intros w; simpl.
  - apply sameEnvironment_refl.
  - apply sameEnvironment_refl.
  - pose proof (perform_sameEnvironment r w) as Hp.
    destruct (perform r w) as [w' x]. simpl in Hp.
    eapply sameEnvironment_trans; [exact Hp|apply IH].
  - eapply sameEnvironment_trans; [|apply IH]. done.
  - eapply sameEnvironment_trans; [|apply IH]. done.
  - eapply sameEnvironment_trans; [|apply IH]. done.
Qed.

Lemma updatesIn_bind {A B} Q (p : Prog A) (f : A → Prog B) :
  updatesIn Q p → (∀ a, updatesIn Q (f a)) → updatesIn Q (bind p f).
Proof.
  intros Hp Hf. induction p as [a|e|r k IH|k IH|msg e k IH|u k IH]; simpl in *; eauto.
  split; [tauto|]. apply IH. tauto.
Qed.

Lemma updatesIn_tryCatch {A} Q (p : Prog A) (h : JsError → Prog A) :
  updatesIn Q p → (∀ e, updatesIn Q (h e)) → updatesIn Q (tryCatch p h).
Proof.
  intros Hp Hh. induction p as [a|e|r k IH|k IH|msg e k IH|u k IH]; simpl in *; eauto.
  split; [tauto|]. apply IH. tauto.
Qed.

Lemma updatesIn_forEach {A B} Q (f : A → Prog B) l :
  (∀ a, updatesIn Q (f a)) → updatesIn Q (forEach f l).
Proof.
  intros Hf. induction l as [|x l IH]; simpl; [done|].
  apply updatesIn_bind; [done|]. intros y. apply updatesIn_bind; [done|]. done.
Qed.

Lemma updatesIn_await Q r : updatesIn Q (await r).
Proof. simpl. by intros [e|x]. Qed.

Lemma run_updatesIn {A X} (obs : State → X) Q (p : Prog A) w :
  (∀ u s, Q u → obs (applyUpdate u s) = obs s) →
  updatesIn Q p →
  obs (state (run p w).1) = obs (state w).
Proof.
  intros HQ. revert w.
  induction p as [a|e|r k IH|k IH|msg e k IH|u k IH]; intros w Hp; simpl in *.
  - done.
  - done.
  - assert (state (perform r w).1 = state w) as Hst.
    { unfold perform. destruct (fails w (length (trace w))); [done|].
      by destruct (respond (db w) r). }
    destruct (perform r w) as [w' x]. simpl in Hst. rewrite <- Hst. by apply IH.
  - by rewrite IH.
  - by rewrite IH.
  - destruct Hp as [Hu Hk]. rewrite IH by done. simpl. by apply HQ.
Qed.

Lemma calculateLeaderboard_updates matchId :
  updatesIn (λ _, False) (calculateLeaderboard matchId).
Proof.
  unfold calculateLeaderboard.
  apply updatesIn_tryCatch; [|done].
  apply updatesIn_bind; [apply updatesIn_await|]. intros ps.
  apply updatesIn_bind; [apply updatesIn_await|]. intros [data|]; [|done].
  apply updatesIn_bind; [apply updatesIn_await|]. intros docs.
  apply updatesIn_bind; [|done].
  apply updatesIn_forEach. done.
Qed.

Lemma updatesIn_weaken {A} (Q Q' : StateUpdate → Prop) (p : Prog A) :
  (∀ u, Q u → Q' u) → updatesIn Q p → updatesIn Q' p.
Proof.
  intros HQ. induction p as [a|e|r k IH|k IH|msg e k IH|u k IH]; simpl; eauto.
  intros [? ?]. eauto.
Qed.

Lemma fetchLeaderboard_updates matchId :
  updatesIn leaderboardUpdate (fetchLeaderboard matchId).
Proof.
  unfold fetchLeaderboard, tryFinally.
  apply updatesIn_bind; [done|]. intros _.
  apply updatesIn_bind; [|intros [e|[]]; done].
  apply updatesIn_tryCatch; [|done].
  apply updatesIn_bind; [|done].
  apply updatesIn_tryCatch; [|done].
  apply updatesIn_bind; [apply updatesIn_await|]. intros [data|].
  - apply updatesIn_bind; [|done]. apply updatesIn_forEach.
    intros e. unfold readEntry. by destruct (LeaderboardEntry.timestamp e).
  - apply updatesIn_bind; [|done].
    apply updatesIn_bind.
    { eapply updatesIn_weaken; [|apply calculateLeaderboard_updates]. done. }
    intros l. apply updatesIn_bind; [|done].
    case_decide; [|done]. apply updatesIn_bind; [done|].
    intros now. apply updatesIn_await.
Qed.


Lemma fetchLeaderboard_returns w matchId :
  (run (fetchLeaderboard matchId) w).2 = inr tt.
Proof.
  unfold fetchLeaderboard.
  rewrite run_bind. cbn [setState run].
  rewrite run_tryFinally, run_tryCatch.
  match goal with |- context [run ?p ?w] => destruct (run p w) as [w' [e|[]]] end; done.
Qed.

(** ** The claims about the cache *)

Lemma countEvents_app f evs evs' :
  countEvents f (evs ++ evs') = (countEvents f evs + countEvents f evs')%nat.
Proof. unfold countEvents. by rewrite List.filter_app, length_app. Qed.

Lemma writesTo_miss matchId doc :
  countEvents (isWriteTo matchId)
    [(GetLeaderboard matchId, true); (GetPlayers, true); (GetMatch matchId, true);
     (QueryPredictions matchId, true); (SetLeaderboard matchId doc, true)] = 1%nat.
Proof. unfold countEvents. simpl. by rewrite bool_decide_true. Qed.

(** C3. On a cache miss for a match that has predictions, the computed
    ranking is written under the match id and then shown (if the write is
    rejected nothing is shown); for a match without predictions the
    computation returns the empty list, the empty list is shown, nothing is
    written, and the next call computes again. *)
Theorem C3_cache_miss_persistence w matchId data :
  leaderboards (db w) !! matchId = None →
  lookupDoc matchId (matches (db w)) = Some data →
  (predictionsFor matchId (db w) ≠ [] → succeed w 5 →
     let w' := (run (fetchLeaderboard matchId) w).1 in
     ranking w matchId data ≠ [] ∧
     leaderboard (state w') = ranking w matchId data ∧
     (∃ doc, leaderboards (db w') !! matchId = Some doc ∧
             LeaderboardDoc.entries doc = ranking w matchId data ∧
             trace w' = trace w ++ [(GetLeaderboard matchId, true); (GetPlayers, true);
                                    (GetMatch matchId, true);
                                    (QueryPredictions matchId, true);
                                    (SetLeaderboard matchId doc, true)]) ∧
     writesTo matchId w' = S (writesTo matchId w)) ∧
  (predictionsFor matchId (db w) ≠ [] → succeed w 4 →
     fails w (length (trace w) + 4) = true →
     let w' := (run (fetchLeaderboard matchId) w).1 in
     leaderboard (state w') = [] ∧ db w' = db w) ∧
  (predictionsFor matchId (db w) = [] → succeed w 8 →
     (run (calculateLeaderboard matchId) w).2 = inr [] ∧
     let w' := (run (fetchLeaderboard matchId) w).1 in
     leaderboard (state w') = [] ∧
     db w' = db w ∧
     writesTo matchId w' = writesTo matchId w ∧
     let w'' := (run (fetchLeaderboard matchId) w').1 in
     trace w'' = trace w' ++ [(GetLeaderboard matchId, true); (GetPlayers, true);
                              (GetMatch matchId, true);
                              (QueryPredictions matchId, true)]).
Proof.
  intros Hc Hm. split_and!.
  - intros Hp Hs. rewrite (run_fetchLeaderboard_computed w matchId data) by done.
    cbn [fst state db trace leaderboard shown]. split_and!.
    + by apply ranking_nonempty.
    + done.
    + exists (snapshotOf w matchId data). split_and!; [|done|done].
      unfold setLeaderboards. cbn. apply lookup_insert_eq.
    + unfold writesTo. cbn [trace]. rewrite countEvents_app, writesTo_miss. lia.
  - intros Hp Hs Hf.
    by rewrite (run_fetchLeaderboard_writeFails w matchId data).
  - intros Hp Hs. split.
    + rewrite (run_calculateLeaderboard_ok w matchId data)
        by (done || by eapply succeed_le; [|exact Hs]; lia).
      cbn [snd]. by rewrite ranking_empty.
    + rewrite (run_fetchLeaderboard_empty w matchId data)
        by (done || by eapply succeed_le; [|exact Hs]; lia).
      cbn [fst state db trace leaderboard shown]. split_and!; [done|done| |].
      * unfold writesTo. cbn [trace]. rewrite countEvents_app. cbn. lia.
      * rewrite (run_fetchLeaderboard_empty _ matchId data); [done| |done|done|done].
        intros i Hi. cbn. rewrite length_app. cbn.
        rewrite <- Nat.add_assoc. apply Hs. lia.
Qed.

Lemma C3_cache_miss_persistence_witness :
  (leaderboard (state (run (fetchLeaderboard "m1") Sample.w0).1)
     = ranking Sample.w0 "m1" Sample.match1 ∧
   writesTo "m1" (run (fetchLeaderboard "m1") Sample.w0).1 = 1%nat) ∧
  leaderboard (state (run (fetchLeaderboard "m1") Sample.wWriteFails).1) = [] ∧
  (leaderboard (state (run (fetchLeaderboard "m3") Sample.w0).1) = [] ∧
   db (run (fetchLeaderboard "m3") Sample.w0).1 = db Sample.w0).
Proof.
  split_and!.
  - refine (proj1 (proj2 (proj1
      (C3_cache_miss_persistence Sample.w0 "m1" Sample.match1 _ _) _ _)));
      [reflexivity|reflexivity|vm_compute; discriminate|intros i _; reflexivity].
  - refine (proj2 (proj2 (proj2 (proj1
      (C3_cache_miss_persistence Sample.w0 "m1" Sample.match1 _ _) _ _))));
      [reflexivity|reflexivity|vm_compute; discriminate|intros i _; reflexivity].
  - refine (proj1 (proj1 (proj2
      (C3_cache_miss_persistence Sample.wWriteFails "m1" Sample.match1 _ _)) _ _ _));
      [reflexivity|reflexivity|vm_compute; discriminate| |reflexivity].
    intros i Hi. destruct i as [|[|[|[|i]]]]; [reflexivity..|lia].
  - refine (proj1 (proj2 (proj2 (proj2
      (C3_cache_miss_persistence Sample.w0 "m3" (Sample.matchData 150 live) _ _)) _ _)));
      [reflexivity|reflexivity|reflexivity|intros i _; reflexivity].
  - refine (proj1 (proj2 (proj2 (proj2 (proj2
      (C3_cache_miss_persistence Sample.w0 "m3" (Sample.matchData 150 live) _ _)) _ _))));
      [reflexivity|reflexivity|reflexivity|intros i _; reflexivity].
Defined.




(** ** Determinism of the computation *)

Lemma scoreAll_withoutTimestamp pd matchId md clk t0 docs :
  map withoutTimestamp (scoreAll pd matchId md clk t0 docs)
  = map (λ doc : string * Prediction.t,
           withoutTimestamp (mkEntry pd matchId md doc.2 0)) docs.
Proof.
  revert t0. induction docs as [|doc docs IH]; intros t0; [done|].
  rewrite scoreAll_cons. simpl. by rewrite IH.
Qed.

Lemma scoreAll_ext pd matchId md clk clk' t0 t0' docs :
  (∀ i, clk (t0 + i)%nat = clk' (t0' + i)%nat) →
  scoreAll pd matchId md clk t0 docs = scoreAll pd matchId md clk' t0' docs.
Proof.
  intros H. unfold scoreAll. apply imap_ext. intros i x _. simpl. by rewrite H.
Qed.

Lemma ranking_withoutTimestamp w1 w2 matchId data :
  db w1 = db w2 →
  map withoutTimestamp (ranking w1 matchId data)
  = map withoutTimestamp (ranking w2 matchId data).
Proof.
  intros Hdb. unfold ranking, slice0, allEntries.
  rewrite <- !List.firstn_map.
  rewrite !(sort_map withoutTimestamp byCorrectDesc byCorrectDesc) by done.
  by rewrite !scoreAll_withoutTimestamp, Hdb.
Qed.

Lemma ranking_ext w1 w2 matchId data :
  db w1 = db w2 →
  (∀ i, clock w1 (ticks w1 + i)%nat = clock w2 (ticks w2 + i)%nat) →
  ranking w1 matchId data = ranking w2 matchId data.
Proof.
  intros Hdb Hclk. unfold ranking, allEntries.
  by rewrite Hdb, (scoreAll_ext _ _ _ _ (clock w2) _ (ticks w2)).
Qed.

Lemma calculateLeaderboard_db w matchId :
  db (run (calculateLeaderboard matchId) w).1 = db w.
Proof.
  destruct (run_calculateLeaderboard_cases w matchId)
    as [(data & _ & _ & ->)|(w' & e & -> & (Hdb & _) & _)]; done.
Qed.

Lemma scoreAll_numbered pd matchId md clk t0 docs :
  scoreAll pd matchId md clk t0 docs = map (entryAt pd matchId md clk t0) (numbered docs).
Proof. unfold scoreAll, numbered. by rewrite fmap_imap. Qed.

(** The ranking, entry by entry: the entries of the kept predictions, each
    stamped with the reading of the clock taken when its prediction was
    processed. *)
Lemma ranking_kept w matchId data :
  lookupDoc matchId (matches (db w)) = Some data →
  ranking w matchId data
  = map (entryAt (indexPlayers (players (db w))) matchId (Match.mk matchId data)
                 (clock w) (ticks w))
        (keptPredictions (db w) matchId).
Proof.
  intros Hm. unfold ranking, slice0, allEntries, keptPredictions. rewrite Hm.
  rewrite scoreAll_numbered.
  rewrite <- (sort_map _ (byCountDesc (indexPlayers (players (db w))) matchId)) by done.
  symmetry. apply fmap_take.
Qed.

Lemma keptPredictions_listed d matchId p :
  p ∈ keptPredictions d matchId → predictionsFor matchId d !! p.1 = Some p.2.
Proof.
  unfold keptPredictions. destruct (lookupDoc matchId (matches d)); [|by intros ?%elem_of_nil].
  intros (k & Hp & _)%elem_of_take. apply list_elem_of_lookup_2 in Hp.
  rewrite sort_perm in Hp. unfold numbered in Hp.
  apply elem_of_lookup_imap in Hp as (i & x & -> & Hi). done.
Qed.

Lemma map_Some_clock_inj {A} (f g : A → Z) (K : list A) :
  map (λ p, Some (f p)) K = map (λ p, Some (g p)) K ↔ ∀ p, p ∈ K → f p = g p.
Proof.
  induction K as [|x K IH]; simpl.
  - split; [by intros _ p ?%elem_of_nil|done].
  - split.
    + intros [= Hx HK] p [->|Hp]%elem_of_cons; [done|]. by apply IH.
    + intros H. f_equal; [f_equal; apply H; left|apply IH; intros p Hp; apply H; by right].
Qed.

(** C6, as the code has it.  The computation does not change the data,
    and two computations on the same data return the same entries in the
    same order in every field but [timestamp].  The timestamp of an entry
    is the reading of the clock taken when its prediction was processed, so
    the two lists are identical exactly when the clock reads the same values
    for the entries returned; in particular they are identical when the two
    clocks agree at every reading. *)
Theorem C6_deterministic_up_to_timestamps w1 w2 matchId :
  db w1 = db w2 →
  succeed w1 3 →
  succeed w2 3 →
  db (run (calculateLeaderboard matchId) w1).1 = db w1 ∧
  ∃ l1 l2,
    (run (calculateLeaderboard matchId) w1).2 = inr l1 ∧
    (run (calculateLeaderboard matchId) w2).2 = inr l2 ∧
    map withoutTimestamp l1 = map withoutTimestamp l2 ∧
    ((∀ i, clock w1 (ticks w1 + i)%nat = clock w2 (ticks w2 + i)%nat) → l1 = l2) ∧
    let kept := keptPredictions (db w1) matchId in
    (∀ p, p ∈ kept → predictionsFor matchId (db w1) !! p.1 = Some p.2) ∧
    map LeaderboardEntry.timestamp l1
      = map (λ p, Some (clock w1 (ticks w1 + p.1)%nat)) kept ∧
    map LeaderboardEntry.timestamp l2
      = map (λ p, Some (clock w2 (ticks w2 + p.1)%nat)) kept ∧
    (l1 = l2 ↔
     ∀ p, p ∈ kept → clock w1 (ticks w1 + p.1)%nat = clock w2 (ticks w2 + p.1)%nat).
Proof.
  intros Hdb Hs1 Hs2. split; [apply calculateLeaderboard_db|].
  destruct (lookupDoc matchId (matches (db w1))) as [data|] eqn:Hm.
  - exists (ranking w1 matchId data), (ranking w2 matchId data).
    rewrite (run_calculateLeaderboard_ok w1 matchId data) by done.
    rewrite (run_calculateLeaderboard_ok w2 matchId data) by (done || by rewrite <- Hdb).
    split_and!; [done|done| | |].
    + by apply ranking_withoutTimestamp.
    + by apply ranking_ext.
    + intros kept.
      assert (map LeaderboardEntry.timestamp (ranking w1 matchId data)
              = map (λ p, Some (clock w1 (ticks w1 + p.1)%nat)) kept) as Ht1.
      { rewrite ranking_kept by done. fold kept. by rewrite map_map. }
      assert (map LeaderboardEntry.timestamp (ranking w2 matchId data)
              = map (λ p, Some (clock w2 (ticks w2 + p.1)%nat)) kept) as Ht2.
      { rewrite ranking_kept by (by rewrite <- Hdb). rewrite <- Hdb. fold kept.
        by rewrite map_map. }
      split_and!; [apply keptPredictions_listed|done|done|]. split.
      * intros Heq. apply map_Some_clock_inj. by rewrite <- Ht1, <- Ht2, Heq.
      * intros Hclk. rewrite !ranking_kept by (done || by rewrite <- Hdb).
        rewrite <- Hdb. fold kept. apply map_ext_in. intros p Hp%list_elem_of_In.
        unfold entryAt. by rewrite (Hclk p Hp).
  - exists [], [].
    rewrite (run_calculateLeaderboard_notFound w1 matchId)
      by (done || by eapply succeed_le; [|exact Hs1]; lia).
    rewrite (run_calculateLeaderboard_notFound w2 matchId)
      by ((by rewrite <- Hdb) || by eapply succeed_le; [|exact Hs2]; lia).
    split_and!; [done|done|done|done|]. intros kept.
    assert (kept = []) as -> by (unfold kept, keptPredictions; by rewrite Hm).
    split_and!; [by intros p ?%elem_of_nil|done|done|].
    split; [by intros _ p ?%elem_of_nil|done].
Qed.

Lemma C6_deterministic_up_to_timestamps_witness :
  ∃ l1 l2,
    (run (calculateLeaderboard "m1") Sample.w0).2 = inr l1 ∧
    (run (calculateLeaderboard "m1") Sample.wLater).2 = inr l2 ∧
    map withoutTimestamp l1 = map withoutTimestamp l2 ∧
    ((∀ i, clock Sample.w0 (ticks Sample.w0 + i)%nat
           = clock Sample.wLater (ticks Sample.wLater + i)%nat) → l1 = l2) ∧
    let kept := keptPredictions (db Sample.w0) "m1" in
    (∀ p, p ∈ kept → predictionsFor "m1" (db Sample.w0) !! p.1 = Some p.2) ∧
    map LeaderboardEntry.timestamp l1
      = map (λ p, Some (clock Sample.w0 (ticks Sample.w0 + p.1)%nat)) kept ∧
    map LeaderboardEntry.timestamp l2
      = map (λ p, Some (clock Sample.wLater (ticks Sample.wLater + p.1)%nat)) kept ∧
    (l1 = l2 ↔
     ∀ p, p ∈ kept →
          clock Sample.w0 (ticks Sample.w0 + p.1)%nat
          = clock Sample.wLater (ticks Sample.wLater + p.1)%nat).
Proof.
  refine (proj2 (C6_deterministic_up_to_timestamps Sample.w0 Sample.wLater "m1" _ _ _));
    [reflexivity|intros i _; reflexivity|intros i _; reflexivity].
Defined.

(** C6 as stated fails: a second computation on the same data returns
    entries with other timestamps. *)
Lemma C6_byte_identical_counterexample :
  let first := run (calculateLeaderboard "m1") Sample.w0 in
  let second := run (calculateLeaderboard "m1") first.1 in
  db first.1 = db Sample.w0 ∧ db second.1 = db Sample.w0 ∧
  first.2 ≠ second.2 ∧
  first.2 = inr (ranking Sample.w0 "m1" Sample.match1) ∧
  second.2 = inr (ranking first.1 "m1" Sample.match1) ∧
  map LeaderboardEntry.timestamp (ranking Sample.w0 "m1" Sample.match1)
    = [Some 1000; Some 1001] ∧
  map LeaderboardEntry.timestamp (ranking first.1 "m1" Sample.match1)
    = [Some 1002; Some 1003].
Proof. split_and!; by vm_compute. Qed.

(** ** Repeated calls of [fetchLeaderboard] *)

Lemma neverFails_succeed w k : neverFails w → succeed w k.
Proof. intros H i _. apply H. Qed.

Lemma ranking_hasTimestamp w matchId data :
  Forall hasTimestamp (ranking w matchId data).
Proof.
  apply Forall_forall. intros e (doc & now & _ & ->)%ranking_elem. done.
Qed.

Lemma fetchTimes_hits n w matchId data :
  neverFails w →
  leaderboards (db w) !! matchId = Some data →
  Forall hasTimestamp (LeaderboardDoc.entries data) →
  writesTo matchId (fetchTimes n matchId w).1 = writesTo matchId w ∧
  computationsOf matchId (fetchTimes n matchId w).1 = computationsOf matchId w ∧
  Forall (λ l, l = LeaderboardDoc.entries data) (fetchTimes n matchId w).2.
Proof.
  revert w. induction n as [|n IH]; intros w Hnf Hc Hts; cbn [fetchTimes]; [done|].
  rewrite (run_fetchLeaderboard_hit w matchId data)
    by (done || by apply neverFails_succeed).
  cbn [fst]. set (w1 := mkWorld _ _ _ _ _ _ _).
  destruct (IH w1) as (Hw & Hcomp & Hall); [done..|].
  destruct (fetchTimes n matchId w1) as [w2 ls]. cbn [fst snd] in *.
  split_and!.
  - rewrite Hw. unfold writesTo, w1. cbn [trace]. rewrite countEvents_app. cbn. lia.
  - rewrite Hcomp. unfold computationsOf, w1. cbn [trace].
    rewrite countEvents_app. cbn. lia.
  - constructor; [|done]. unfold w1. cbn. by apply fillTimestamps_id.
Qed.

Lemma fetchTimes_nothing n w matchId :
  neverFails w →
  leaderboards (db w) !! matchId = None →
  lookupDoc matchId (matches (db w)) = None ∨
    (∃ data, lookupDoc matchId (matches (db w)) = Some data ∧
             predictionsFor matchId (db w) = []) →
  writesTo matchId (fetchTimes n matchId w).1 = writesTo matchId w ∧
  Forall (λ l, l = []) (fetchTimes n matchId w).2.
Proof.
  revert w. induction n as [|n IH]; intros w Hnf Hc Hcase; cbn [fetchTimes]; [done|].
  assert (∃ w1, run (fetchLeaderboard matchId) w = (w1, inr tt) ∧
                db w1 = db w ∧ fails w1 = fails w ∧
                leaderboard (state w1) = [] ∧
                writesTo matchId w1 = writesTo matchId w) as (w1 & -> & Hdb & Hf & Hl & Hw).
  { destruct Hcase as [Hm|(data & Hm & Hp)].
    - rewrite (run_fetchLeaderboard_notFound w matchId)
        by (done || by apply neverFails_succeed).
      eexists. split; [done|]. split_and!; [done..|].
      unfold writesTo. cbn [trace]. rewrite countEvents_app. cbn. lia.
    - rewrite (run_fetchLeaderboard_empty w matchId data)
        by (done || by apply neverFails_succeed).
      eexists. split; [done|]. split_and!; [done..|].
      unfold writesTo. cbn [trace]. rewrite countEvents_app. cbn. lia. }
  cbn [fst].
  destruct (IH w1) as (Hw' & Hall).
  { unfold neverFails. by rewrite Hf. }
  { by rewrite Hdb. }
  { by rewrite Hdb. }
  destruct (fetchTimes n matchId w1) as [w2 ls]. cbn [fst snd] in *.
  split; [congruence|]. constructor; done.
Qed.

(** C5, as the code has it.  On a cache hit the only Firestore call is the
    read of the stored document: nothing is computed and nothing is
    written; the entries shown are the stored ones, where an entry stored
    without a timestamp is given the current time, so the stored snapshot
    is shown unchanged when all its entries carry a timestamp, as those
    written by [fetchLeaderboard] do.  Then any number of calls makes at
    most one write and all calls show the same list. *)
Theorem C5_cache_hit w matchId :
  (∀ data,
     succeed w 1 →
     leaderboards (db w) !! matchId = Some data →
     let w' := (run (fetchLeaderboard matchId) w).1 in
     trace w' = trace w ++ [(GetLeaderboard matchId, true)] ∧
     db w' = db w ∧
     writesTo matchId w' = writesTo matchId w ∧
     computationsOf matchId w' = computationsOf matchId w ∧
     leaderboard (state w')
       = fillTimestamps (clock w) (ticks w) (LeaderboardDoc.entries data) ∧
     (Forall hasTimestamp (LeaderboardDoc.entries data) →
      leaderboard (state w') = LeaderboardDoc.entries data)) ∧
  (∀ n,
     neverFails w →
     (∀ data, leaderboards (db w) !! matchId = Some data →
              Forall hasTimestamp (LeaderboardDoc.entries data)) →
     let '(w', shownLists) := fetchTimes n matchId w in
     (writesTo matchId w' ≤ writesTo matchId w + 1)%nat ∧
     ∀ l l', l ∈ shownLists → l' ∈ shownLists → l = l').
Proof.
  split.
  - intros data Hs Hc. rewrite (run_fetchLeaderboard_hit w matchId data) by done.
    cbn [fst trace db state leaderboard shown]. split_and!; [done|done| | |done|].
    + unfold writesTo. cbn [trace]. rewrite countEvents_app. cbn. lia.
    + unfold computationsOf. cbn [trace]. rewrite countEvents_app. cbn. lia.
    + intros Hts. by apply fillTimestamps_id.
  - intros n Hnf Hts.
    destruct (leaderboards (db w) !! matchId) as [data|] eqn:Hc.
    { destruct (fetchTimes_hits n w matchId data Hnf Hc (Hts _ eq_refl))
        as (Hw & _ & Hall).
      destruct (fetchTimes n matchId w) as [w' ls]. cbn [fst snd] in *.
      split; [lia|]. rewrite Forall_forall in Hall.
      intros l l' Hl Hl'. by rewrite (Hall l Hl), (Hall l' Hl'). }
    destruct (lookupDoc matchId (matches (db w))) as [data|] eqn:Hm; cycle 1.
    { destruct (fetchTimes_nothing n w matchId Hnf Hc) as (Hw & Hall); [by left|].
      destruct (fetchTimes n matchId w) as [w' ls]. cbn [fst snd] in *.
      split; [lia|]. rewrite Forall_forall in Hall.
      intros l l' Hl Hl'. by rewrite (Hall l Hl), (Hall l' Hl'). }
    destruct (decide (predictionsFor matchId (db w) = [])) as [Hp|Hp].
    { destruct (fetchTimes_nothing n w matchId Hnf Hc) as (Hw & Hall);
        [right; by exists data|].
      destruct (fetchTimes n matchId w) as [w' ls]. cbn [fst snd] in *.
      split; [lia|]. rewrite Forall_forall in Hall.
      intros l l' Hl Hl'. by rewrite (Hall l Hl), (Hall l' Hl'). }
    destruct n as [|n]; cbn [fetchTimes].
    { split; [lia|]. intros l l' Hl. by apply elem_of_nil in Hl. }
    rewrite (run_fetchLeaderboard_computed w matchId data)
      by (done || by apply neverFails_succeed).
    cbn [fst]. set (w1 := mkWorld _ _ _ _ _ _ _).
    destruct (fetchTimes_hits n w1 matchId (snapshotOf w matchId data))
      as (Hw & _ & Hall).
    { done. }
    { unfold w1, setLeaderboards. cbn. apply lookup_insert_eq. }
    { apply ranking_hasTimestamp. }
    destruct (fetchTimes n matchId w1) as [w' ls]. cbn [fst snd] in *.
    split.
    + rewrite Hw. unfold writesTo, w1. cbn [trace].
      rewrite countEvents_app, writesTo_miss. done.
    + assert (Forall (λ l, l = ranking w matchId data)
                     (leaderboard (state w1) :: ls)) as Hall'.
      { constructor; [done|]. exact Hall. }
      rewrite Forall_forall in Hall'.
      intros l l' Hl Hl'. by rewrite (Hall' l Hl), (Hall' l' Hl').
Qed.

Lemma C5_cache_hit_witness :
  (trace (run (fetchLeaderboard "m1") Sample.wStored).1 = [(GetLeaderboard "m1", true)] ∧
   leaderboard (state (run (fetchLeaderboard "m1") Sample.wStored).1)
     = [Sample.stampedEntry]) ∧
  (let '(w', shownLists) := fetchTimes 3 "m1" Sample.w0 in
   (writesTo "m1" w' ≤ writesTo "m1" Sample.w0 + 1)%nat ∧
   ∀ l l', l ∈ shownLists → l' ∈ shownLists → l = l').
Proof.
  assert (succeed Sample.wStored 1) as Hs by (intros i _; reflexivity).
  assert (leaderboards (db Sample.wStored) !! "m1"
          = Some (LeaderboardDoc.mk [Sample.stampedEntry] 700)) as Hc by reflexivity.
  split_and!.
  - exact (proj1 (proj1 (C5_cache_hit Sample.wStored "m1") _ Hs Hc)).
  - refine (proj2 (proj2 (proj2 (proj2 (proj2
      (proj1 (C5_cache_hit Sample.wStored "m1") _ Hs Hc))))) _).
    repeat constructor. discriminate.
  - refine (proj2 (C5_cache_hit Sample.w0 "m1") 3%nat _ _).
    + intros i. reflexivity.
    + intros data H. vm_compute in H. discriminate H.
Defined.

(** C5 as stated fails: a stored entry without a timestamp is shown with
    the current time, and two calls show different lists. *)
Lemma C5_stored_unmodified_counterexample :
  leaderboards (db Sample.wCached) !! "m1"
    = Some (LeaderboardDoc.mk [Sample.bareEntry] 500) ∧
  leaderboard (state (run (fetchLeaderboard "m1") Sample.wCached).1)
    ≠ [Sample.bareEntry] ∧
  leaderboard (state (run (fetchLeaderboard "m1") Sample.wCached).1)
    = [withTimestamp Sample.bareEntry 1000] ∧
  (fetchTimes 2 "m1" Sample.wCached).2
    = [[withTimestamp Sample.bareEntry 1000]; [withTimestamp Sample.bareEntry 1001]].
Proof. split_and!; by vm_compute. Qed.

(** ** The list of completed matches *)

Lemma run_fetchCompletedMatches_ok w :
  succeed w 1 →
  completedMatches (state (run fetchCompletedMatches w).1)
  = sort byTimestampDesc (completedDocs (db w)).
Proof.
  intros Hs. unfold fetchCompletedMatches.
  match goal with
  | |- context [tryCatch (bind (await ?r) ?F) ?h] =>
      rewrite (run_hom (λ q, tryCatch (bind q F) h)) by solve_hom
  end.
  rewrite run_await, perform_ok by apply (succeed_now _ _ Hs).
  cbn [respond snd ofResult bind tryCatch setState run].
  fold (completedDocs (db w)).
  set (sorted := sort byTimestampDesc (completedDocs (db w))).
  rewrite (run_updatesIn completedMatches keepsMatches).
  - done.
  - by intros [] st.
  - apply updatesIn_tryCatch; [|done].
    destruct sorted as [|first rest]; [done|].
    split; [done|].
    eapply updatesIn_weaken; [|apply fetchLeaderboard_updates]. by intros [].
Qed.

(** C8. When the query succeeds, the list of completed matches consists of
    exactly the matches of status [completed], most recent first. *)
Theorem C8_completed_matches_listed w :
  succeed w 1 →
  let listed := completedMatches (state (run fetchCompletedMatches w).1) in
  listed ≡ₚ completedDocs (db w) ∧
  StronglySorted (λ a b, Match.timestamp b ≤ Match.timestamp a) listed ∧
  Forall (λ m, Match.status m = Some completed) listed ∧
  (∀ id data, (id, data) ∈ matches (db w) →
     Match.mk id data ∈ listed ↔ MatchData.status data = Some completed) ∧
  (∀ k, filter (λ m, Match.timestamp m = k) listed
        = filter (λ m, Match.timestamp m = k) (completedDocs (db w))).
Proof.
  intros Hs listed. unfold listed. rewrite (run_fetchCompletedMatches_ok w Hs).
  assert (Forall (λ m, Match.status m = Some completed) (completedDocs (db w))) as Hall.
  { unfold completedDocs. apply Forall_forall. intros m Hin.
    apply list_elem_of_In, in_map_iff in Hin as ([id data] & <- & Hin).
    apply list_elem_of_In, list_elem_of_filter in Hin as [Hst _]. done. }
  split_and!.
  - apply sort_perm.
  - apply (sort_sorted Match.timestamp).
  - by rewrite sort_perm.
  - intros id data Hin. rewrite sort_perm. split.
    + intros Hm. rewrite Forall_forall in Hall. apply (Hall _ Hm).
    + intros Hst. unfold completedDocs.
      apply list_elem_of_In, in_map_iff. exists (id, data). split; [done|].
      apply list_elem_of_In, list_elem_of_filter. done.
  - intros k. apply (sort_stable Match.timestamp).
Qed.

Lemma C8_completed_matches_listed_witness :
  let listed := completedMatches (state (run fetchCompletedMatches Sample.w0).1) in
  listed ≡ₚ completedDocs (db Sample.w0) ∧
  StronglySorted (λ a b, Match.timestamp b ≤ Match.timestamp a) listed.
Proof.
  assert (succeed Sample.w0 1) as Hs by (intros i _; reflexivity).
  split.
  - exact (proj1 (C8_completed_matches_listed Sample.w0 Hs)).
  - exact (proj1 (proj2 (C8_completed_matches_listed Sample.w0 Hs))).
Defined.

Example completed_matches_sample :
  map Match.id (completedMatches (state (run fetchCompletedMatches Sample.w0).1))
  = ["m2"; "m1"].
Proof. by vm_compute. Qed.

(** ** Interleaved calls *)

Lemma interleave_app {A} s1 s2 (calls : list (Prog A)) w :
  interleave (s1 ++ s2) calls w
  = let '(w', calls') := interleave s1 calls w in interleave s2 calls' w'.
Proof.
  revert calls w. induction s1 as [|i s1 IH]; intros calls w; simpl; [done|].
  destruct (calls !! i) as [p|]; [|apply IH].
  destruct (advance p w) as [w' p']. apply IH.
Qed.

Lemma interleave_seq {A} (before calls : list (Prog A)) w :
  interleave (seq (length before) (length calls)) (before ++ calls) w
  = let '(w', calls') := round calls w in (w', before ++ calls').
Proof.
  revert before w. induction calls as [|p calls IH]; intros before w; simpl.
  - done.
  - rewrite list_lookup_middle by done.
    destruct (advance p w) as [w1 p'].
    rewrite insert_app_r_alt, Nat.sub_diag by done. simpl.
    specialize (IH (before ++ [p']) w1).
    rewrite length_app, Nat.add_1_r, <- !app_assoc in IH. simpl in IH.
    rewrite IH. destruct (round calls w1) as [w2 calls'].
    by rewrite <- app_assoc.
Qed.

Lemma round_length {A} (calls : list (Prog A)) w :
  length (round calls w).2 = length calls.
Proof.
  revert w. induction calls as [|p calls IH]; intros w; simpl; [done|].
  destruct (advance p w) as [w1 p']. specialize (IH w1).
  destruct (round calls w1) as [w2 calls']. simpl in *. by rewrite IH.
Qed.

Lemma interleave_round {A} (calls : list (Prog A)) w :
  interleave (seq 0 (length calls)) calls w = round calls w.
Proof.
  pose proof (interleave_seq [] calls w) as H. simpl in H. rewrite H.
  by destruct (round calls w).
Qed.

Lemma interleave_roundRobin {A} n (calls : list (Prog A)) w :
  interleave (roundRobin n (length calls)) calls w = rounds n calls w.
Proof.
  revert calls w. induction n as [|n IH]; intros calls w; [done|].
  unfold roundRobin in *. simpl. rewrite interleave_app, interleave_round.
  pose proof (round_length calls w) as Hlen.
  destruct (round calls w) as [w' calls']. simpl in Hlen.
  rewrite <- Hlen. apply IH.
Qed.

(** A call that takes all the turns runs as [run] says: the turns are a
    finer view of the same execution. *)
Lemma advance_ofResult {A} (r : JsError + A) w :
  advance (ofResult r) w = (w, ofResult r).
Proof. by destruct r. Qed.

Lemma rounds_finished {A} n (r : JsError + A) w :
  rounds n [ofResult r] w = (w, [ofResult r]).
Proof.
  induction n as [|n IH]; [done|].
  cbn [rounds round]. by rewrite advance_ofResult.
Qed.

Lemma rounds_alone {A} (p : Prog A) w :
  ∃ n, ∀ m, (n ≤ m)%nat →
    rounds m [p] w = ((run p w).1, [ofResult (run p w).2]).
Proof.
  revert w. induction p as [a|e|r k IH|k IH|msg e k IH|u k IH]; intros w.
  - exists 0%nat. intros m _. apply (rounds_finished m (inr a)).
  - exists 0%nat. intros m _. apply (rounds_finished m (inl e)).
  - destruct (perform r w) as [w' x] eqn:Hp.
    destruct (IH x w') as (n & Hn). exists (S n). intros [|m] Hm; [lia|].
    cbn [rounds round advance run]. rewrite Hp. apply Hn. lia.
  - destruct (IH (clock w (ticks w)) (tick w)) as (n & Hn).
    exists (S n). intros [|m] Hm; [lia|].
    specialize (Hn (S m) ltac:(lia)). exact Hn.
  - destruct (IH (logError msg e w)) as (n & Hn).
    exists (S n). intros [|m] Hm; [lia|].
    specialize (Hn (S m) ltac:(lia)). exact Hn.
  - destruct (IH (withState (applyUpdate u) w)) as (n & Hn).
    exists (S n). intros [|m] Hm; [lia|].
    specialize (Hn (S m) ltac:(lia)). exact Hn.
Qed.

Lemma noAwait_bind {A B} (p : Prog A) (f : A → Prog B) :
  noAwait p → (∀ a, noAwait (f a)) → noAwait (bind p f).
Proof.
  intros Hp Hf. induction p as [a|e|r k IH|k IH|msg e k IH|u k IH]; simpl in *; eauto.
Qed.

Lemma noAwait_forEach {A B} (f : A → Prog B) l :
  (∀ a, noAwait (f a)) → noAwait (forEach f l).
Proof.
  intros Hf. induction l as [|x l IH]; simpl; [done|].
  apply noAwait_bind; [done|]. intros y. by apply noAwait_bind.
Qed.

(** A turn that begins with code making no Firestore call runs that code
    and goes on. *)
Lemma advance_hom {A B} (K : Prog A → Prog B) (HK : EffectHom K) p w :
  noAwait p →
  advance (K p) w = let '(w', r) := run p w in advance (K (ofResult r)) w'.
Proof.
  revert w. induction p as [a|e|r k IH|k IH|msg e k IH|u k IH]; intros w Hp; simpl in *.
  - done.
  - done.
  - done.
  - rewrite (hom_newDate K HK). simpl. by apply IH.
  - rewrite (hom_console K HK). simpl. by apply IH.
  - rewrite (hom_setState K HK). simpl. by apply IH.
Qed.

Section Turns.
Context (matchId : string) (d : Db).

Lemma turnPre_post t w w' : turnPre d t w → turnPost matchId t w w' → turnPre d t w'.
Proof.
intros Hpre (Hf & Hdb & _).
assert (neverFails w → neverFails w') as Hn.
{ unfold neverFails. by rewrite Hf. }
destruct t; simpl in *; [|by apply Hn..].
destruct Hpre as [? ?]. split; [by apply Hn|congruence].
Qed.

Lemma round_plays t script calls w :
Forall (plays matchId d (t :: script)) calls →
turnPre d t w →
∃ w' calls',
  round calls w = (w', calls') ∧
  Forall (plays matchId d script) calls' ∧
  turnPre d t w' ∧
  writesTo matchId w' = (writesTo matchId w + length calls * turnWrites t)%nat ∧
  computationsOf matchId w'
    = (computationsOf matchId w + length calls * turnComputes t)%nat.
Proof.
intros Hall. revert w. induction Hall as [|p calls Hp _ IH]; intros w Hpre.
- exists w, []. simpl. split_and!; [done|done|done|lia|lia].
- destruct (Hp w Hpre) as (w1 & p' & Hadv & Hpost & Hp').
  pose proof (turnPre_post _ _ _ Hpre Hpost) as Hpre1.
  destruct (IH w1 Hpre1) as (w2 & calls' & Hround & Hall' & Hpre2 & Hw & Hc).
  exists w2, (p' :: calls'). simpl. rewrite Hadv, Hround.
  destruct Hpost as (_ & _ & Hw1 & Hc1).
  split_and!; [done|by constructor|done|lia|lia].
Qed.

Lemma rounds_plays script calls w :
chained d script →
Forall (plays matchId d script) calls →
(if script is t :: _ then turnPre d t w else True) →
∃ w',
  rounds (length script) calls w = (w', replicate (length calls) (Ret tt)) ∧
  writesTo matchId w'
    = (writesTo matchId w + length calls * sum_list (turnWrites <$> script))%nat ∧
  computationsOf matchId w'
    = (computationsOf matchId w
       + length calls * sum_list (turnComputes <$> script))%nat.
Proof.
revert calls w. induction script as [|t script IH]; intros calls w Hch Hall Hpre.
- exists w. simpl. split_and!; [|lia|lia]. f_equal.
  induction Hall as [|p calls Hp _ IHc]; simpl; [done|]. simpl in Hp. congruence.
- destruct (round_plays t script calls w Hall Hpre)
    as (w1 & calls1 & Hround & Hall1 & Hpre1 & Hw1 & Hc1).
  pose proof (round_length calls w) as Hlen. rewrite Hround in Hlen. simpl in Hlen.
  destruct (IH calls1 w1) as (w2 & Hrounds & Hw2 & Hc2).
  { destruct script; [done|]. apply Hch. }
  { done. }
  { destruct script as [|t' script]; [done|]. destruct Hch as [Hch _]. by apply Hch. }
  exists w2. cbn [rounds length]. rewrite Hround, Hrounds, Hlen.
  split; [done|]. rewrite !fmap_cons. simpl.
  rewrite Hw2, Hw1, Hc2, Hc1, Hlen, !Nat.mul_add_distr_l. lia.
Qed.

End Turns.

Lemma turnPost_answered matchId t r w w0 :
  sameStore w w0 →
  (if t is Reads _ then (respond (db w) r).1 = db w else True) →
  countEvents (isWriteTo matchId) [(r, true)] = turnWrites t →
  countEvents (isComputeOf matchId) [(r, true)] = turnComputes t →
  turnPost matchId t w (answered r w0).
Proof.
  intros (Hdb & Htr & Hf) Hr Hw Hc. unfold turnPost, writesTo, computationsOf.
  cbn [answered fails db trace]. rewrite Hdb, Htr, !countEvents_app, Hw, Hc.
  split_and!; [done| |done|done]. by destruct t.
Qed.

Ltac read_turn Hnf Hdb :=
  eexists _, _; split;
  [ cbn -[perform answered]; rewrite perform_ok by apply Hnf;
    cbn -[answered]; rewrite ?Hdb
  | ].

Lemma scored_nonempty pd matchId md clk t0 docs :
  docs ≠ [] →
  (0 < length (take 10 (sort byCorrectDesc (scoreAll pd matchId md clk t0 docs))))%nat.
Proof.
  intros Hne. rewrite length_take, sort_length, scoreAll_length.
  destruct docs; [done|]. simpl. lia.
Qed.

Lemma run_scoreLoop_unfolded pd matchId md docs w :
  run (forEach (λ doc : string * Prediction.t,
                  NewDate (λ t, Ret (mkEntry pd matchId md doc.2 t))) docs) w
  = (tickN (length docs) w, inr (scoreAll pd matchId md (clock w) (ticks w) docs)).
Proof. apply run_scoreLoop. Qed.

Lemma fetchLeaderboard_plays matchId d data :
  leaderboards d !! matchId = None →
  lookupDoc matchId (matches d) = Some data →
  predictionsFor matchId d ≠ [] →
  plays matchId d missScript (fetchLeaderboard matchId).
Proof.
  intros Hc Hm Hp.
  intros w [Hnf Hdb]. read_turn Hnf Hdb.
  { rewrite Hc. cbn -[answered]. reflexivity. }
  split; [by apply turnPost_answered|].
  clear w Hnf Hdb. intros w [Hnf Hdb]. read_turn Hnf Hdb.
  { reflexivity. }
  split; [by apply turnPost_answered|].
  clear w Hnf Hdb. intros w [Hnf Hdb]. read_turn Hnf Hdb.
  { rewrite Hm. cbn -[answered]. reflexivity. }
  split.
  { apply turnPost_answered; [done|done|done|]. unfold countEvents. cbn. by rewrite bool_decide_true. }
  clear w Hnf Hdb. intros w [Hnf Hdb]. read_turn Hnf Hdb.
  { reflexivity. }
  split; [by apply turnPost_answered|].
  clear w Hnf Hdb. intros w Hnf.
  eexists _, _. split.
  { lazymatch goal with
    | |- advance ?t ?w0 = _ =>
        lazymatch t with
        | context C [forEach ?g ?l] =>
            let K := constr:(λ q : Prog (list LeaderboardEntry.t),
                               ltac:(let r := context C [q] in exact r)) in
            rewrite (advance_hom K ltac:(solve_hom) (forEach g l) w0)
              by (apply noAwait_forEach; done)
        end
    end.
    rewrite run_scoreLoop_unfolded.
    cbn -[perform answered tickN scoreAll sort take decide].
    rewrite decide_True by (by apply scored_nonempty).
    cbn -[perform answered tickN scoreAll sort take].
    rewrite perform_ok by apply Hnf.
    cbn -[answered tickN scoreAll sort take]. reflexivity. }
  split.
  { apply turnPost_answered; [done|done| |done]. unfold countEvents. cbn. by rewrite bool_decide_true. }
  intros w2 Hnf2.
  eexists _, _. split; [reflexivity|]. split; [|reflexivity].
  unfold turnPost. cbn. split_and!; try done; lia.
Qed.

Lemma missScript_chained d : chained d missScript.
Proof. simpl. split_and!; try done. by intros w [? ?]. Qed.

(** C7, as the code has it.  Nothing makes simultaneous calls share a
    computation or holds back a second write: when [m] calls for a match
    that is not cached take turns, every call, having read the cache before
    the first write, runs the computation and writes its own result, so
    there are [m] computations and [m] writes. *)
Theorem C7_simultaneous_calls_all_compute w matchId data (m : nat) :
  neverFails w →
  leaderboards (db w) !! matchId = None →
  lookupDoc matchId (matches (db w)) = Some data →
  predictionsFor matchId (db w) ≠ [] →
  let '(w', calls) :=
    interleave (roundRobin 6 m) (replicate m (fetchLeaderboard matchId)) w in
  calls = replicate m (Ret tt) ∧
  computationsOf matchId w' = (computationsOf matchId w + m)%nat ∧
  writesTo matchId w' = (writesTo matchId w + m)%nat.
Proof.
  intros Hnf Hc Hm Hp.
  pose proof (interleave_roundRobin 6 (replicate m (fetchLeaderboard matchId)) w) as Hi.
  rewrite length_replicate in Hi. rewrite Hi. clear Hi.
  destruct (rounds_plays matchId (db w) missScript
              (replicate m (fetchLeaderboard matchId)) w)
    as (w' & Hr & Hw & Hcomp).
  - apply missScript_chained.
  - apply Forall_replicate. by eapply fetchLeaderboard_plays.
  - by split.
  - change (length missScript) with 6%nat in Hr. rewrite Hr.
    rewrite length_replicate in *. simpl in Hw, Hcomp.
    split_and!; [done|lia|lia].
Qed.

Lemma C7_simultaneous_calls_all_compute_witness :
  let '(w', calls) :=
    interleave (roundRobin 6 3) (replicate 3 (fetchLeaderboard "m1")) Sample.w0 in
  calls = replicate 3 (Ret tt) ∧
  computationsOf "m1" w' = (computationsOf "m1" Sample.w0 + 3)%nat ∧
  writesTo "m1" w' = (writesTo "m1" Sample.w0 + 3)%nat.
Proof.
  apply (C7_simultaneous_calls_all_compute Sample.w0 "m1" Sample.match1 3);
    [intros i; reflexivity|reflexivity|reflexivity|vm_compute; discriminate].
Defined.

(** C7 as stated fails: two calls for a match that is not cached, taking
    turns, both compute and both write. *)
Lemma C7_single_computation_counterexample :
  leaderboards (db Sample.w0) !! "m1" = None ∧
  let '(w', calls) :=
    interleave (roundRobin 6 2) [fetchLeaderboard "m1"; fetchLeaderboard "m1"]
               Sample.w0 in
  calls = [Ret tt; Ret tt] ∧
  computationsOf "m1" w' = 2%nat ∧
  writesTo "m1" w' = 2%nat ∧
  map (λ ev : Req * bool, isWriteTo "m1" ev) (trace w')
    = [false; false; false; false; false; false; false; false; true; true].
Proof. split; by vm_compute. Qed.

(** * More about the page *)

(** ** The Firestore calls of a program *)

Lemma requestsIn_weaken {A} (Q Q' : Req → Prop) (p : Prog A) :
  (∀ r, Q r → Q' r) → requestsIn Q p → requestsIn Q' p.
Proof.
  intros HQ. induction p as [a|e|r k IH|k IH|msg e k IH|u k IH]; simpl; eauto.
  intros [? ?]. eauto.
Qed.

Lemma requestsIn_bind {A B} Q (p : Prog A) (f : A → Prog B) :
  requestsIn Q p → (∀ a, requestsIn Q (f a)) → requestsIn Q (bind p f).
Proof.
  intros Hp Hf. induction p as [a|e|r k IH|k IH|msg e k IH|u k IH]; simpl in *; eauto.
  destruct Hp as [? ?]. eauto.
Qed.

Lemma requestsIn_tryCatch {A} Q (p : Prog A) (h : JsError → Prog A) :
  requestsIn Q p → (∀ e, requestsIn Q (h e)) → requestsIn Q (tryCatch p h).
Proof.
  intros Hp Hh. induction p as [a|e|r k IH|k IH|msg e k IH|u k IH]; simpl in *; eauto.
  destruct Hp as [? ?]. eauto.
Qed.

Lemma requestsIn_forEach {A B} Q (f : A → Prog B) l :
  (∀ a, requestsIn Q (f a)) → requestsIn Q (forEach f l).
Proof.
  intros Hf. induction l as [|x l IH]; simpl; [done|].
  apply requestsIn_bind; [done|]. intros y. by apply requestsIn_bind.
Qed.

Lemma requestsIn_await (Q : Req → Prop) r : Q r → requestsIn Q (await r).
Proof. simpl. intros Hr. split; [done|]. by intros [e|x]. Qed.

Lemma perform_trace r w :
  ∃ ok, trace (perform r w).1 = trace w ++ [(r, ok)].
Proof.
  unfold perform. destruct (fails w (length (trace w))).
  - by exists false.
  - exists true. by destruct (respond (db w) r).
Qed.

(** The trace only grows, by calls that the program can issue. *)
Lemma run_requestsIn {A} Q (p : Prog A) w :
  requestsIn Q p →
  ∃ evs, trace (run p w).1 = trace w ++ evs ∧ Forall (λ ev, Q ev.1) evs.
Proof.
  revert w. induction p as [a|e|r k IH|k IH|msg e k IH|u k IH]; intros w Hp; simpl in *.
  - exists []. by rewrite app_nil_r.
  - exists []. by rewrite app_nil_r.
  - destruct Hp as [Hr Hk]. destruct (perform_trace r w) as [ok Htr].
    destruct (perform r w) as [w' x]. simpl in Htr.
    destruct (IH x w' (Hk x)) as (evs & Hevs & Hall).
    exists ((r, ok) :: evs). rewrite Hevs, Htr, <- app_assoc. split; [done|].
    by constructor.
  - destruct (IH (clock w (ticks w)) (tick w) (Hp _)) as (evs & Hevs & Hall).
    by exists evs.
  - destruct (IH (logError msg e w) Hp) as (evs & Hevs & Hall). by exists evs.
  - destruct (IH (withState (applyUpdate u) w) Hp) as (evs & Hevs & Hall). by exists evs.
Qed.

(** A property of the database that every call of the program keeps is
    kept by the program. *)
Lemma run_db_invariant {A} (Q : Req → Prop) (P : Db → Prop) (p : Prog A) w :
  (∀ r d, Q r → P d → P (respond d r).1) →
  requestsIn Q p →
  P (db w) → P (db (run p w).1).
Proof.
  intros HQ. revert w.
  induction p as [a|e|r k IH|k IH|msg e k IH|u k IH]; intros w Hp HP; simpl in *.
  - done.
  - done.
  - destruct Hp as [Hr Hk].
    assert (P (db (perform r w).1)) as HP'.
    { unfold perform. destruct (fails w (length (trace w))); [done|].
      specialize (HQ r (db w) Hr HP). by destruct (respond (db w) r). }
    destruct (perform r w) as [w' x]. by apply IH.
  - by apply IH.
  - by apply IH.
  - by apply IH.
Qed.

Lemma callsAtMost_mono {A} c n n' (p : Prog A) :
  (n ≤ n')%nat → callsAtMost c n p → callsAtMost c n' p.
Proof.
  revert n n'. induction p as [a|e|r k IH|k IH|msg e k IH|u k IH];
    intros n n' Hle Hp; simpl in *; eauto.
  destruct (c r); [|by eauto].
  destruct n as [|n]; [done|]. destruct n' as [|n']; [lia|].
  intros x. apply (IH x n n'); [lia|done].
Qed.

Lemma callsAtMost_bind {A B} c a b (p : Prog A) (f : A → Prog B) :
  callsAtMost c a p → (∀ x, callsAtMost c b (f x)) →
  callsAtMost c (a + b) (bind p f).
Proof.
  revert a. induction p as [x|e|r k IH|k IH|msg e k IH|u k IH];
    intros a Hp Hf; simpl in *; eauto.
  - apply (callsAtMost_mono c b); [lia|done].
  - destruct (c r); [|by eauto].
    destruct a as [|a]; [done|]. simpl. intros x. by apply IH.
Qed.

Lemma callsAtMost_tryCatch {A} c a b (p : Prog A) (h : JsError → Prog A) :
  callsAtMost c a p → (∀ e, callsAtMost c b (h e)) →
  callsAtMost c (a + b) (tryCatch p h).
Proof.
  revert a. induction p as [x|e|r k IH|k IH|msg e k IH|u k IH];
    intros a Hp Hh; simpl in *; eauto.
  - apply (callsAtMost_mono c b); [lia|done].
  - destruct (c r); [|by eauto].
    destruct a as [|a]; [done|]. simpl. intros x. by apply IH.
Qed.

Lemma callsAtMost_forEach {A B} c (f : A → Prog B) l :
  (∀ a, callsAtMost c 0 (f a)) → callsAtMost c 0 (forEach f l).
Proof.
  intros Hf. induction l as [|x l IH]; simpl; [done|].
  apply (callsAtMost_bind c 0 0); [done|]. intros y.
  by apply (callsAtMost_bind c 0 0).
Qed.

Lemma callsAtMost_await c r : callsAtMost c 1 (await r).
Proof. simpl. destruct (c r); by intros [e|x]. Qed.

Lemma callsAtMost_read c r : c r = false → callsAtMost c 0 (await r).
Proof. simpl. intros ->. by intros [e|x]. Qed.

Lemma run_callsAtMost {A} c n (p : Prog A) w :
  callsAtMost c n p →
  (callsOf c (run p w).1 ≤ callsOf c w + n)%nat.
Proof.
  unfold callsOf.
  revert n w. induction p as [a|e|r k IH|k IH|msg e k IH|u k IH];
    intros n w Hp; simpl in *.
  - lia.
  - lia.
  - destruct (perform_trace r w) as [ok Htr].
    destruct (perform r w) as [w' x]. simpl in Htr.
    destruct (c r) eqn:Hc.
    + destruct n as [|n]; [done|].
      specialize (IH x n w' (Hp x)). rewrite Htr, countEvents_app in IH.
      unfold countEvents in IH at 3. simpl in IH. rewrite Hc in IH. simpl in IH. lia.
    + specialize (IH x n w' (Hp x)). rewrite Htr, countEvents_app in IH.
      unfold countEvents in IH at 3. simpl in IH. rewrite Hc in IH. simpl in IH. lia.
  - apply (IH (clock w (ticks w)) n (tick w)), Hp.
  - apply (IH n (logError msg e w)), Hp.
  - apply (IH n (withState (applyUpdate u) w)), Hp.
Qed.

Lemma calculateLeaderboard_requests matchId :
  requestsIn (λ r, leaderboardRequest matchId r ∧ isRead r)
             (calculateLeaderboard matchId).
Proof.
  unfold calculateLeaderboard.
  apply requestsIn_tryCatch; [|done].
  apply requestsIn_bind; [by apply requestsIn_await|]. intros ps.
  apply requestsIn_bind; [by apply requestsIn_await|]. intros [data|]; [|done].
  apply requestsIn_bind; [by apply requestsIn_await|]. intros docs.
  apply requestsIn_bind; [|done]. by apply requestsIn_forEach.
Qed.

Lemma calculateLeaderboard_calls matchId :
  callsAtMost anyCall 3 (calculateLeaderboard matchId) ∧
  callsAtMost isWrite 0 (calculateLeaderboard matchId).
Proof.
  unfold calculateLeaderboard. split.
  - apply (callsAtMost_tryCatch _ 3 0); [|done].
    apply (callsAtMost_bind _ 1 2); [apply callsAtMost_await|]. intros ps.
    apply (callsAtMost_bind _ 1 1); [apply callsAtMost_await|]. intros [data|]; [|done].
    apply (callsAtMost_bind _ 1 0); [apply callsAtMost_await|]. intros docs.
    apply (callsAtMost_bind _ 0 0); [|done]. by apply callsAtMost_forEach.
  - apply (callsAtMost_tryCatch _ 0 0); [|done].
    apply (callsAtMost_bind _ 0 0); [by apply callsAtMost_read|]. intros ps.
    apply (callsAtMost_bind _ 0 0); [by apply callsAtMost_read|]. intros [data|]; [|done].
    apply (callsAtMost_bind _ 0 0); [by apply callsAtMost_read|]. intros docs.
    apply (callsAtMost_bind _ 0 0); [|done]. by apply callsAtMost_forEach.
Qed.

Lemma fetchLeaderboard_requests matchId :
  requestsIn (leaderboardRequest matchId) (fetchLeaderboard matchId).
Proof.
  unfold fetchLeaderboard, tryFinally.
  apply requestsIn_bind; [done|]. intros _.
  apply requestsIn_bind; [|intros [e|[]]; done].
  apply requestsIn_tryCatch; [|done].
  apply requestsIn_bind; [|done].
  apply requestsIn_tryCatch; [|done].
  apply requestsIn_bind; [by apply requestsIn_await|]. intros [data|].
  - apply requestsIn_bind; [|done]. apply requestsIn_forEach.
    intros e. unfold readEntry. by destruct (LeaderboardEntry.timestamp e).
  - apply requestsIn_bind; [|done].
    apply requestsIn_bind.
    { eapply requestsIn_weaken; [|apply calculateLeaderboard_requests]. by intros r [? ?]. }
    intros l. apply requestsIn_bind; [|done].
    case_decide; [|done]. apply requestsIn_bind; [done|].
    intros now. by apply requestsIn_await.
Qed.

Lemma fetchLeaderboard_calls matchId :
  callsAtMost anyCall 5 (fetchLeaderboard matchId) ∧
  callsAtMost isWrite 1 (fetchLeaderboard matchId).
Proof.
  unfold fetchLeaderboard, tryFinally. split.
  - apply (callsAtMost_bind _ 0 5); [done|]. intros _.
    apply (callsAtMost_bind _ 5 0); [|intros [e|[]]; done].
    apply (callsAtMost_tryCatch _ 5 0); [|done].
    apply (callsAtMost_bind _ 5 0); [|done].
    apply (callsAtMost_tryCatch _ 5 0); [|done].
    apply (callsAtMost_bind _ 1 4); [apply callsAtMost_await|]. intros [data|].
    + apply (callsAtMost_mono _ 0); [lia|].
      apply (callsAtMost_bind _ 0 0); [|done]. apply callsAtMost_forEach.
      intros e. unfold readEntry. by destruct (LeaderboardEntry.timestamp e).
    + apply (callsAtMost_bind _ 4 0); [|done].
      apply (callsAtMost_bind _ 3 1); [apply calculateLeaderboard_calls|].
      intros l. apply (callsAtMost_bind _ 1 0); [|done].
      case_decide; [|done]. apply (callsAtMost_bind _ 0 1); [done|].
      intros now. apply (callsAtMost_await _ (SetLeaderboard _ _)).
  - apply (callsAtMost_bind _ 0 1); [done|]. intros _.
    apply (callsAtMost_bind _ 1 0); [|intros [e|[]]; done].
    apply (callsAtMost_tryCatch _ 1 0); [|done].
    apply (callsAtMost_bind _ 1 0); [|done].
    apply (callsAtMost_tryCatch _ 1 0); [|done].
    apply (callsAtMost_bind _ 0 1); [by apply callsAtMost_read|]. intros [data|].
    + apply (callsAtMost_mono _ 0); [lia|].
      apply (callsAtMost_bind _ 0 0); [|done]. apply callsAtMost_forEach.
      intros e. unfold readEntry. by destruct (LeaderboardEntry.timestamp e).
    + apply (callsAtMost_bind _ 1 0); [|done].
      apply (callsAtMost_bind _ 0 1); [apply calculateLeaderboard_calls|].
      intros l. apply (callsAtMost_bind _ 1 0); [|done].
      case_decide; [|done]. apply (callsAtMost_bind _ 0 1); [done|].
      intros now. apply (callsAtMost_await _ (SetLeaderboard _ _)).
Qed.

(** ** Every outcome of [fetchLeaderboard] *)

Lemma succeed_cons w w1 k :
  fails w (length (trace w)) = false →
  fails w1 = fails w →
  length (trace w1) = S (length (trace w)) →
  succeed w1 k → succeed w (S k).
Proof.
  intros H0 Hf Hlen Hs [|i] Hi; [by rewrite Nat.add_0_r|].
  specialize (Hs i ltac:(lia)). rewrite Hf, Hlen in Hs.
  rewrite <- Hs. f_equal. lia.
Qed.

(** When the computation returns the empty list nothing is written and the
    empty list is shown. *)
Lemma run_fetchLeaderboard_nothingComputed w matchId w2 :
  fails w (length (trace w)) = false →
  leaderboards (db w) !! matchId = None →
  run (calculateLeaderboard matchId)
      (answered (GetLeaderboard matchId) (withState (applyUpdate (setLoading true)) w))
    = (w2, inr []) →
  run (fetchLeaderboard matchId) w = (withState (shown []) w2, inr tt).
Proof.
  intros Hf Hc Hcalc. unfold fetchLeaderboard.
  rewrite run_bind. cbn [setState run].
  rewrite run_tryFinally, run_tryCatch, run_bind, run_await, perform_ok by done.
  cbn [respond snd fst db withState]. rewrite Hc.
  rewrite !run_bind, Hcalc. done.
Qed.

Lemma fetchLeaderboard_fetched w matchId :
  fetched matchId w (run (fetchLeaderboard matchId) w).1.
Proof.
  destruct (fails w (length (trace w))) eqn:H0.
  { rewrite run_fetchLeaderboard_down by done. by apply fetched_down. }
  destruct (leaderboards (db w) !! matchId) as [doc|] eqn:Hc.
  { rewrite (run_fetchLeaderboard_hit w matchId doc); [by eapply fetched_hit|..|done].
    intros [|i] Hi; [by rewrite Nat.add_0_r|lia]. }
  set (w1 := answered (GetLeaderboard matchId)
                      (withState (applyUpdate (setLoading true)) w)).
  destruct (run_calculateLeaderboard_cases w1 matchId)
    as [(data & Hs & Hm & Hrun)|(w2 & e & Hrun & (Hdb & _) & _)].
  - assert (succeed w 4) as Hs4.
    { apply (succeed_cons w w1); [done|done| |done].
      unfold w1. simpl. rewrite length_app. simpl. lia. }
    destruct (decide (predictionsFor matchId (db w) = [])) as [Hp|Hp].
    { rewrite (run_fetchLeaderboard_empty w matchId data) by done.
      by apply fetched_nothing. }
    destruct (fails w (length (trace w) + 4)) eqn:H4.
    + rewrite (run_fetchLeaderboard_writeFails w matchId data) by done.
      by apply fetched_nothing.
    + assert (succeed w 5) as Hs5.
      { intros i Hi. destruct (decide (i = 4%nat)) as [->|]; [done|].
        apply Hs4. lia. }
      rewrite (run_fetchLeaderboard_computed w matchId data) by done.
      by eapply fetched_stored.
  - rewrite (run_fetchLeaderboard_nothingComputed w matchId w2) by done.
    apply fetched_nothing; [done|done| |done]. simpl. by rewrite Hdb.
Qed.

Lemma requestsIn_True {A} (p : Prog A) : requestsIn (λ _, True) p.
Proof. induction p as [a|e|r k IH|k IH|msg e k IH|u k IH]; simpl; eauto. Qed.

Lemma callsOf_anyCall w : callsOf anyCall w = length (trace w).
Proof.
  unfold callsOf, countEvents. induction (trace w) as [|ev evs IH]; simpl; [done|].
  by rewrite IH.
Qed.

Lemma fetchLeaderboard_loading w matchId :
  loading (state (run (fetchLeaderboard matchId) w).1) = false.
Proof.
  unfold fetchLeaderboard. rewrite run_bind. cbn [setState run].
  rewrite run_tryFinally.
  match goal with |- context [run (tryCatch ?p ?h) ?w0] =>
    destruct (run (tryCatch p h) w0) as [w2 r] end.
  done.
Qed.

Lemma fetchLeaderboard_first_call w matchId :
  ∃ ok evs,
    trace (run (fetchLeaderboard matchId) w).1
      = trace w ++ (GetLeaderboard matchId, ok) :: evs ∧
    Forall (λ ev, leaderboardRequest matchId ev.1) evs.
Proof.
  destruct (run_requestsIn _ _ w (fetchLeaderboard_requests matchId))
    as (evs0 & Hevs0 & Hall).
  assert (∃ ok evs, trace (run (fetchLeaderboard matchId) w).1
                    = trace w ++ (GetLeaderboard matchId, ok) :: evs)
    as (ok & evs & Hevs).
  { unfold fetchLeaderboard, tryFinally. cbn -[perform].
    set (w0 := withState _ w).
    destruct (perform_trace (GetLeaderboard matchId) w0) as [ok Htr].
    destruct (perform (GetLeaderboard matchId) w0) as [w1 x]. simpl in Htr.
    match goal with |- context [run ?p w1] =>
      destruct (run_requestsIn (λ _, True) p w1 (requestsIn_True p)) as (evs & Hevs & _)
    end.
    exists ok, evs. rewrite Hevs, Htr, <- app_assoc. done. }
  exists ok, evs. split; [done|].
  rewrite Hevs in Hevs0. apply app_inv_head in Hevs0. subst evs0.
  by apply Forall_cons in Hall as [_ ?].
Qed.

Lemma take_StronglySorted {X} (R : X → X → Prop) n l :
  StronglySorted R l → StronglySorted R (take n l).
Proof.
  intros H. rewrite <- (take_drop n l) in H.
  by apply StronglySorted_app_1_l in H.
Qed.

Lemma ranking_wellFormed w matchId data :
  predictionsFor matchId (db w) ≠ [] →
  wellFormedSnapshot matchId (snapshotOf w matchId data).
Proof.
  intros Hp. unfold wellFormedSnapshot, snapshotOf. cbn [LeaderboardDoc.entries].
  split_and!.
  - by apply ranking_nonempty.
  - unfold ranking, slice0, topN. rewrite length_take. lia.
  - unfold ranking, slice0. apply take_StronglySorted.
    apply (sort_sorted LeaderboardEntry.correctPredictions).
  - apply Forall_forall. intros e (doc & now & Hdoc & ->)%ranking_elem.
    apply list_elem_of_filter in Hdoc as [Hid _]. simpl.
    split_and!; [done|done|done|apply correctPredictionsOf_bounds..].
Qed.

(** ** What [fetchLeaderboard] does to the cache *)

(** X1. In every world, a call of [fetchLeaderboard] leaves the players,
    the matches and the predictions as they are, never replaces or removes
    a stored snapshot, and does not touch the snapshots of other matches. *)
Theorem X1_fetchLeaderboard_keeps_snapshots w matchId :
  let w' := (run (fetchLeaderboard matchId) w).1 in
  players (db w') = players (db w) ∧
  matches (db w') = matches (db w) ∧
  predictions (db w') = predictions (db w) ∧
  (∀ id doc, leaderboards (db w) !! id = Some doc →
             leaderboards (db w') !! id = Some doc) ∧
  (∀ id, id ≠ matchId → leaderboards (db w') !! id = leaderboards (db w) !! id).
Proof.
  intros w'.
  destruct (run_sameEnvironment (fetchLeaderboard matchId) w) as (_ & _ & Hpl & Hma & Hpr).
  split_and!; [done|done|done| |].
  - intros id doc Hid.
    destruct (fetchLeaderboard_fetched w matchId)
      as [_ Hdb _|data _ _ Hdb _ _|data _ Hc _ _ Hdb _|_ _ Hdb _];
      fold w' in Hdb; rewrite Hdb; try done.
    simpl. rewrite lookup_insert_ne; [done|]. by intros <-; congruence.
  - intros id Hne.
    destruct (fetchLeaderboard_fetched w matchId)
      as [_ Hdb _|data _ _ Hdb _ _|data _ Hc _ _ Hdb _|_ _ Hdb _];
      fold w' in Hdb; rewrite Hdb; try done.
    simpl. by rewrite lookup_insert_ne.
Qed.

Lemma X1_fetchLeaderboard_keeps_snapshots_witness :
  leaderboards (db (run (fetchLeaderboard "m1") Sample.wStored).1) !! "m1"
  = Some (LeaderboardDoc.mk [Sample.stampedEntry] 700).
Proof.
  refine (proj1 (proj2 (proj2 (proj2
    (X1_fetchLeaderboard_keeps_snapshots Sample.wStored "m1")))) "m1" _ _).
  reflexivity.
Defined.

(** X2. On a cache miss, in every world, either nothing is stored and the
    empty list is shown, or what is stored under the match id is exactly
    the list shown, and it is not empty, has at most ten entries, is sorted
    by correct picks descending, and each entry belongs to the match, has
    its timestamp and has [0 <= correctPredictions <= totalPredictions]. *)
Theorem X2_fetchLeaderboard_stores_what_it_shows w matchId :
  leaderboards (db w) !! matchId = None →
  let w' := (run (fetchLeaderboard matchId) w).1 in
  (leaderboards (db w') !! matchId = None ∧ leaderboard (state w') = []) ∨
  (∃ doc,
      leaderboards (db w') !! matchId = Some doc ∧
      leaderboard (state w') = LeaderboardDoc.entries doc ∧
      wellFormedSnapshot matchId doc).
Proof.
  intros Hc w'.
  destruct (fetchLeaderboard_fetched w matchId)
    as [_ Hdb Hl|data _ Hc' Hdb Hl _|data _ _ Hm Hp Hdb Hl|_ _ Hdb Hl];
    fold w' in Hdb, Hl.
  - left. by rewrite Hdb.
  - congruence.
  - right. exists (snapshotOf w matchId data). rewrite Hdb, Hl. split_and!.
    + simpl. apply lookup_insert_eq.
    + done.
    + by apply ranking_wellFormed.
  - left. by rewrite Hdb.
Qed.

Lemma X2_fetchLeaderboard_stores_what_it_shows_witness :
  let w' := (run (fetchLeaderboard "m1") Sample.w0).1 in
  (leaderboards (db w') !! "m1" = None ∧ leaderboard (state w') = []) ∨
  (∃ doc,
      leaderboards (db w') !! "m1" = Some doc ∧
      leaderboard (state w') = LeaderboardDoc.entries doc ∧
      wellFormedSnapshot "m1" doc).
Proof.
  apply (X2_fetchLeaderboard_stores_what_it_shows Sample.w0 "m1"). reflexivity.
Defined.

(** X3. In every world, a call of [fetchLeaderboard] issues at most five
    Firestore calls, the first of which is the read of the cached
    leaderboard and all of which are about the requested match, and at
    most one write; the computation on its own issues at most three calls,
    none of them a write, and changes neither the database nor the state of
    the component. *)
Theorem X3_call_budget w matchId :
  (let w' := (run (fetchLeaderboard matchId) w).1 in
   (length (trace w') ≤ length (trace w) + 5)%nat ∧
   (callsOf isWrite w' ≤ callsOf isWrite w + 1)%nat ∧
   ∃ ok evs,
     trace w' = trace w ++ (GetLeaderboard matchId, ok) :: evs ∧
     Forall (λ ev, leaderboardRequest matchId ev.1) evs) ∧
  (let w' := (run (calculateLeaderboard matchId) w).1 in
   (length (trace w') ≤ length (trace w) + 3)%nat ∧
   callsOf isWrite w' = callsOf isWrite w ∧
   db w' = db w ∧ state w' = state w).
Proof.
  split.
  - intros w'. split_and!.
    + rewrite <- !callsOf_anyCall. apply run_callsAtMost, fetchLeaderboard_calls.
    + apply run_callsAtMost, fetchLeaderboard_calls.
    + apply fetchLeaderboard_first_call.
  - intros w'. split_and!.
    + rewrite <- !callsOf_anyCall. apply run_callsAtMost, calculateLeaderboard_calls.
    + pose proof (run_callsAtMost isWrite 0 _ w
                    (proj2 (calculateLeaderboard_calls matchId))) as Hle.
      fold w' in Hle.
      destruct (run_requestsIn _ _ w (calculateLeaderboard_requests matchId))
        as (evs & Hevs & _). fold w' in Hevs.
      unfold callsOf in *. rewrite Hevs, countEvents_app in *. lia.
    + apply calculateLeaderboard_db.
    + apply (run_updatesIn (λ s, s) (λ _, False)); [done|].
      apply calculateLeaderboard_updates.
Qed.

(** ** [fetchCompletedMatches], case by case *)

Lemma run_fetchCompletedMatches_down w :
  fails w (length (trace w)) = true →
  run fetchCompletedMatches w
  = (mkWorld (db w) (loaded (state w))
             (console w ++ [(matchesMessage, FirestoreError)])
             (trace w ++ [(QueryMatches completed, false)])
             (ticks w) (clock w) (fails w),
     inr tt).
Proof.
  intros Hf. unfold fetchCompletedMatches.
  match goal with
  | |- context [tryCatch (bind (await ?r) ?F) ?h] =>
      rewrite (run_hom (λ q, tryCatch (bind q F) h)) by solve_hom
  end.
  rewrite run_await, perform_fail by done. done.
Qed.

Lemma run_fetchCompletedMatches_none w :
  fails w (length (trace w)) = false →
  completedDocs (db w) = [] →
  run fetchCompletedMatches w
  = (mkWorld (db w)
             (mkState (leaderboard (state w)) false (selectedMatch (state w)) [])
             (console w) (trace w ++ [(QueryMatches completed, true)])
             (ticks w) (clock w) (fails w),
     inr tt).
Proof.
  intros Hf Hnone. unfold fetchCompletedMatches.
  match goal with
  | |- context [tryCatch (bind (await ?r) ?F) ?h] =>
      rewrite (run_hom (λ q, tryCatch (bind q F) h)) by solve_hom
  end.
  rewrite run_await, perform_ok by done.
  cbn [respond snd ofResult bind tryCatch setState run].
  fold (completedDocs (db w)). rewrite Hnone. done.
Qed.

Lemma run_fetchCompletedMatches_some w first rest :
  fails w (length (trace w)) = false →
  sort byTimestampDesc (completedDocs (db w)) = first :: rest →
  run fetchCompletedMatches w
  = run (fetchLeaderboard (Match.id first))
        (matchesListed w (first :: rest) (Match.id first)).
Proof.
  intros Hf Hsome. unfold fetchCompletedMatches.
  match goal with
  | |- context [tryCatch (bind (await ?r) ?F) ?h] =>
      rewrite (run_hom (λ q, tryCatch (bind q F) h)) by solve_hom
  end.
  rewrite run_await, perform_ok by done.
  cbn [respond snd ofResult bind tryCatch setState run].
  fold (completedDocs (db w)). rewrite Hsome.
  cbn [bind tryCatch run]. rewrite run_tryCatch.
  set (wm := matchesListed w (first :: rest) (Match.id first)).
  match goal with |- context [run (fetchLeaderboard ?m) ?w0] =>
    change w0 with wm end.
  pose proof (fetchLeaderboard_returns wm (Match.id first)) as Hret.
  destruct (run (fetchLeaderboard (Match.id first)) wm) as [w2 r].
  simpl in Hret. by subst r.
Qed.

(** The first of the sorted matches is a completed match that no completed
    match is more recent than. *)
Lemma sort_head_max (docs : list Match.t) first rest :
  sort byTimestampDesc docs = first :: rest →
  first ∈ docs ∧ ∀ m, m ∈ docs → Match.timestamp m ≤ Match.timestamp first.
Proof.
  intros Hs.
  pose proof (sort_perm byTimestampDesc docs) as Hperm.
  pose proof (sort_sorted Match.timestamp docs) as Hsorted.
  change (descBy Match.timestamp) with byTimestampDesc in Hsorted.
  rewrite Hs in Hperm, Hsorted. split.
  - rewrite <- Hperm. left.
  - intros m Hm. rewrite <- Hperm in Hm.
    apply StronglySorted_inv in Hsorted as [_ Hall].
    apply elem_of_cons in Hm as [->|Hm]; [lia|].
    rewrite Forall_forall in Hall. apply (Hall m Hm).
Qed.

Lemma run_handleMatchChange w matchId :
  run (handleMatchChange matchId) w
  = run (fetchLeaderboard matchId)
        (withState (applyUpdate (setSelectedMatch matchId)) w).
Proof. unfold handleMatchChange. rewrite run_bind. done. Qed.

Lemma fetchLeaderboard_selection w matchId :
  selectedMatch (state (run (fetchLeaderboard matchId) w).1) = selectedMatch (state w) ∧
  completedMatches (state (run (fetchLeaderboard matchId) w).1)
    = completedMatches (state w).
Proof.
  split.
  - apply (run_updatesIn selectedMatch leaderboardUpdate);
      [by intros [] st|apply fetchLeaderboard_updates].
  - apply (run_updatesIn completedMatches leaderboardUpdate);
      [by intros [] st|apply fetchLeaderboard_updates].
Qed.

(** ** The entry points of the component *)

(** X4. In every world, each entry point of the component -- the call made
    when it is mounted, [handleMatchChange] and [fetchLeaderboard] --
    returns normally and leaves [loading] off, so the spinner is never left
    on the page; [handleMatchChange] leaves the chosen match selected, and
    neither it nor [fetchLeaderboard] changes the list of completed
    matches. *)
Theorem X4_calls_end_loaded w :
  ((run mount w).2 = inr tt ∧
   loading (state (run mount w).1) = false ∧
   render (state (run mount w).1) ≠ Spinner) ∧
  (∀ matchId,
     (run (handleMatchChange matchId) w).2 = inr tt ∧
     let s' := state (run (handleMatchChange matchId) w).1 in
     loading s' = false ∧ render s' ≠ Spinner ∧
     selectedMatch s' = matchId ∧
     completedMatches s' = completedMatches (state w)) ∧
  (∀ matchId,
     (run (fetchLeaderboard matchId) w).2 = inr tt ∧
     let s' := state (run (fetchLeaderboard matchId) w).1 in
     loading s' = false ∧ render s' ≠ Spinner ∧
     selectedMatch s' = selectedMatch (state w) ∧
     completedMatches s' = completedMatches (state w)).
Proof.
  assert (∀ s, loading s = false → render s ≠ Spinner) as Hrender.
  { intros s Hl. unfold render. rewrite Hl.
    destruct (completedMatches s); done. }
  assert ((run mount w).2 = inr tt ∧ loading (state (run mount w).1) = false)
    as [Hret Hload].
  { unfold mount. destruct (fails w (length (trace w))) eqn:Hf.
    { by rewrite run_fetchCompletedMatches_down. }
    destruct (sort byTimestampDesc (completedDocs (db w))) as [|first rest] eqn:Hs.
    { apply sort_nil_inv in Hs. by rewrite run_fetchCompletedMatches_none. }
    rewrite (run_fetchCompletedMatches_some w first rest) by done.
    split; [apply fetchLeaderboard_returns|apply fetchLeaderboard_loading]. }
  split_and!; [done|done|by apply Hrender| |].
  - intros matchId. rewrite run_handleMatchChange.
    set (w0 := withState _ w).
    destruct (fetchLeaderboard_selection w0 matchId) as [Hsel Hcm].
    pose proof (fetchLeaderboard_loading w0 matchId) as Hl.
    split; [apply fetchLeaderboard_returns|]. cbn zeta.
    split_and!; [done|by apply Hrender|done|done].
  - intros matchId.
    destruct (fetchLeaderboard_selection w matchId) as [Hsel Hcm].
    pose proof (fetchLeaderboard_loading w matchId) as Hl.
    split; [apply fetchLeaderboard_returns|]. cbn zeta.
    split_and!; [done|by apply Hrender|done|done].
Qed.

(** X5. When the query for the completed matches is rejected, the error is
    written to the console and the state is left as it was but for
    [loading]; when no match is completed, the list is empty and no
    leaderboard is fetched.  On a freshly mounted component both cases
    show "No Completed Matches Yet". *)
Theorem X5_no_completed_matches w :
  (fails w (length (trace w)) = true →
     let w' := (run mount w).1 in
     state w' = loaded (state w) ∧
     console w' = console w ++ [(matchesMessage, FirestoreError)] ∧
     trace w' = trace w ++ [(QueryMatches completed, false)] ∧
     db w' = db w) ∧
  (fails w (length (trace w)) = false → completedDocs (db w) = [] →
     let w' := (run mount w).1 in
     completedMatches (state w') = [] ∧
     leaderboard (state w') = leaderboard (state w) ∧
     selectedMatch (state w') = selectedMatch (state w) ∧
     console w' = console w ∧
     trace w' = trace w ++ [(QueryMatches completed, true)] ∧
     db w' = db w) ∧
  (state w = initialState →
   fails w (length (trace w)) = true ∨ completedDocs (db w) = [] →
   render (state (run mount w).1) = NoCompletedMatchesYet).
Proof.
  unfold mount. split_and!.
  - intros Hf. by rewrite run_fetchCompletedMatches_down.
  - intros Hf Hnone. by rewrite run_fetchCompletedMatches_none.
  - intros Hst Hcase.
    destruct (fails w (length (trace w))) eqn:Hf.
    + rewrite run_fetchCompletedMatches_down by done. simpl. by rewrite Hst.
    + destruct Hcase as [?|Hnone]; [done|].
      by rewrite run_fetchCompletedMatches_none.
Qed.

Lemma X5_no_completed_matches_witness :
  render (state (run mount Sample.wDown).1) = NoCompletedMatchesYet.
Proof.
  refine (proj2 (proj2 (X5_no_completed_matches Sample.wDown)) _ _);
    [reflexivity|left; reflexivity].
Defined.

(** X6. When the query succeeds and some match is completed, the component
    selects the first match of the sorted list, which is a completed match
    that no completed match is more recent than, fetches the leaderboard of
    that match, and shows the board with the completed matches as options,
    most recent first. *)
Theorem X6_most_recent_match_selected w :
  fails w (length (trace w)) = false →
  completedDocs (db w) ≠ [] →
  ∃ first rest,
    sort byTimestampDesc (completedDocs (db w)) = first :: rest ∧
    first ∈ completedDocs (db w) ∧
    (∀ m, m ∈ completedDocs (db w) → Match.timestamp m ≤ Match.timestamp first) ∧
    let w' := (run mount w).1 in
    completedMatches (state w') = first :: rest ∧
    selectedMatch (state w') = Match.id first ∧
    fetched (Match.id first) (matchesListed w (first :: rest) (Match.id first)) w' ∧
    ∃ body,
      render (state w')
      = Board (Match.id first)
              (map (λ m, (Match.id m, matchLabel m)) (first :: rest)) body.
Proof.
  intros Hf Hsome.
  destruct (sort byTimestampDesc (completedDocs (db w))) as [|first rest] eqn:Hs.
  { by apply sort_nil_inv in Hs. }
  exists first, rest. split; [done|].
  destruct (sort_head_max _ _ _ Hs) as [Hin Hmax].
  split; [done|]. split; [done|]. unfold mount.
  rewrite (run_fetchCompletedMatches_some w first rest) by done.
  set (wm := matchesListed w (first :: rest) (Match.id first)).
  destruct (fetchLeaderboard_selection wm (Match.id first)) as [Hsel Hcm].
  pose proof (fetchLeaderboard_loading wm (Match.id first)) as Hl.
  cbn zeta. split_and!; [done|done|apply fetchLeaderboard_fetched|].
  unfold render. rewrite Hl, Hcm, Hsel. simpl. by eexists.
Qed.

Lemma X6_most_recent_match_selected_witness :
  ∃ first rest,
    sort byTimestampDesc (completedDocs (db Sample.w0)) = first :: rest ∧
    first ∈ completedDocs (db Sample.w0) ∧
    (∀ m, m ∈ completedDocs (db Sample.w0) → Match.timestamp m ≤ Match.timestamp first) ∧
    let w' := (run mount Sample.w0).1 in
    completedMatches (state w') = first :: rest ∧
    selectedMatch (state w') = Match.id first ∧
    fetched (Match.id first)
            (matchesListed Sample.w0 (first :: rest) (Match.id first)) w' ∧
    ∃ body,
      render (state w')
      = Board (Match.id first)
              (map (λ m, (Match.id m, matchLabel m)) (first :: rest)) body.
Proof.
  apply (X6_most_recent_match_selected Sample.w0); [reflexivity|].
  vm_compute. discriminate.
Defined.

Example mount_sample :
  selectedMatch (state (run mount Sample.w0).1) = "m2" ∧
  map Match.id (completedMatches (state (run mount Sample.w0).1)) = ["m2"; "m1"] ∧
  map LeaderboardEntry.userId (leaderboard (state (run mount Sample.w0).1)) = ["u3"].
Proof. by vm_compute. Qed.

Lemma fillTimestamps_matchId clk t es matchId :
  Forall (λ e, LeaderboardEntry.matchId e = matchId) es →
  Forall (λ e, LeaderboardEntry.matchId e = matchId) (fillTimestamps clk t es).
Proof.
  intros H. revert t. induction H as [|e es He _ IH]; intros t; simpl; [done|].
  destruct (LeaderboardEntry.timestamp e); constructor; simpl; eauto.
Qed.

(** X7. When calls are made one after the other, the board belongs to the
    selected match: after [handleMatchChange matchId], in every world, the
    match is selected and every entry shown is an entry of that match,
    provided that the stored snapshot of the match, if any, holds entries
    of that match (as all snapshots written by the component do). *)
Theorem X7_board_of_selected_match w matchId :
  (∀ doc, leaderboards (db w) !! matchId = Some doc →
          Forall (λ e, LeaderboardEntry.matchId e = matchId)
                 (LeaderboardDoc.entries doc)) →
  let s' := state (run (handleMatchChange matchId) w).1 in
  selectedMatch s' = matchId ∧
  Forall (λ e, LeaderboardEntry.matchId e = selectedMatch s') (leaderboard s').
Proof.
  intros Hstored s'.
  assert (selectedMatch s' = matchId) as Hsel.
  { unfold s'. rewrite run_handleMatchChange.
    by rewrite (proj1 (fetchLeaderboard_selection _ matchId)). }
  split; [done|]. rewrite Hsel. unfold s'. rewrite run_handleMatchChange.
  set (w0 := withState _ w).
  destruct (fetchLeaderboard_fetched w0 matchId)
    as [_ _ Hl|data _ Hc _ Hl _|data _ _ _ Hp _ Hl|_ _ _ Hl]; rewrite Hl.
  - constructor.
  - apply fillTimestamps_matchId, Hstored, Hc.
  - pose proof (ranking_wellFormed w0 matchId data Hp) as (_ & _ & _ & Hall).
    eapply Forall_impl; [exact Hall|]. by intros e (? & _).
  - constructor.
Qed.

Lemma X7_board_of_selected_match_witness :
  let s' := state (run (handleMatchChange "m1") Sample.w0).1 in
  selectedMatch s' = "m1" ∧
  Forall (λ e, LeaderboardEntry.matchId e = selectedMatch s') (leaderboard s').
Proof.
  apply (X7_board_of_selected_match Sample.w0 "m1").
  intros doc H. vm_compute in H. discriminate H.
Defined.

(** ** The percentage of a row *)

(** X9. The percentage shown in a row is twenty times the number of correct
    picks: it is the share of correct picks exactly when the prediction has
    five picks or no correct pick; for an entry computed from a prediction
    of five players it lies between 0 and 100. *)
Theorem X9_accuracy_shown :
  (∀ index entry,
     rowAccuracy (renderRow index entry) * LeaderboardEntry.totalPredictions entry
       = 100 * LeaderboardEntry.correctPredictions entry ↔
     LeaderboardEntry.correctPredictions entry = 0 ∨
     LeaderboardEntry.totalPredictions entry = 5) ∧
  (∀ index pd matchId md prediction now,
     length (Prediction.selectedPlayers prediction) = 5%nat →
     0 ≤ rowAccuracy (renderRow index (mkEntry pd matchId md prediction now)) ≤ 100).
Proof.
  split.
  - intros index entry. simpl. split.
    + intros H.
      destruct (decide (LeaderboardEntry.correctPredictions entry = 0)); [by left|].
      right. nia.
    + intros [->| ->]; lia.
  - intros index pd matchId md prediction now Hlen. simpl.
    pose proof (correctPredictionsOf_bounds pd matchId
                  (Prediction.selectedPlayers prediction)) as Hb.
    rewrite Hlen in Hb. lia.
Qed.

Lemma X9_accuracy_shown_witness :
  0 ≤ rowAccuracy (renderRow 0
        (mkEntry (indexPlayers (players Sample.dbRank)) "m1" (Match.mk "m1" Sample.match1)
                 (Prediction.mk "F" "f@x.org" "m1" ["a"; "b"; "c"; "x"; "y"]) 0)) ≤ 100.
Proof.
  apply (proj2 X9_accuracy_shown 0%nat). reflexivity.
Defined.

(** A prediction with more than five picks can show more than 100%. *)
Example accuracy_over_100_sample :
  rowAccuracy (renderRow 0
    (mkEntry (indexPlayers (players Sample.dbRank)) "m1" (Match.mk "m1" Sample.match1)
             (Prediction.mk "G" "g@x.org" "m1" ["a"; "b"; "c"; "a"; "b"; "c"]) 0)) = 120.
Proof. by vm_compute. Qed.

(** ** More about the scoring *)

(** X10. The count of correct picks is additive over the list of selected
    players and does not depend on their order; a player selected twice is
    counted twice. *)
Theorem X10_picks_counted_with_multiplicity pd matchId :
  (∀ a b, correctPredictionsOf pd matchId (a ++ b)
          = correctPredictionsOf pd matchId a + correctPredictionsOf pd matchId b) ∧
  (∀ a b, a ≡ₚ b → correctPredictionsOf pd matchId a = correctPredictionsOf pd matchId b) ∧
  (∀ playerId, pickCorrect pd matchId playerId →
               correctPredictionsOf pd matchId [playerId; playerId] = 2).
Proof.
  split_and!.
  - intros a b. rewrite !correctPredictionsOf_count, filter_app, length_app. lia.
  - intros a b Hperm. rewrite !correctPredictionsOf_count. by rewrite Hperm.
  - intros playerId Hp%pickCorrect_counted. rewrite correctPredictionsOf_count.
    by rewrite !filter_cons_True.
Qed.

Lemma X10_picks_counted_with_multiplicity_witness :
  correctPredictionsOf (indexPlayers (players Sample.dbRank)) "m1" ["a"; "a"] = 2.
Proof.
  apply (X10_picks_counted_with_multiplicity (indexPlayers (players Sample.dbRank)) "m1").
  apply pickCorrect_lookupTarget. eexists _, _, _.
  split_and!; [reflexivity|reflexivity|reflexivity|].
  vm_compute. discriminate.
Defined.

(** X11. [playersData[id]] is the last document of the listing with that
    id; when the ids of the listing are distinct, as document ids are, it
    is the document with that id, and absent when there is none. *)
Theorem X11_indexPlayers_lookup docs id :
  indexPlayers docs !! id = lastDoc id docs ∧
  (NoDup docs.*1 → indexPlayers docs !! id = lookupDoc id docs) ∧
  (id ∉ docs.*1 → indexPlayers docs !! id = None).
Proof.
  assert (indexPlayers docs !! id = lastDoc id docs) as Hlast.
  { unfold indexPlayers. rewrite foldl_insert_lookup.
    by destruct (lastDoc id docs). }
  split_and!; [done| |].
  - intros Hnd. rewrite Hlast. by apply lastDoc_lookupDoc.
  - intros Hnot. rewrite Hlast. unfold lastDoc. by rewrite filter_absent_id.
Qed.

Lemma X11_indexPlayers_lookup_witness :
  indexPlayers (players Sample.db0) !! "p1" = lookupDoc "p1" (players Sample.db0).
Proof.
  refine (proj1 (proj2 (X11_indexPlayers_lookup (players Sample.db0) "p1")) _).
  apply (bool_decide_unpack _). by vm_compute.
Defined.

(** ** The size of the result *)

Lemma scoreAll_users pd matchId md clk t0 docs u :
  length (filter (λ e, LeaderboardEntry.userId e = u) (scoreAll pd matchId md clk t0 docs))
  = length (filter (λ doc : string * Prediction.t, Prediction.userId doc.2 = u) docs).
Proof.
  revert t0. induction docs as [|doc docs IH]; intros t0; [done|].
  rewrite scoreAll_cons, !filter_cons. simpl.
  destruct (decide (Prediction.userId doc.2 = u)); simpl; by rewrite IH.
Qed.

(** X12. The result has one entry for each prediction of the match, up to
    ten: its length is the smaller of 10 and the number of predictions; a
    user who made several predictions for the match has as many entries
    (nothing merges them); and no entry left out by the cut has more correct
    picks than an entry of the result. *)
Theorem X12_result_size_and_cut w matchId data :
  succeed w 3 →
  lookupDoc matchId (matches (db w)) = Some data →
  ∃ result,
    (run (calculateLeaderboard matchId) w).2 = inr result ∧
    let docs := predictionsFor matchId (db w) in
    let ranked := sort byCorrectDesc (allEntries w matchId data) in
    result = take 10 ranked ∧
    length result = Nat.min 10 (length docs) ∧
    length (drop 10 ranked) = (length docs - 10)%nat ∧
    ((length docs ≤ 10)%nat →
       ∀ u, length (filter (λ e, LeaderboardEntry.userId e = u) result)
            = length (filter (λ doc, Prediction.userId doc.2 = u) docs)) ∧
    (∀ e e', e ∈ result → e' ∈ drop 10 ranked →
       LeaderboardEntry.correctPredictions e' ≤ LeaderboardEntry.correctPredictions e).
Proof.
  intros Hs Hm. exists (ranking w matchId data).
  rewrite (run_calculateLeaderboard_ok w matchId data Hs Hm).
  split; [done|]. intros docs ranked.
  assert (length ranked = length docs) as Hlen.
  { unfold ranked, allEntries. by rewrite sort_length, scoreAll_length. }
  split_and!.
  - done.
  - unfold ranking, slice0, topN. fold ranked. by rewrite length_take, Hlen.
  - by rewrite length_drop, Hlen.
  - intros Hle u. unfold ranking, slice0, topN. fold ranked.
    rewrite take_ge by lia. unfold ranked.
    rewrite (sort_perm byCorrectDesc). apply scoreAll_users.
  - intros e e' He He'. unfold ranking, slice0, topN in He. fold ranked in He.
    pose proof (sort_sorted LeaderboardEntry.correctPredictions
                  (allEntries w matchId data)) as Hsorted.
    change (descBy LeaderboardEntry.correctPredictions) with byCorrectDesc in Hsorted.
    fold ranked in Hsorted. rewrite <- (take_drop 10 ranked) in Hsorted.
    apply (StronglySorted_app_1_elem_of _ _ _ e e' Hsorted He He').
Qed.

Lemma X12_result_size_and_cut_witness :
  ∃ result,
    (run (calculateLeaderboard "m1") Sample.wMany).2 = inr result ∧
    let docs := predictionsFor "m1" (db Sample.wMany) in
    let ranked := sort byCorrectDesc (allEntries Sample.wMany "m1" Sample.match1) in
    result = take 10 ranked ∧
    length result = Nat.min 10 (length docs) ∧
    length (drop 10 ranked) = (length docs - 10)%nat ∧
    ((length docs ≤ 10)%nat →
       ∀ u, length (filter (λ e, LeaderboardEntry.userId e = u) result)
            = length (filter (λ doc, Prediction.userId doc.2 = u) docs)) ∧
    (∀ e e', e ∈ result → e' ∈ drop 10 ranked →
       LeaderboardEntry.correctPredictions e' ≤ LeaderboardEntry.correctPredictions e).
Proof.
  apply (X12_result_size_and_cut Sample.wMany "m1" Sample.match1);
    [intros i _; reflexivity|reflexivity].
Defined.

(** ** Answers that arrive out of order *)

(** The two turns of a call of [handleMatchChange] that finds a stored
    snapshot: it selects the match and reads the cache; later it shows the
    stored entries. *)
Lemma handleMatchChange_hit_turns w matchId doc :
  fails w (length (trace w)) = false →
  leaderboards (db w) !! matchId = Some doc →
  ∃ p',
    advance (handleMatchChange matchId) w
    = (answered (GetLeaderboard matchId)
         (withState (applyUpdate (setLoading true))
            (withState (applyUpdate (setSelectedMatch matchId)) w)), p') ∧
    ∀ w2,
      advance p' w2
      = (withState (shown (fillTimestamps (clock w2) (ticks w2)
                                          (LeaderboardDoc.entries doc)))
           (tickN (missingTimestamps (LeaderboardDoc.entries doc)) w2),
         Ret tt).
Proof.
  intros Hf Hc. eexists. split.
  { cbn -[perform answered]. rewrite perform_ok by done.
    cbn -[answered]. rewrite Hc. cbn -[answered]. reflexivity. }
  intros w2.
  lazymatch goal with
  | |- advance ?t ?w0 = _ =>
      lazymatch t with
      | context C [forEach ?g ?l] =>
          let K := constr:(λ q : Prog (list LeaderboardEntry.t),
                             ltac:(let r := context C [q] in exact r)) in
          rewrite (advance_hom K ltac:(solve_hom) (forEach g l) w0)
      end
  end.
  - rewrite run_readEntries. reflexivity.
  - apply noAwait_forEach. intros e. unfold readEntry.
    by destruct (LeaderboardEntry.timestamp e).
Qed.

(** X8. Nothing ties an answer to the match that is selected when it
    arrives.  When the user selects a match and then another one before the
    first answer has been handled, and the answer for the first match is
    handled last, the component ends with the second match selected and the
    leaderboard of the first one shown. *)
Theorem X8_late_answer_overwrites_board w first second doc1 doc2 :
  fails w (length (trace w)) = false →
  fails w (length (trace w) + 1) = false →
  leaderboards (db w) !! first = Some doc1 →
  leaderboards (db w) !! second = Some doc2 →
  let '(w', calls) :=
    interleave [0; 1; 1; 0]%nat [handleMatchChange first; handleMatchChange second] w in
  calls = [Ret tt; Ret tt] ∧
  selectedMatch (state w') = second ∧
  loading (state w') = false ∧
  leaderboard (state w')
    = fillTimestamps (clock w)
        (ticks w + missingTimestamps (LeaderboardDoc.entries doc2))
        (LeaderboardDoc.entries doc1).
Proof.
  intros Hf0 Hf1 Hc1 Hc2.
  destruct (handleMatchChange_hit_turns w first doc1 Hf0 Hc1) as (p1 & Hp1 & Hp1').
  set (w1 := answered (GetLeaderboard first)
               (withState (applyUpdate (setLoading true))
                  (withState (applyUpdate (setSelectedMatch first)) w))) in *.
  destruct (handleMatchChange_hit_turns w1 second doc2) as (p2 & Hp2 & Hp2').
  { unfold w1. simpl. rewrite length_app. exact Hf1. }
  { done. }
  cbn [interleave lookup list_lookup]. rewrite Hp1.
  cbn [interleave lookup list_lookup insert list_insert]. rewrite Hp2.
  cbn [interleave lookup list_lookup insert list_insert]. rewrite Hp2'.
  cbn [interleave lookup list_lookup insert list_insert]. rewrite Hp1'.
  cbn [interleave lookup list_lookup insert list_insert]. done.
Qed.

Lemma X8_late_answer_overwrites_board_witness :
  let '(w', calls) :=
    interleave [0; 1; 1; 0]%nat [handleMatchChange "m1"; handleMatchChange "m2"]
               MoreSamples.wTwoStored in
  calls = [Ret tt; Ret tt] ∧
  selectedMatch (state w') = "m2" ∧
  loading (state w') = false ∧
  leaderboard (state w')
    = fillTimestamps (clock MoreSamples.wTwoStored)
        (ticks MoreSamples.wTwoStored + missingTimestamps [MoreSamples.otherEntry])
        [Sample.stampedEntry].
Proof.
  apply (X8_late_answer_overwrites_board MoreSamples.wTwoStored "m1" "m2"
           (LeaderboardDoc.mk [Sample.stampedEntry] 700)
           (LeaderboardDoc.mk [MoreSamples.otherEntry] 800)); reflexivity.
Defined.

(** * The admin page and the leaderboard page *)

(** ** Sorting and selecting commute *)

Lemma StronglySorted_filter {A} (R : A → A → Prop) (P : A → Prop)
    `{∀ x, Decision (P x)} (l : list A) :
  StronglySorted R l → StronglySorted R (filter P l).
Proof.
  induction 1 as [|x l Hl IH Hx]; [constructor|].
  rewrite filter_cons. case_decide; [|done].
  constructor; [done|]. apply Forall_forall. intros y Hy.
  apply list_elem_of_filter in Hy as [_ Hy].
  by apply (proj1 (Forall_forall _ _) Hx).
Qed.

Lemma filter_comm {A} (P Q : A → Prop) `{∀ x, Decision (P x)} `{∀ x, Decision (Q x)}
    (l : list A) :
  filter P (filter Q l) = filter Q (filter P l).
Proof.
  induction l as [|x l IH]; [done|].
  rewrite !filter_cons.
  destruct (decide (Q x)), (decide (P x)); rewrite ?filter_cons;
    repeat case_decide; try done; by rewrite IH.
Qed.

(** A stable sort of the selected elements is the selection from the
    sorted list. *)
Lemma sort_filter {A} (key : A → Z) (P : A → Prop) `{∀ x, Decision (P x)}
    (l : list A) :
  filter P (sort (descBy key) l) = sort (descBy key) (filter P l).
Proof.
  apply sort_unique.
  - apply StronglySorted_filter, sort_sorted.
  - intros k. rewrite filter_comm, sort_stable. apply filter_comm.
Qed.

Lemma completedDocs_allDocs d :
  completedDocs d
  = filter (λ m, Match.status m = Some completed) (ManageMatches.allDocs d).
Proof.
  unfold completedDocs, ManageMatches.allDocs.
  induction (matches d) as [|doc docs IH]; [done|].
  rewrite fmap_cons, !filter_cons. simpl.
  unfold Match.status at 1. simpl.
  destruct (decide (MatchData.status doc.2 = Some completed)); simpl; by rewrite IH.
Qed.

(** ** The Firestore calls of the admin page *)

Lemma admin_fetchMatches_ok w :
  ManageMatches.fails w (length (ManageMatches.trace w)) = false →
  ManageMatches.fetchMatches w
  = ManageMatches.mkWorld (ManageMatches.db w)
      (ManageMatches.State.mk
         (sort byTimestampDesc (ManageMatches.allDocs (ManageMatches.db w))) false)
      (ManageMatches.console w)
      (ManageMatches.trace w ++ [(ManageMatches.GetMatches, true)])
      (ManageMatches.fails w).
Proof.
  intros Hf. unfold ManageMatches.fetchMatches, ManageMatches.perform.
  rewrite Hf. done.
Qed.

Lemma admin_fetchMatches_down w :
  ManageMatches.fails w (length (ManageMatches.trace w)) = true →
  ManageMatches.fetchMatches w
  = ManageMatches.mkWorld (ManageMatches.db w)
      (ManageMatches.State.mk (ManageMatches.State.matches (ManageMatches.state w)) false)
      (ManageMatches.console w ++ [("Error fetching matches:", FirestoreError)])
      (ManageMatches.trace w ++ [(ManageMatches.GetMatches, false)])
      (ManageMatches.fails w).
Proof.
  intros Hf. unfold ManageMatches.fetchMatches, ManageMatches.perform.
  rewrite Hf. done.
Qed.

Lemma admin_fetchMatches_db w :
  ManageMatches.db (ManageMatches.fetchMatches w) = ManageMatches.db w.
Proof.
  destruct (ManageMatches.fails w (length (ManageMatches.trace w))) eqn:Hf.
  - by rewrite admin_fetchMatches_down.
  - by rewrite admin_fetchMatches_ok.
Qed.

(** X13. [fetchMatches] never changes the database and always ends with
    [loading] cleared.  When its query is rejected it logs the error and
    keeps the list it had.  When the query is answered, the list is a
    rearrangement of all match documents, most recent first, and the
    completed matches that the leaderboard page lists on the same database
    are exactly the completed ones of this list, in the same order. *)
Theorem X13_admin_list_and_leaderboard_list w :
  let w' := ManageMatches.fetchMatches w in
  ManageMatches.db w' = ManageMatches.db w ∧
  ManageMatches.State.loading (ManageMatches.state w') = false ∧
  (ManageMatches.fails w (length (ManageMatches.trace w)) = true →
     ManageMatches.State.matches (ManageMatches.state w')
       = ManageMatches.State.matches (ManageMatches.state w) ∧
     ManageMatches.console w'
       = ManageMatches.console w ++ [("Error fetching matches:", FirestoreError)]) ∧
  (ManageMatches.fails w (length (ManageMatches.trace w)) = false →
     let all := ManageMatches.State.matches (ManageMatches.state w') in
     all ≡ₚ ManageMatches.allDocs (ManageMatches.db w) ∧
     StronglySorted (geKey Match.timestamp) all ∧
     ManageMatches.console w' = ManageMatches.console w ∧
     ∀ lw, db lw = ManageMatches.db w → succeed lw 1 →
       completedMatches (state (run fetchCompletedMatches lw).1)
       = filter (λ m, Match.status m = Some completed) all).
Proof.
  intros w'. split; [apply admin_fetchMatches_db|]. unfold w'.
  destruct (ManageMatches.fails w (length (ManageMatches.trace w))) eqn:Hf.
  - rewrite admin_fetchMatches_down by done. by split_and!.
  - rewrite admin_fetchMatches_ok by done. split_and!; [done|done|]. intros _.
    cbn [ManageMatches.state ManageMatches.State.matches ManageMatches.console].
    split_and!.
    + apply sort_perm.
    + apply (sort_sorted Match.timestamp).
    + done.
    + intros lw Hdb Hs. rewrite run_fetchCompletedMatches_ok by done.
      rewrite Hdb, completedDocs_allDocs. symmetry.
      apply (sort_filter Match.timestamp).
Qed.

Lemma X13_admin_list_and_leaderboard_list_witness :
  let all :=
    ManageMatches.State.matches
      (ManageMatches.state (ManageMatches.fetchMatches ManageMatches.wAdmin)) in
  all ≡ₚ ManageMatches.allDocs Sample.db0 ∧
  StronglySorted (geKey Match.timestamp) all ∧
  ManageMatches.console (ManageMatches.fetchMatches ManageMatches.wAdmin) = [] ∧
  ∀ lw, db lw = Sample.db0 → succeed lw 1 →
    completedMatches (state (run fetchCompletedMatches lw).1)
    = filter (λ m, Match.status m = Some completed) all.
Proof.
  refine (proj2 (proj2 (proj2
            (X13_admin_list_and_leaderboard_list ManageMatches.wAdmin))) _).
  reflexivity.
Defined.

(** ** Changing the status of a match *)

Lemma lookupDoc_updateStatus id st other docs :
  lookupDoc other (map (ManageMatches.updateStatus id st) docs)
  = (if decide (other = id) then ManageMatches.setStatus st else λ data, data)
      <$> lookupDoc other docs.
Proof.
  unfold lookupDoc. induction docs as [|[k v] docs IH]; [done|].
  rewrite fmap_cons, !filter_cons.
  assert ((ManageMatches.updateStatus id st (k, v)).1 = k) as Hfst.
  { unfold ManageMatches.updateStatus. by destruct (decide ((k, v).1 = id)). }
  rewrite Hfst. simpl. destruct (decide (k = other)) as [<-|Hne]; [|apply IH].
  simpl. unfold ManageMatches.updateStatus. simpl.
  by destruct (decide (k = id)).
Qed.

Lemma updateStatus_ids id st docs :
  (map (ManageMatches.updateStatus id st) docs).*1 = docs.*1.
Proof.
  induction docs as [|[k v] docs IH]; [done|].
  cbn [map]. rewrite !fmap_cons. f_equal; [|exact IH].
  unfold ManageMatches.updateStatus. by destruct (decide ((k, v).1 = id)).
Qed.

Lemma lookupDoc_Some_elem {V} id (docs : list (string * V)) v :
  lookupDoc id docs = Some v → (id, v) ∈ docs.
Proof.
  unfold lookupDoc. intros Hl.
  destruct (filter (λ d : string * V, d.1 = id) docs) as [|[k v'] rest] eqn:Hfl; [done|].
  simpl in Hl. simplify_eq.
  assert ((k, v) ∈ filter (λ d : string * V, d.1 = id) docs) as Hin
    by (rewrite Hfl; left).
  apply list_elem_of_filter in Hin as [Hk Hin]. simpl in Hk. by subst.
Qed.

(** After a successful status change. *)
Lemma admin_handleStatusChange_ok w matchId newStatus data :
  ManageMatches.fails w (length (ManageMatches.trace w)) = false →
  lookupDoc matchId (matches (ManageMatches.db w)) = Some data →
  ManageMatches.handleStatusChange matchId newStatus w
  = ManageMatches.fetchMatches
      (ManageMatches.mkWorld
         (ManageMatches.setMatches
            (map (ManageMatches.updateStatus matchId newStatus)) (ManageMatches.db w))
         (ManageMatches.state w) (ManageMatches.console w)
         (ManageMatches.trace w
            ++ [(ManageMatches.UpdateStatus matchId newStatus, true)])
         (ManageMatches.fails w)).
Proof.
  intros Hf Hl. unfold ManageMatches.handleStatusChange, ManageMatches.perform.
  rewrite Hf. cbn [ManageMatches.respond]. by rewrite Hl.
Qed.

(** X14. A successful [handleStatusChange]: the document of the match has
    the new status and is otherwise as before, all other documents, their
    order, and the players, predictions and stored leaderboards are
    unchanged, and the refreshed list shows the match with the new status.
    On the leaderboard page opened afterwards, the match is listed if and
    only if the new status is [completed]. *)
Theorem X14_status_change_decides_listing w matchId newStatus data :
  ManageMatches.fails w (length (ManageMatches.trace w)) = false →
  ManageMatches.fails w (S (length (ManageMatches.trace w))) = false →
  lookupDoc matchId (matches (ManageMatches.db w)) = Some data →
  let w' := ManageMatches.handleStatusChange matchId newStatus w in
  let d' := ManageMatches.db w' in
  lookupDoc matchId (matches d') = Some (ManageMatches.setStatus newStatus data) ∧
  (∀ other, other ≠ matchId →
     lookupDoc other (matches d') = lookupDoc other (matches (ManageMatches.db w))) ∧
  (matches d').*1 = (matches (ManageMatches.db w)).*1 ∧
  players d' = players (ManageMatches.db w) ∧
  predictions d' = predictions (ManageMatches.db w) ∧
  leaderboards d' = leaderboards (ManageMatches.db w) ∧
  ManageMatches.console w' = ManageMatches.console w ∧
  ManageMatches.State.matches (ManageMatches.state w')
    = sort byTimestampDesc (ManageMatches.allDocs d') ∧
  (∀ m, m ∈ ManageMatches.State.matches (ManageMatches.state w') →
     Match.id m = matchId → Match.status m = Some newStatus) ∧
  (∀ lw, db lw = d' → succeed lw 1 →
     listed matchId (run fetchCompletedMatches lw).1 ↔ newStatus = completed).
Proof.
  intros Hf0 Hf1 Hl w' d'. unfold d', w'.
  rewrite (admin_handleStatusChange_ok w matchId newStatus data Hf0 Hl).
  rewrite admin_fetchMatches_ok
    by (cbn [ManageMatches.fails ManageMatches.trace]; rewrite length_app, Nat.add_1_r; done).
  cbn [ManageMatches.db ManageMatches.state ManageMatches.console
       ManageMatches.State.matches].
  set (docs' := map (ManageMatches.updateStatus matchId newStatus)
                    (matches (ManageMatches.db w))).
  assert (∀ doc, doc ∈ docs' → doc.1 = matchId → MatchData.status doc.2 = Some newStatus)
    as Hst.
  { intros doc Hin Hid. apply list_elem_of_fmap in Hin as ([k v] & -> & _).
    unfold ManageMatches.updateStatus in *. by destruct (decide ((k, v).1 = matchId)). }
  split_and!; try done.
  - cbn [ManageMatches.setMatches matches]. fold docs'. unfold docs'.
    rewrite lookupDoc_updateStatus, Hl, decide_True by done. done.
  - intros other Hne. cbn [ManageMatches.setMatches matches].
    rewrite lookupDoc_updateStatus, decide_False by done.
    by destruct (lookupDoc other _).
  - apply updateStatus_ids.
  - intros m Hm Hid. rewrite sort_perm in Hm.
    apply list_elem_of_fmap in Hm as (doc & -> & Hdoc).
    apply (Hst doc Hdoc Hid).
  - intros lw Hdb Hs. unfold listed.
    rewrite run_fetchCompletedMatches_ok by done. rewrite Hdb. split.
    + intros (m & Hm & Hid). rewrite sort_perm in Hm.
      apply list_elem_of_fmap in Hm as (doc & -> & Hdoc).
      apply list_elem_of_filter in Hdoc as [Hc Hdoc].
      cbn [ManageMatches.setMatches matches] in Hdoc.
      pose proof (Hst doc Hdoc Hid) as Hs'. congruence.
    + intros ->.
      exists (Match.mk matchId (ManageMatches.setStatus completed data)). split; [|done].
      rewrite sort_perm. apply list_elem_of_fmap.
      exists (matchId, ManageMatches.setStatus completed data). split; [done|].
      apply list_elem_of_filter. split; [done|].
      cbn [ManageMatches.setMatches matches]. apply lookupDoc_Some_elem.
      rewrite lookupDoc_updateStatus, Hl, decide_True by done. done.
Qed.

Lemma X14_status_change_decides_listing_witness :
  lookupDoc "m3"
    (matches (ManageMatches.db
                (ManageMatches.handleStatusChange "m3" completed ManageMatches.wAdmin)))
  = Some (Sample.matchData 150 completed) ∧
  ∀ lw,
    db lw = ManageMatches.db
              (ManageMatches.handleStatusChange "m3" completed ManageMatches.wAdmin) →
    succeed lw 1 →
    listed "m3" (run fetchCompletedMatches lw).1 ↔ completed = completed.
Proof.
  destruct (X14_status_change_decides_listing ManageMatches.wAdmin "m3" completed
              (Sample.matchData 150 live) eq_refl eq_refl eq_refl)
    as (Hdoc & _ & _ & _ & _ & _ & _ & _ & _ & H).
  split; [exact Hdoc|exact H].
Defined.

(** ** Actions that change nothing *)

(** X15. What the admin actions leave alone.  A deletion that the user
    does not confirm issues no call and changes nothing.  A status change
    that is rejected, or that names a match without a document, and a
    deletion that is rejected, log the error and change neither the database
    nor the list shown: the list is not fetched again. *)
Theorem X15_admin_actions_without_effect w matchId newStatus :
  ManageMatches.handleDelete false matchId w = w ∧
  (ManageMatches.fails w (length (ManageMatches.trace w)) = true
   ∨ lookupDoc matchId (matches (ManageMatches.db w)) = None →
     let w' := ManageMatches.handleStatusChange matchId newStatus w in
     ManageMatches.db w' = ManageMatches.db w ∧
     ManageMatches.state w' = ManageMatches.state w ∧
     ManageMatches.console w'
       = ManageMatches.console w ++ [("Error updating match status:", FirestoreError)] ∧
     ManageMatches.trace w'
       = ManageMatches.trace w
           ++ [(ManageMatches.UpdateStatus matchId newStatus, false)]) ∧
  (ManageMatches.fails w (length (ManageMatches.trace w)) = true →
     let w' := ManageMatches.handleDelete true matchId w in
     ManageMatches.db w' = ManageMatches.db w ∧
     ManageMatches.state w' = ManageMatches.state w ∧
     ManageMatches.console w'
       = ManageMatches.console w ++ [("Error deleting match:", FirestoreError)] ∧
     ManageMatches.trace w'
       = ManageMatches.trace w ++ [(ManageMatches.DeleteMatch matchId, false)]).
Proof.
  split_and!.
  - done.
  - intros Hcase w'. unfold w', ManageMatches.handleStatusChange, ManageMatches.perform.
    destruct (ManageMatches.fails w (length (ManageMatches.trace w))) eqn:Hf; [done|].
    destruct Hcase as [?|Hnone]; [done|].
    cbn [ManageMatches.respond]. by rewrite Hnone.
  - intros Hf w'. unfold w', ManageMatches.handleDelete, ManageMatches.perform.
    cbn [negb]. by rewrite Hf.
Qed.

Lemma X15_admin_actions_without_effect_witness :
  let w' := ManageMatches.handleStatusChange "m9" live ManageMatches.wAdmin in
  ManageMatches.db w' = Sample.db0 ∧
  ManageMatches.state w' = ManageMatches.initialState ∧
  ManageMatches.console w' = [("Error updating match status:", FirestoreError)] ∧
  ManageMatches.trace w' = [(ManageMatches.UpdateStatus "m9" live, false)].
Proof.
  refine (proj1 (proj2
            (X15_admin_actions_without_effect ManageMatches.wAdmin "m9" live)) _).
  right. reflexivity.
Defined.

(** ** Deleting a match *)

Lemma lookupDoc_delete {V} id other (docs : list (string * V)) :
  lookupDoc other (filter (λ doc, doc.1 ≠ id) docs)
  = if decide (other = id) then None else lookupDoc other docs.
Proof.
  unfold lookupDoc. induction docs as [|[k v] docs IH].
  { by destruct (decide (other = id)). }
  rewrite !filter_cons. simpl.
  destruct (decide (k ≠ id)) as [Hk|Hk].
  - rewrite filter_cons. simpl. destruct (decide (k = other)) as [<-|Hne]; [|apply IH].
    simpl. by rewrite decide_False.
  - apply dec_stable in Hk as ->.
    destruct (decide (id = other)) as [<-|Hne]; [|apply IH].
    rewrite IH. by destruct (decide (id = id)).
Qed.

Lemma admin_handleDelete_ok w matchId :
  ManageMatches.fails w (length (ManageMatches.trace w)) = false →
  ManageMatches.handleDelete true matchId w
  = ManageMatches.fetchMatches
      (ManageMatches.mkWorld
         (ManageMatches.setMatches (filter (λ doc, doc.1 ≠ matchId)) (ManageMatches.db w))
         (ManageMatches.state w) (ManageMatches.console w)
         (ManageMatches.trace w ++ [(ManageMatches.DeleteMatch matchId, true)])
         (ManageMatches.fails w)).
Proof.
  intros Hf. unfold ManageMatches.handleDelete, ManageMatches.perform.
  cbn [negb]. by rewrite Hf.
Qed.

(** X16. A confirmed deletion that is not rejected removes the document of
    the match and nothing else: other matches, the players, the predictions
    and the stored leaderboards stay, those of the deleted match included.
    The refreshed list no longer shows the match, and the leaderboard page
    opened afterwards does not list it.  A leaderboard page that still
    offers the match shows its stored leaderboard when there is one, and
    otherwise shows the empty list after logging that the match was not
    found. *)
Theorem X16_deleted_match_keeps_its_leaderboard w matchId :
  ManageMatches.fails w (length (ManageMatches.trace w)) = false →
  let w' := ManageMatches.handleDelete true matchId w in
  let d' := ManageMatches.db w' in
  lookupDoc matchId (matches d') = None ∧
  (∀ other, other ≠ matchId →
     lookupDoc other (matches d') = lookupDoc other (matches (ManageMatches.db w))) ∧
  players d' = players (ManageMatches.db w) ∧
  predictions d' = predictions (ManageMatches.db w) ∧
  leaderboards d' = leaderboards (ManageMatches.db w) ∧
  (ManageMatches.fails w (S (length (ManageMatches.trace w))) = false →
     ∀ m, m ∈ ManageMatches.State.matches (ManageMatches.state w') →
          Match.id m ≠ matchId) ∧
  (∀ lw, db lw = d' →
     (succeed lw 1 → ¬ listed matchId (run fetchCompletedMatches lw).1) ∧
     (∀ doc, leaderboards (ManageMatches.db w) !! matchId = Some doc → succeed lw 1 →
        leaderboard (state (run (handleMatchChange matchId) lw).1)
        = fillTimestamps (clock lw) (ticks lw) (LeaderboardDoc.entries doc)) ∧
     (leaderboards (ManageMatches.db w) !! matchId = None → succeed lw 3 →
        leaderboard (state (run (handleMatchChange matchId) lw).1) = [] ∧
        console (run (handleMatchChange matchId) lw).1
        = console lw ++ [(calcMessage, MkError "Match not found")])).
Proof.
  intros Hf0 w' d'.
  assert (d' = ManageMatches.setMatches (filter (λ doc, doc.1 ≠ matchId))
                                        (ManageMatches.db w)) as Hd'.
  { unfold d', w'. by rewrite admin_handleDelete_ok, admin_fetchMatches_db. }
  assert (lookupDoc matchId (matches d') = None) as Hgone.
  { rewrite Hd'. cbn [ManageMatches.setMatches matches].
    rewrite lookupDoc_delete. by rewrite decide_True. }
  assert (∀ doc, doc ∈ matches d' → doc.1 ≠ matchId) as Hids.
  { intros doc. rewrite Hd'. cbn [ManageMatches.setMatches matches].
    intros Hin. by apply list_elem_of_filter in Hin as [Hne _]. }
  split_and!.
  - done.
  - intros other Hne. rewrite Hd'. cbn [ManageMatches.setMatches matches].
    rewrite lookupDoc_delete. by rewrite decide_False.
  - by rewrite Hd'.
  - by rewrite Hd'.
  - by rewrite Hd'.
  - intros Hf1 m Hm Hid. unfold d', w' in Hids. unfold w' in Hm.
    rewrite admin_handleDelete_ok in Hm, Hids by done.
    rewrite admin_fetchMatches_ok in Hm, Hids
      by (cbn [ManageMatches.fails ManageMatches.trace];
          rewrite length_app, Nat.add_1_r; done).
    cbn [ManageMatches.db ManageMatches.state ManageMatches.State.matches] in Hm, Hids.
    rewrite sort_perm in Hm. apply list_elem_of_fmap in Hm as (doc & -> & Hdoc).
    by apply (Hids doc Hdoc).
  - intros lw Hdb. split_and!.
    + intros Hs (m & Hm & Hid).
      rewrite run_fetchCompletedMatches_ok in Hm by done.
      rewrite sort_perm, Hdb in Hm.
      apply list_elem_of_fmap in Hm as (doc & -> & Hdoc).
      apply list_elem_of_filter in Hdoc as [_ Hdoc].
      by apply (Hids doc Hdoc).
    + intros doc Hdoc Hs. rewrite run_handleMatchChange.
      rewrite (run_fetchLeaderboard_hit _ matchId doc); [done|exact Hs|].
      cbn [withState db]. rewrite Hdb, Hd'. exact Hdoc.
    + intros Hnone Hs. rewrite run_handleMatchChange.
      rewrite run_fetchLeaderboard_notFound; [done|exact Hs|..].
      * cbn [withState db]. rewrite Hdb, Hd'. exact Hnone.
      * cbn [withState db]. by rewrite Hdb.
Qed.

Lemma X16_deleted_match_keeps_its_leaderboard_witness :
  let w' := ManageMatches.handleDelete true "m1"
              (ManageMatches.mkWorld (db Sample.wStored) ManageMatches.initialState
                                     [] [] (λ _, false)) in
  lookupDoc "m1" (matches (ManageMatches.db w')) = None ∧
  ∀ lw, db lw = ManageMatches.db w' → succeed lw 1 →
    leaderboard (state (run (handleMatchChange "m1") lw).1)
    = fillTimestamps (clock lw) (ticks lw) [Sample.stampedEntry].
Proof.
  destruct (X16_deleted_match_keeps_its_leaderboard
              (ManageMatches.mkWorld (db Sample.wStored) ManageMatches.initialState
                                     [] [] (λ _, false)) "m1" eq_refl)
    as (Hgone & _ & _ & _ & _ & _ & Hlw).
  split; [exact Hgone|].
  intros lw Hdb Hs.
  exact (proj1 (proj2 (Hlw lw Hdb))
           (LeaderboardDoc.mk [Sample.stampedEntry] 700) eq_refl Hs).
Defined.

(** * Stored snapshots are final *)

(** X17. Once [fetchLeaderboard] has computed and stored the leaderboard of
    a match, every later call for that match that can read the stored
    snapshot shows the very same entries, whatever the players, matches and
    predictions collections hold by then: it only reads the snapshot and
    changes nothing.  Scores entered or predictions made after the first
    computation never reach the board. *)
Theorem X17_stored_snapshot_is_final w matchId data :
  succeed w 5 →
  leaderboards (db w) !! matchId = None →
  lookupDoc matchId (matches (db w)) = Some data →
  predictionsFor matchId (db w) ≠ [] →
  let w1 := (run (fetchLeaderboard matchId) w).1 in
  ∀ w2,
    leaderboards (db w2) !! matchId = leaderboards (db w1) !! matchId →
    succeed w2 1 →
    let w3 := (run (fetchLeaderboard matchId) w2).1 in
    leaderboard (state w3) = leaderboard (state w1) ∧
    db w3 = db w2 ∧
    trace w3 = trace w2 ++ [(GetLeaderboard matchId, true)] ∧
    ticks w3 = ticks w2.
Proof.
  intros Hs Hc Hm Hp w1 w2 Hsame Hs2 w3. unfold w3, w1 in *.
  rewrite (run_fetchLeaderboard_computed w matchId data) in * by done.
  cbn [fst db leaderboards setLeaderboards state shown leaderboard] in *.
  rewrite lookup_insert_eq in Hsame.
  rewrite (run_fetchLeaderboard_hit w2 matchId _ Hs2 Hsame).
  cbn [fst db state shown leaderboard trace ticks snapshotOf LeaderboardDoc.entries].
  rewrite fillTimestamps_id, missingTimestamps_none by apply ranking_hasTimestamp.
  split_and!; [done|done|done|lia].
Qed.

Lemma X17_stored_snapshot_is_final_witness :
  let w1 := (run (fetchLeaderboard "m1") Sample.w0).1 in
  let w2 := mkWorld (mkDb [] [] [] (leaderboards (db w1)))
                    initialState [] [] 0 (λ n, Z.of_nat n) (λ _, false) in
  let w3 := (run (fetchLeaderboard "m1") w2).1 in
  leaderboard (state w3) = leaderboard (state w1) ∧
  db w3 = db w2 ∧
  trace w3 = trace w2 ++ [(GetLeaderboard "m1", true)] ∧
  ticks w3 = ticks w2.
Proof.
  intros w1 w2.
  apply (X17_stored_snapshot_is_final Sample.w0 "m1" Sample.match1);
    [intros i _; reflexivity|reflexivity|reflexivity|discriminate
    |reflexivity|intros i _; reflexivity].
Defined.
